(** * semantic-release-action: version model, version calculator and
      release orchestrator

    A shallow embedding of [utils.js] (parseVersion, formatVersion,
    detectTriggerMode, parseLabels, validateInputs), [version.js]
    (calculateVersion, parseExistingPrerelease, incrementPrerelease,
    validateVersion, compareVersions), [release.js] (createRelease,
    createMajorRelease, updateMajorVersionTag, deleteMajorReleaseIfExists,
    createMajorReleaseNotes, copyReleaseAssets, getReleaseByTag) and
    [main.js] (createAndPushTag, run, getLatestVersion, commitChanges,
    generateReleaseNotes).

    Modelling conventions.
    - A JavaScript string is a [string]: each [ascii] stands for one code
      unit in the range 0..255.  The character classes the code relies on
      ([\w], [\d], the white space skipped by [parseInt]) are written out
      for that range.
    - The numbers of the program hold integers.  A JavaScript number is
      a double; a double that holds an integer is the [Z] it holds,
      [Infinity] is 2^1024, which no double reaches, and [NaN] is kept apart
      in the type [Number].  Reading a number ([parseInt]), adding and
      subtracting round to the nearest double ([toDouble]), and printing
      ([numToString]) gives the text that JavaScript gives: plain digits
      below 10^21, the exponent form from there on.  Up to 2^53 all of this
      is exact integer arithmetic.
    - [null] and [undefined] are [None].
    - A function that may throw returns a [result].
    - Code with side effects is a function from the state of the outside
      world to an [Outcome]: the result, the new state of the world, and the
      chronological list of the events it emitted (log lines, outputs, and
      every git command of the release engine and every call to the
      releases API, with its outcome).  The shell commands of the helpers
      of main.js that [run] takes as collaborators show in the world, not
      in the events.
    - The log lines are kept without their decorative emoji. *)

From Stdlib Require Import ZArith Lia List Bool Ascii String.
From stdpp Require Import base gmap strings.
Import ListNotations.

Open Scope string_scope.
Open Scope Z_scope.

(* Concatenation unfolds under [simpl] whenever its first argument starts
   with a constructor. *)
#[local] Arguments String.append !s1 s2 : simpl nomatch.

(* ------------------------------------------------------------------ *)
(** ** JavaScript strings *)

Definition code (c : ascii) : N := N_of_ascii c.

Definition inRange (lo hi : N) (c : ascii) : bool :=
  ((lo <=? code c) && (code c <=? hi))%N.

(** [\d] *)
Definition isDigit (c : ascii) : bool := inRange 48 57 c.

(** [\w], that is [A-Za-z0-9_] *)
Definition isWordChar (c : ascii) : bool :=
  inRange 48 57 c || inRange 65 90 c || inRange 97 122 c || (code c =? 95)%N.

(** StrWhiteSpaceChar: TAB, LF, VT, FF, CR, SP and NBSP. *)
Definition isStrWhiteSpace (c : ascii) : bool :=
  inRange 9 13 c || (code c =? 32)%N || (code c =? 160)%N.

Fixpoint allChars (p : ascii -> bool) (s : string) : bool :=
  match s with
  | EmptyString => true
  | String c r => p c && allChars p r
  end.

(** Truthiness of a string: only the empty string is falsy. *)
Definition nonEmpty (s : string) : bool :=
  match s with EmptyString => false | String _ _ => true end.

(** Truthiness of a value that is a string or [null]. *)
Definition truthy (o : option string) : bool :=
  match o with Some s => nonEmpty s | None => false end.

(** [s.startsWith(c)] for a one-character [c]. *)
Definition startsWith (c : ascii) (s : string) : bool :=
  match s with String d _ => Ascii.eqb d c | EmptyString => false end.

(** [s.slice(n)] for [n >= 0]. *)
Fixpoint slice (n : nat) (s : string) : string :=
  match n, s with
  | O, _ => s
  | S k, String _ r => slice k r
  | S _, EmptyString => EmptyString
  end.

(** The first [n] characters: [s.substring(0, n)]. *)
Fixpoint prefix (n : nat) (s : string) : string :=
  match n, s with
  | S k, String c r => String c (prefix k r)
  | _, _ => EmptyString
  end.

(** Position of the first [c] in [s], if any. *)
Fixpoint find (c : ascii) (s : string) : option nat :=
  match s with
  | EmptyString => None
  | String d r =>
      if Ascii.eqb d c then Some O
      else match find c r with Some n => Some (S n) | None => None end
  end.

(** [s.indexOf(c)]: the index of the first [c], or -1. *)
Definition indexOf (c : ascii) (s : string) : Z :=
  match find c s with Some n => Z.of_nat n | None => -1 end.

(** [s.substring(a, b)] for [0 <= a <= b]. *)
Definition substring (a b : Z) (s : string) : string :=
  prefix (Z.to_nat b - Z.to_nat a) (slice (Z.to_nat a) s).

(** [s.substring(a)] for [0 <= a]. *)
Definition substringFrom (a : Z) (s : string) : string :=
  slice (Z.to_nat a) s.

(** [s.split(sep)] for a one-character separator: never an empty array. *)
Fixpoint split (sep : ascii) (s : string) : list string :=
  match s with
  | EmptyString => [EmptyString]
  | String c r =>
      if Ascii.eqb c sep then EmptyString :: split sep r
      else match split sep r with
           | h :: t => String c h :: t
           | [] => [String c EmptyString]
           end
  end.

(** [parts[i]] coerced to a string, as [parseInt] does with its argument:
    an index out of range reads [undefined]. *)
Definition at_ (parts : list string) (i : nat) : string :=
  nth i parts "undefined".

(* ------------------------------------------------------------------ *)
(** ** JavaScript numbers *)

(** A number that holds an integer: the integer a double holds, with
    2^1024 for [Infinity] and its opposite for [-Infinity]. *)
Inductive Number : Type :=
| NaN
| Num (z : Z).

(** [Number.MAX_SAFE_INTEGER]: up to it, and at 2^53, every integer is a
    double. *)
Definition MAX_SAFE_INTEGER : Z := 2 ^ 53 - 1.

(** The largest double is (2^53 - 1) * 2^971; what rounds to 2^1024 or
    more is [Infinity]. *)
Definition Infinity : Z := 2 ^ 1024.

(** The double nearest to the integer [z > 0], a tie going to the even
    mantissa: with [e] the position of the leading bit, the doubles around
    [z] are the multiples of 2^(e - 52). *)
Definition roundPositive (z : Z) : Z :=
  let e := Z.log2 z in
  if e <? 53 then z
  else
    let ulp := 2 ^ (e - 52) in
    let q := z / ulp in
    let r := z mod ulp in
    let up := if 2 * r <? ulp then false else if ulp <? 2 * r then true else Z.odd q in
    let rounded := (if up then q + 1 else q) * ulp in
    if Infinity <=? rounded then Infinity else rounded.

(** The number that JavaScript has for the integer [z]. *)
Definition toDouble (z : Z) : Z :=
  match z with
  | Z0 => 0
  | Zpos _ => roundPositive z
  | Zneg _ => - roundPositive (- z)
  end.

(** [a - b] on numbers.  [Infinity - Infinity], which is [NaN], is left
    out: the code subtracts two numbers only after [a !== b]. *)
Definition subtract (a b : Z) : Z :=
  if Z.abs a =? Infinity then a
  else if Z.abs b =? Infinity then - b
  else toDouble (a - b).

(** Value of [c] as a digit in radix 10 or 16. *)
Definition digitValue (radix : Z) (c : ascii) : option Z :=
  let n := Z.of_N (code c) in
  let v :=
    if inRange 48 57 c then Some (n - 48)
    else if inRange 97 122 c then Some (n - 87)
    else if inRange 65 90 c then Some (n - 55)
    else None in
  match v with
  | Some d => if d <? radix then Some d else None
  | None => None
  end.

(** The longest prefix of [s] made of digits, read in [radix]; [acc] is
    what was read so far ([NaN] when nothing was). *)
Fixpoint parseDigits (radix : Z) (s : string) (acc : Number) : Number :=
  match s with
  | EmptyString => acc
  | String c r =>
      match digitValue radix c with
      | Some d =>
          parseDigits radix r
            (Num (radix * (match acc with Num a => a | NaN => 0 end) + d))
      | None => acc
      end
  end.

Fixpoint trimStart (s : string) : string :=
  match s with
  | String c r => if isStrWhiteSpace c then trimStart r else s
  | EmptyString => EmptyString
  end.

(** [parseInt(s)] without a radix: leading white space is skipped, a sign
    is read and removed, a [0x] or [0X] prefix selects radix 16, and the
    longest prefix of digits is read; no digit at all gives [NaN].  The
    digits are read exactly ([parseDigits]) and the result is the number
    nearest to what they spell. *)
Definition parseInt (s : string) : Number :=
  let s1 := trimStart s in
  let sign := if startsWith "-" s1 then -1 else 1 in
  let s2 := if startsWith "-" s1 || startsWith "+" s1 then slice 1 s1 else s1 in
  let hex :=
    startsWith "0" s2 && (startsWith "x" (slice 1 s2) || startsWith "X" (slice 1 s2)) in
  let radix := if hex then 16 else 10 in
  let s3 := if hex then slice 2 s2 else s2 in
  match parseDigits radix s3 NaN with
  | Num n => Num (toDouble (sign * n))
  | NaN => NaN
  end.

(** [x || 0] on a number: [NaN] and [0] are falsy. *)
Definition orZero (x : Number) : Z :=
  match x with Num n => n | NaN => 0 end.

Definition digitChar (d : N) : ascii := ascii_of_N (48 + d).

(** Decimal digits of [n], most significant first, in front of [acc]. *)
Fixpoint digitsOf (fuel : nat) (n : N) (acc : string) : string :=
  let acc' := String (digitChar (n mod 10)) acc in
  match fuel with
  | O => acc'
  | S f => if (n <? 10)%N then acc' else digitsOf f (n / 10) acc'
  end.

(** The decimal digits of an integer [n], all of them; a number of [k]
    bits has at most [k] decimal digits. *)
Definition decimal (n : Z) : string :=
  let digits := digitsOf (N.to_nat (N.size (Z.abs_N n))) (Z.abs_N n) "" in
  if n <? 0 then "-" ++ digits else digits.

Definition decimalLength (x : Z) : Z := Z.of_nat (String.length (decimal x)).

(** Number::toString looks for the fewest digits [k] such that a number
    [s * 10^(n - k)] of [k] digits is read back as [x].  The candidates with
    [k] digits are the two multiples of 10^(n - k) around [x]. *)
Definition candidates (x k : Z) : list Z :=
  let unit := 10 ^ (decimalLength x - k) in
  let low := x / unit * unit in
  List.filter (fun v => toDouble v =? x) [low; low + unit].

(** Of two candidates the one nearest to [x], and the even one when they
    are as near. *)
Definition closest (x unit : Z) (vs : list Z) : option Z :=
  match vs with
  | [] => None
  | [v] => Some v
  | low :: high :: _ =>
      if x - low <? high - x then Some low
      else if high - x <? x - low then Some high
      else if Z.even (low / unit) then Some low else Some high
  end.

(** A double has at most 17 significant digits. *)
Fixpoint shortestFrom (fuel : nat) (x k : Z) : Z :=
  match fuel with
  | O => x
  | S f =>
      if decimalLength x <? k then x
      else match closest x (10 ^ (decimalLength x - k)) (candidates x k) with
           | Some v => v
           | None => shortestFrom f x (k + 1)
           end
  end.

Definition shortest (x : Z) : Z := shortestFrom 17 x 1.

Fixpoint stripZeros (s : string) : string :=
  match s with
  | EmptyString => EmptyString
  | String c r =>
      match stripZeros r with
      | EmptyString => if Ascii.eqb c "0" then EmptyString else String c EmptyString
      | r' => String c r'
      end
  end.

(** The exponent form: the first digit, the other significant digits
    after a point, and [e+] with the position of the first digit. *)
Definition exponential (v : Z) : string :=
  let e := decimal (decimalLength v - 1) in
  match stripZeros (decimal v) with
  | EmptyString => "0"
  | String c EmptyString => String c ("e+" ++ e)
  | String c rest => String c ("." ++ rest ++ "e+" ++ e)
  end.

(** [`${x}`] for a double [x >= 0] that holds an integer: up to 2^53 - 1
    its digits; beyond, the digits of the shortest number that is read back
    as [x], in the exponent form from 10^21 on. *)
Definition printDouble (x : Z) : string :=
  if x <=? MAX_SAFE_INTEGER then decimal x
  else if Infinity <=? x then "Infinity"
  else
    let v := shortest x in
    if v <? 10 ^ 21 then decimal v else exponential v.

(** [`${n}`] for the number that JavaScript has for [n]. *)
Definition numToString (n : Z) : string :=
  if n <? 0 then "-" ++ printDouble (toDouble (- n)) else printDouble (toDouble n).

(** [`${x}`] for a number. *)
Definition NumberToString (x : Number) : string :=
  match x with Num n => numToString n | NaN => "NaN" end.

(** [x + 1] on a number. *)
Definition succNumber (x : Number) : Number :=
  match x with Num n => Num (toDouble (n + 1)) | NaN => NaN end.

(* ------------------------------------------------------------------ *)
(** ** Results *)

(** A thrown [Error]: its message and, for API errors, the HTTP status. *)
Record Error : Type := mkError { message : string; status : option Z }.

Inductive result (A : Type) : Type :=
| Ok (a : A)
| Throw (e : Error).
Arguments Ok {A} a.
Arguments Throw {A} e.

(* ------------------------------------------------------------------ *)
(** ** utils.js: the version model *)

Record Version : Type := mkVersion {
  major : Z;
  minor : Z;
  patch : Z;
  prerelease : option string
}.

Definition parseVersion (version : string) : Version :=
  let cleanVersion := if startsWith "v" version then slice 1 version else version in
  let prereleaseIndex := indexOf "-" cleanVersion in
  let '(versionPart, prereleasePart) :=
    if negb (prereleaseIndex =? -1)
    then (substring 0 prereleaseIndex cleanVersion,
          Some (substringFrom (prereleaseIndex + 1) cleanVersion))
    else (cleanVersion, None) in
  let parts := split "." versionPart in
  {| major := orZero (parseInt (at_ parts 0));
     minor := orZero (parseInt (at_ parts 1));
     patch := orZero (parseInt (at_ parts 2));
     prerelease := prereleasePart |}.

Definition formatVersion (major minor patch : Z) (prerelease : option string) : string :=
  let version := "v" ++ numToString major ++ "." ++ numToString minor ++ "." ++ numToString patch in
  match prerelease with
  | Some p => if nonEmpty p then version ++ "-" ++ p else version
  | None => version
  end.

(* ------------------------------------------------------------------ *)
(** ** version.js: the version calculator *)

(** The two fields of [inputs] that version.js reads. *)
Record PrereleaseInputs : Type := mkPrereleaseInputs {
  prereleaseSuffix : string;
  prereleaseNumber : string
}.

Definition calculateVersion (latestVersion releaseType : string)
    (isPrerelease : bool) (inputs : PrereleaseInputs) : result string :=
  let current := parseVersion latestVersion in
  let bumped :=
    if String.eqb releaseType "major"
    then Some (toDouble (major current + 1), 0, 0)
    else if String.eqb releaseType "minor"
    then Some (major current, toDouble (minor current + 1), 0)
    else if String.eqb releaseType "patch"
    then Some (major current, minor current, toDouble (patch current + 1))
    else None in
  match bumped with
  | None => Throw (mkError ("Invalid release type: " ++ releaseType) None)
  | Some (major, minor, patch) =>
      let prerelease :=
        if isPrerelease
        then Some (prereleaseSuffix inputs ++ "." ++ prereleaseNumber inputs)
        else None in
      Ok (formatVersion major minor patch prerelease)
  end.

Record ExistingPrerelease : Type := mkExisting {
  suffix : string;
  number : Number
}.

(** The longest prefix of [s] made of word characters, and what follows. *)
Fixpoint spanWord (s : string) : string * string :=
  match s with
  | String c r =>
      if isWordChar c then let '(w, rest) := spanWord r in (String c w, rest)
      else (EmptyString, s)
  | EmptyString => (EmptyString, EmptyString)
  end.

(** [s.match(/^(\w+)\.(\d+)$/)]: the two groups of the match, if any.
    A word character is never a dot, so the first group can only be the
    longest prefix of word characters. *)
Definition matchWordDotDigits (s : string) : option (string * string) :=
  let '(w, rest) := spanWord s in
  let d := slice 1 rest in
  if nonEmpty w && startsWith "." rest && nonEmpty d && allChars isDigit d
  then Some (w, d)
  else None.

Definition parseExistingPrerelease (version : string) : option ExistingPrerelease :=
  let parts := split "-" version in
  if (List.length parts <? 2)%nat then None
  else
    let prereleasePart := at_ parts 1 in
    match matchWordDotDigits prereleasePart with
    | Some (g1, g2) => Some {| suffix := g1; number := parseInt g2 |}
    | None => None
    end.

Definition incrementPrerelease (version : string) (inputs : PrereleaseInputs) : string :=
  let fresh := version ++ "-" ++ prereleaseSuffix inputs ++ "." ++ prereleaseNumber inputs in
  match parseExistingPrerelease version with
  | Some existing =>
      if String.eqb (suffix existing) (prereleaseSuffix inputs)
      then
        let versionBase := at_ (split "-" version) 0 in
        versionBase ++ "-" ++ prereleaseSuffix inputs ++ "."
          ++ NumberToString (succNumber (number existing))
      else fresh
  | None => fresh
  end.

(** [validateVersion]'s grammar, [/^v?\d+\.\d+\.\d+(-\w+\.\d+)?$/]. *)
Fixpoint spanDigits (s : string) : string * string :=
  match s with
  | String c r =>
      if isDigit c then let '(d, rest) := spanDigits r in (String c d, rest)
      else (EmptyString, s)
  | EmptyString => (EmptyString, EmptyString)
  end.

Definition validVersionText (version : string) : bool :=
  let s0 := if startsWith "v" version then slice 1 version else version in
  let '(d1, r1) := spanDigits s0 in
  let '(d2, r2) := spanDigits (slice 1 r1) in
  let '(d3, r3) := spanDigits (slice 1 r2) in
  nonEmpty d1 && startsWith "." r1 && nonEmpty d2 && startsWith "." r2 && nonEmpty d3
  && (negb (nonEmpty r3)
      || (startsWith "-" r3
          && match matchWordDotDigits (slice 1 r3) with Some _ => true | None => false end)).

Definition validateVersion (version : string) : result unit :=
  if validVersionText version then Ok tt
  else Throw (mkError ("Invalid version format: " ++ version) None).

Section CompareVersions.

(** [a.localeCompare(b)]: the collation of the host environment. *)
Variable localeCompare : string -> string -> Z.

Definition compareVersions (version1 version2 : string) : Z :=
  let v1 := parseVersion version1 in
  let v2 := parseVersion version2 in
  if negb (major v1 =? major v2) then subtract (major v1) (major v2)
  else if negb (minor v1 =? minor v2) then subtract (minor v1) (minor v2)
  else if negb (patch v1 =? patch v2) then subtract (patch v1) (patch v2)
  else if truthy (prerelease v1) && truthy (prerelease v2)
  then localeCompare (default "" (prerelease v1)) (default "" (prerelease v2))
  else if truthy (prerelease v1) then -1
  else if truthy (prerelease v2) then 1
  else 0.

End CompareVersions.

(* ------------------------------------------------------------------ *)
(** ** Effects: the outside world, events and outcomes *)

(** The git commands the orchestrator runs through [execSync]. *)
Inductive GitCmd : Type :=
| GitTagDelete (name : string)             (* git tag -d "name" *)
| GitPushDelete (name : string)            (* git push origin ":refs/tags/name" *)
| GitTagAnnotate (name msg : string)       (* git tag -a "name" -m "msg" *)
| GitPushHead                              (* git push origin HEAD *)
| GitPushTag (name : string).              (* git push origin "name" *)

Record RepoRef : Type := mkRepoRef { owner : string; repo : string }.

Record Asset : Type := mkAsset {
  asset_id : Z;
  asset_name : string;
  asset_content_type : string;
  asset_size : Z
}.

Record Release : Type := mkRelease {
  release_id : Z;
  release_name : string;
  release_body : string;
  html_url : string;
  assets : option (list Asset)
}.

Record ReleaseParams : Type := mkReleaseParams {
  rp_repo : RepoRef;
  rp_tag_name : string;
  rp_name : string;
  rp_body : string;
  rp_draft : bool;
  rp_prerelease : bool
}.

Record UploadParams : Type := mkUploadParams {
  up_repo : RepoRef;
  up_release_id : Z;
  up_name : string;
  up_data : string;
  up_content_type : string;
  up_content_length : Z
}.

(** The calls made to [octokit.rest.repos]. *)
Inductive ApiCall : Type :=
| CreateRelease (p : ReleaseParams)
| GetReleaseByTag (r : RepoRef) (tag : string)
| DeleteRelease (r : RepoRef) (id : Z)
| GetReleaseAsset (r : RepoRef) (id : Z)
| UploadReleaseAsset (p : UploadParams).

(** What a run leaves behind, in order: the lines written with
    [core.info], [core.warning] and [core.error], the outputs, the failure
    mark, and every external call with whether it succeeded. *)
Inductive Event : Type :=
| Info (msg : string)
| Warning (msg : string)
| LogError (msg : string)
| SetOutput (key value : string)
| SetFailed (msg : string)
| Exec (c : GitCmd) (ok : bool)
| Api (c : ApiCall) (ok : bool).

Record Outcome (W A : Type) : Type := mkOutcome {
  res : result A;
  final : W;
  emitted : list Event
}.
Arguments mkOutcome {W A} res final emitted.
Arguments res {W A} o.
Arguments final {W A} o.
Arguments emitted {W A} o.

(** An effectful computation over a world of type [W]. *)
Definition M (W A : Type) : Type := W -> Outcome W A.

Definition ret {W A} (a : A) : M W A :=
  fun w => mkOutcome (Ok a) w [].

Definition throw {W A} (e : Error) : M W A :=
  fun w => mkOutcome (Throw e) w [].

Definition bind {W A B} (m : M W A) (k : A -> M W B) : M W B :=
  fun w =>
    let o := m w in
    match res o with
    | Ok a =>
        let o' := k a (final o) in
        mkOutcome (res o') (final o') (emitted o ++ emitted o')%list
    | Throw e => mkOutcome (Throw e) (final o) (emitted o)
    end.

(** [try { m } catch (error) { handler error }] *)
Definition tryCatch {W A} (m : M W A) (handler : Error -> M W A) : M W A :=
  fun w =>
    let o := m w in
    match res o with
    | Ok _ => o
    | Throw e =>
        let o' := handler e (final o) in
        mkOutcome (res o') (final o') (emitted o ++ emitted o')%list
    end.

Definition emit {W} (e : Event) : M W unit :=
  fun w => mkOutcome (Ok tt) w [e].

Definition liftResult {W A} (r : result A) : M W A :=
  fun w => mkOutcome r w [].

Definition isOk {A} (r : result A) : bool :=
  match r with Ok _ => true | Throw _ => false end.

(** An external call: the world answers and moves on, and the call is
    recorded with its outcome. *)
Definition external {W A} (ev : bool -> Event) (f : W -> result A * W) : M W A :=
  fun w => let '(r, w') := f w in mkOutcome r w' [ev (isOk r)].

(** A collaborator that is not modelled further: it may change the world
    and may throw, and leaves no event. *)
Definition opaque {W A} (f : W -> result A * W) : M W A :=
  fun w => let '(r, w') := f w in mkOutcome r w' [].

Notation "'let*' x ':=' m 'in' k" := (bind m (fun x => k))
  (at level 10, x name, m at level 100, k at level 200).
Notation "m '>>' k" := (bind m (fun _ => k))
  (at level 90, right associativity).

Definition info {W} (msg : string) : M W unit := emit (Info msg).
Definition warning {W} (msg : string) : M W unit := emit (Warning msg).
Definition logError {W} (msg : string) : M W unit := emit (LogError msg).
Definition setOutput {W} (key value : string) : M W unit := emit (SetOutput key value).
Definition setFailed {W} (msg : string) : M W unit := emit (SetFailed msg).

(** [for (const a of l) { body a }] *)
Fixpoint forEach {W A} (l : list A) (body : A -> M W unit) : M W unit :=
  match l with
  | [] => ret tt
  | a :: rest => body a >> forEach rest body
  end.

(** The REST client: every call may fail and may change the world. *)
Record Octokit (W : Type) : Type := mkOctokit {
  rest_createRelease : ReleaseParams -> W -> result Release * W;
  rest_getReleaseByTag : RepoRef -> string -> W -> result (option Release) * W;
  rest_deleteRelease : RepoRef -> Z -> W -> result unit * W;
  rest_getReleaseAsset : RepoRef -> Z -> W -> result string * W;
  rest_uploadReleaseAsset : UploadParams -> W -> result unit * W
}.
Arguments rest_createRelease {W} o.
Arguments rest_getReleaseByTag {W} o.
Arguments rest_deleteRelease {W} o.
Arguments rest_getReleaseAsset {W} o.
Arguments rest_uploadReleaseAsset {W} o.

Definition nl : string := String "010" EmptyString.

(* ------------------------------------------------------------------ *)
(** ** release.js *)

Section Release.

Context {W : Type}.

(** [child_process.execSync] on one of the git commands. *)
Variable execSync : GitCmd -> W -> result unit * W.

Definition git (c : GitCmd) : M W unit := external (Exec c) (execSync c).

Definition api_createRelease (octokit : Octokit W) (p : ReleaseParams) : M W Release :=
  external (Api (CreateRelease p)) (rest_createRelease octokit p).
Definition api_getReleaseByTag (octokit : Octokit W) (r : RepoRef) (tag : string)
    : M W (option Release) :=
  external (Api (GetReleaseByTag r tag)) (rest_getReleaseByTag octokit r tag).
Definition api_deleteRelease (octokit : Octokit W) (r : RepoRef) (id : Z) : M W unit :=
  external (Api (DeleteRelease r id)) (rest_deleteRelease octokit r id).
Definition api_getReleaseAsset (octokit : Octokit W) (r : RepoRef) (id : Z) : M W string :=
  external (Api (GetReleaseAsset r id)) (rest_getReleaseAsset octokit r id).
Definition api_uploadReleaseAsset (octokit : Octokit W) (p : UploadParams) : M W unit :=
  external (Api (UploadReleaseAsset p)) (rest_uploadReleaseAsset octokit p).

Record ReleaseOptions : Type := mkReleaseOptions {
  ro_tagName : string;
  ro_name : string;
  ro_body : string;
  ro_prerelease : bool
}.

Definition createRelease (octokit : Octokit W) (context_repo : RepoRef)
    (options : ReleaseOptions) : M W Release :=
  tryCatch
    (info ("Creating release: " ++ ro_name options) >>
     let* release := api_createRelease octokit
       {| rp_repo := context_repo;
          rp_tag_name := ro_tagName options;
          rp_name := ro_name options;
          rp_body := ro_body options;
          rp_draft := false;
          rp_prerelease := ro_prerelease options |} in
     ret release)
    (fun error =>
       logError ("Failed to create release: " ++ message error) >>
       throw error).

Definition updateMajorVersionTag (majorVersion fullVersion : string) : M W unit :=
  tryCatch
    (info ("Updating major version tag " ++ majorVersion ++ " to point to " ++ fullVersion) >>
     (* Delete existing major version tag if it exists (locally and remote) *)
     tryCatch (git (GitTagDelete majorVersion)) (fun _ => ret tt) >>
     tryCatch (git (GitPushDelete majorVersion)) (fun _ => ret tt) >>
     (* Create new major version tag pointing to the full version *)
     git (GitTagAnnotate majorVersion ("Major version tag pointing to " ++ fullVersion)) >>
     git (GitPushTag majorVersion) >>
     info ("Updated major version tag: " ++ majorVersion ++ " -> " ++ fullVersion))
    (fun error =>
       warning ("Failed to update major version tag: " ++ message error) >>
       throw error).

Definition deleteMajorReleaseIfExists (octokit : Octokit W) (context_repo : RepoRef)
    (majorVersion : string) : M W unit :=
  tryCatch
    (let* existingRelease := api_getReleaseByTag octokit context_repo majorVersion in
     match existingRelease with
     | Some data =>
         info ("Deleting existing major release: " ++ majorVersion) >>
         api_deleteRelease octokit context_repo (release_id data)
     | None => ret tt
     end)
    (fun error =>
       if bool_decide (status error = Some 404)
       then info ("Major release " ++ majorVersion ++ " doesn't exist, creating new one")
       else warning ("Error checking for existing major release: " ++ message error)).

(** Reading [originalRelease.name] throws a [TypeError] when
    [originalRelease] is [null]. *)
Definition createMajorReleaseNotes (majorVersion fullVersion : string)
    (originalRelease : option Release) : result string :=
  match originalRelease with
  | None => Throw (mkError "Cannot read properties of null (reading 'name')" None)
  | Some original =>
      Ok ("# " ++ majorVersion ++ nl ++ nl
          ++ "This major version tag points to the latest stable release: **"
          ++ fullVersion ++ "**" ++ nl ++ nl
          ++ "## Latest Release: " ++ release_name original ++ nl ++ nl
          ++ release_body original ++ nl ++ nl
          ++ "---" ++ nl
          ++ "*This is an automatically generated major version release that tracks the latest stable release in the "
          ++ majorVersion ++ ".x series.*")
  end.

(** The body of the loop of [copyReleaseAssets]: download one asset and
    upload it to the target release; a failure is logged and swallowed. *)
Definition copyOneAsset (octokit : Octokit W) (context_repo : RepoRef)
    (targetRelease : Release) (asset : Asset) : M W unit :=
  tryCatch
    (let* assetData := api_getReleaseAsset octokit context_repo (asset_id asset) in
     api_uploadReleaseAsset octokit
       {| up_repo := context_repo;
          up_release_id := release_id targetRelease;
          up_name := asset_name asset;
          up_data := assetData;
          up_content_type := asset_content_type asset;
          up_content_length := asset_size asset |} >>
     info ("Copied asset: " ++ asset_name asset))
    (fun error =>
       warning ("Failed to copy asset " ++ asset_name asset ++ ": " ++ message error)).

Definition copyReleaseAssets (octokit : Octokit W) (context_repo : RepoRef)
    (sourceRelease targetRelease : Release) : M W unit :=
  tryCatch
    (match assets sourceRelease with
     | None | Some [] => info "No assets to copy from source release"
     | Some sourceAssets =>
         info ("Copying " ++ numToString (Z.of_nat (List.length sourceAssets))
               ++ " assets to major release") >>
         forEach sourceAssets (copyOneAsset octokit context_repo targetRelease)
     end)
    (fun error => warning ("Failed to copy release assets: " ++ message error)).

Record MajorReleaseOptions : Type := mkMajorReleaseOptions {
  mo_majorVersion : string;
  mo_fullVersion : string;
  mo_originalRelease : option Release;
  mo_copyAssets : bool
}.

(** Returns the major release, or [null] ([None]) after a failure. *)
Definition createMajorRelease (octokit : Octokit W) (context_repo : RepoRef)
    (options : MajorReleaseOptions) : M W (option Release) :=
  let majorVersion := mo_majorVersion options in
  let fullVersion := mo_fullVersion options in
  let originalRelease := mo_originalRelease options in
  tryCatch
    (info ("Creating major version release: " ++ majorVersion) >>
     (* Update major version tag *)
     updateMajorVersionTag majorVersion fullVersion >>
     (* Check if major release already exists and delete it *)
     deleteMajorReleaseIfExists octokit context_repo majorVersion >>
     (* Create release notes for major version *)
     let* releaseNotes :=
       liftResult (createMajorReleaseNotes majorVersion fullVersion originalRelease) in
     (* Create the major version release *)
     let* majorRelease := api_createRelease octokit
       {| rp_repo := context_repo;
          rp_tag_name := majorVersion;
          rp_name := majorVersion;
          rp_body := releaseNotes;
          rp_draft := false;
          rp_prerelease := false |} in
     (* Copy assets if requested *)
     match mo_copyAssets options, originalRelease with
     | true, Some original => copyReleaseAssets octokit context_repo original majorRelease
     | _, _ => ret tt
     end >>
     ret (Some majorRelease))
    (fun error =>
       warning ("Failed to create major version release: " ++ message error) >>
       ret None).

(** The release of a tag, or [null] when the API answers with status 404;
    any other error is thrown again. *)
Definition getReleaseByTag (octokit : Octokit W) (context_repo : RepoRef)
    (tag : string) : M W (option Release) :=
  tryCatch
    (let* response := api_getReleaseByTag octokit context_repo tag in
     ret response)
    (fun error =>
       if bool_decide (status error = Some 404) then ret None else throw error).

(* ---------------------------------------------------------------- *)
(** ** main.js *)

Definition createAndPushTag (newVersion : string) : M W unit :=
  info ("Creating and pushing tag: " ++ newVersion) >>
  (* Delete existing tag if it exists (locally and remote) *)
  tryCatch
    (git (GitTagDelete newVersion) >>
     info ("Deleted existing local tag: " ++ newVersion))
    (fun _ => ret tt) >>
  tryCatch
    (git (GitPushDelete newVersion) >>
     info ("Deleted existing remote tag: " ++ newVersion))
    (fun _ => ret tt) >>
  (* Create new tag *)
  git (GitTagAnnotate newVersion ("Release " ++ newVersion)) >>
  git GitPushHead >>
  git (GitPushTag newVersion).

End Release.

(* ------------------------------------------------------------------ *)
(** ** utils.js: trigger mode and labels *)

Record PullRequest : Type := mkPullRequest {
  merged : bool;
  labels : option (list string)        (* the names of the labels *)
}.

(** The parts of [github.context] that the action reads. *)
Record Context : Type := mkContext {
  eventName : string;
  pull_request : option PullRequest;   (* context.payload.pull_request *)
  ref : string;
  context_repo : RepoRef
}.

Definition detectTriggerMode (inputMode : string) (context : Context) : string :=
  if negb (String.eqb inputMode "auto-detect") then inputMode
  else if String.eqb (eventName context) "pull_request"
          && match pull_request context with Some pr => merged pr | None => false end
  then "pr-merge"
  else if String.eqb (eventName context) "workflow_dispatch" then "manual"
  else if String.eqb (eventName context) "workflow_call" then "workflow-call"
  else if String.eqb (eventName context) "push" && String.eqb (ref context) "refs/heads/main"
  then "push-main"
  else "unknown".

Record Inputs : Type := mkInputs {
  githubToken : string;
  majorLabel : string;
  minorLabel : string;
  patchLabel : string;
  prereleaseLabel : string;
  i_prereleaseSuffix : string;
  i_prereleaseNumber : string;
  nodeVersion : string;
  packageManager : string;
  workingDirectory : string;
  installCommand : string;
  testCommand : string;
  buildCommand : string;
  i_createMajorRelease : bool;
  baseRelease : bool;
  copyAssets : bool;
  autoGenerateNotes : bool;
  i_updatePackageJson : bool;
  packageJsonPath : string;
  gitUserName : string;
  gitUserEmail : string;
  triggerMode : string
}.

(** [l.includes(x)] *)
Definition includes (l : list string) (x : string) : bool :=
  existsb (String.eqb x) l.

(** [l.join(sep)] *)
Fixpoint join (sep : string) (l : list string) : string :=
  match l with
  | [] => EmptyString
  | [x] => x
  | x :: rest => x ++ sep ++ join sep rest
  end.

(** [s || d] on strings. *)
Definition orElse (s d : string) : string := if nonEmpty s then s else d.

(** [validateInputs]: every failed check is collected, and one error
    carries them all. *)
Definition validateInputs (inputs : Inputs) : result unit :=
  let errors :=
    ((if negb (nonEmpty (githubToken inputs))
      then ["github-token is required"] else [])
     ++ (if negb (includes ["npm"; "yarn"; "pnpm"] (packageManager inputs))
         then ["package-manager must be one of: npm, yarn, pnpm"] else []))%list in
  if (0 <? List.length errors)%nat
  then Throw (mkError ("Invalid inputs: " ++ join ", " errors) None)
  else Ok tt.

Section Main.

Context {W : Type}.

Variable execSync : GitCmd -> W -> result unit * W.

(** [core.getInput] and [core.getBooleanInput] of the actions toolkit,
    and [github.context]. *)
Variable getInput : string -> string.
Variable getBooleanInput : string -> result bool.
Variable context : Context.

Definition parseLabels (inputs : Inputs) (triggerMode : string) : M W (string * bool) :=
  if String.eqb triggerMode "pr-merge" then
    (* Parse PR labels *)
    let labels :=
      match pull_request context with
      | Some pr => match labels pr with Some l => l | None => [] end
      | None => []
      end in
    info ("PR labels: " ++ join ", " labels) >>
    (* Check for prerelease label *)
    let isPrerelease := includes labels (prereleaseLabel inputs) in
    (* Determine release type *)
    let releaseType :=
      if includes labels (majorLabel inputs) then "major"
      else if includes labels (minorLabel inputs) then "minor"
      else if includes labels (patchLabel inputs) then "patch"
      else "none" in
    ret (releaseType, isPrerelease)
  else if String.eqb triggerMode "manual" then
    let releaseType := orElse (getInput "manual-release-type") "patch" in
    let* isPrerelease := liftResult (getBooleanInput "manual-is-prerelease") in
    ret (releaseType, isPrerelease)
  else if String.eqb triggerMode "workflow-call" then
    let releaseType := orElse (getInput "release-type") "patch" in
    let* isPrerelease := liftResult (getBooleanInput "is-prerelease") in
    ret (releaseType, isPrerelease)
  else ret ("none", false).

(** [core.getInput(name, { required: true })] *)
Definition getRequiredInput (name : string) : result string :=
  if nonEmpty (getInput name) then Ok (getInput name)
  else Throw (mkError ("Input required and not supplied: " ++ name) None).

Definition readInputs : M W Inputs :=
  let* githubToken := liftResult (getRequiredInput "github-token") in
  let* createMajorRelease := liftResult (getBooleanInput "create-major-release") in
  let* baseRelease := liftResult (getBooleanInput "base_release") in
  let* copyAssets := liftResult (getBooleanInput "copy-assets") in
  let* autoGenerateNotes := liftResult (getBooleanInput "auto-generate-notes") in
  let* updatePackageJson := liftResult (getBooleanInput "update-package-json") in
  ret {| githubToken := githubToken;
         majorLabel := getInput "major-label";
         minorLabel := getInput "minor-label";
         patchLabel := getInput "patch-label";
         prereleaseLabel := getInput "prerelease-label";
         i_prereleaseSuffix := getInput "prerelease-suffix";
         i_prereleaseNumber := getInput "prerelease-number";
         nodeVersion := getInput "node-version";
         packageManager := getInput "package-manager";
         workingDirectory := getInput "working-directory";
         installCommand := getInput "install-command";
         testCommand := getInput "test-command";
         buildCommand := getInput "build-command";
         i_createMajorRelease := createMajorRelease;
         baseRelease := baseRelease;
         copyAssets := copyAssets;
         autoGenerateNotes := autoGenerateNotes;
         i_updatePackageJson := updatePackageJson;
         packageJsonPath := getInput "package-json-path";
         gitUserName := getInput "git-user-name";
         gitUserEmail := getInput "git-user-email";
         triggerMode := getInput "trigger-mode" |}.

(** The collaborators of [run] that lie outside the release engine: the
    REST client factory, the working directory, the lookup of the latest
    tag, the manifest update, dependency installation, tests, build, git
    configuration, the commit of the built files and the release notes.
    Each is taken as given: it may change the world and may throw.  What
    a collaborator does is seen in the world it leaves, not in the events:
    the shell commands of these helpers (such as [git fetch --tags] and
    [git tag] in [getLatestVersion], or [git add] and [git commit] in
    [commitChanges]) and their log lines are no events of [run]. *)
Record Collaborators : Type := mkCollaborators {
  getOctokit : string -> W -> result (Octokit W) * W;
  chdir : string -> W -> result unit * W;
  getLatestVersion : W -> result string * W;
  updatePackageJson : string -> string -> W -> result unit * W;
  setupNodeAndDependencies : Inputs -> W -> result unit * W;
  runTests : Inputs -> W -> result unit * W;
  runBuild : Inputs -> W -> result unit * W;
  configureGit : Inputs -> W -> result unit * W;
  commitChanges : string -> Inputs -> W -> result unit * W;
  generateReleaseNotes : string -> string -> Inputs -> W -> result string * W
}.

Variable host : Collaborators.

Definition boolToString (b : bool) : string := if b then "true" else "false".

(** The part of [run] guarded by [if (inputs.baseRelease && !isPrerelease)]. *)
Definition majorStep (octokit : Octokit W) (inputs : Inputs) (isPrerelease : bool)
    (newVersion : string) (release : Release) : M W unit :=
  if baseRelease inputs && negb isPrerelease then
    let majorVersion := at_ (split "." newVersion) 0 in
    let* majorRelease := createMajorRelease execSync octokit (context_repo context)
      {| mo_majorVersion := majorVersion;
         mo_fullVersion := newVersion;
         mo_originalRelease := Some release;
         mo_copyAssets := copyAssets inputs |} in
    match majorRelease with
    | Some major =>
        info ("Created major version release: " ++ html_url major) >>
        setOutput "major-version" majorVersion >>
        setOutput "major-release-url" (html_url major)
    | None => ret tt
    end
  else ret tt.

Definition run : M W unit :=
  tryCatch
    ((* Get inputs *)
     let* inputs := readInputs in
     (* Initialize GitHub client *)
     let* octokit := opaque (getOctokit host (githubToken inputs)) in
     info "Starting Semantic Release Action..." >>
     (* Change to working directory if specified *)
     (if negb (String.eqb (workingDirectory inputs) ".")
      then opaque (chdir host (workingDirectory inputs)) >>
           info ("Changed working directory to: " ++ workingDirectory inputs)
      else ret tt) >>
     (* Detect trigger mode *)
     let triggerMode := detectTriggerMode (triggerMode inputs) context in
     info ("Detected trigger mode: " ++ triggerMode) >>
     (* Parse labels to determine release type *)
     let* labelled := parseLabels inputs triggerMode in
     let '(releaseType, isPrerelease) := labelled in
     if String.eqb releaseType "none" then
       info "No release labels found. Skipping release creation." >>
       setOutput "released" "false" >>
       setOutput "release-type" "none"
     else
       info ("Release type: " ++ releaseType
             ++ (if isPrerelease then " (prerelease)" else "")) >>
       (* Get latest version *)
       let* latestVersion := opaque (getLatestVersion host) in
       info ("Latest version: " ++ latestVersion) >>
       (* Calculate new version *)
       let* newVersion :=
         liftResult (calculateVersion latestVersion releaseType isPrerelease
           (mkPrereleaseInputs (i_prereleaseSuffix inputs) (i_prereleaseNumber inputs))) in
       info ("New version: " ++ newVersion) >>
       (* Update package.json if requested *)
       (if i_updatePackageJson inputs
        then opaque (updatePackageJson host (packageJsonPath inputs) newVersion)
        else ret tt) >>
       opaque (setupNodeAndDependencies host inputs) >>
       opaque (runTests host inputs) >>
       opaque (runBuild host inputs) >>
       opaque (configureGit host inputs) >>
       opaque (commitChanges host newVersion inputs) >>
       (* Create and push tag *)
       createAndPushTag execSync newVersion >>
       (* Generate release notes *)
       let* releaseNotes := opaque (generateReleaseNotes host latestVersion newVersion inputs) in
       (* Create GitHub release *)
       let* release := createRelease octokit (context_repo context)
         {| ro_tagName := newVersion;
            ro_name := newVersion;
            ro_body := releaseNotes;
            ro_prerelease := isPrerelease |} in
       info ("Created release: " ++ html_url release) >>
       (* Set outputs *)
       setOutput "released" "true" >>
       setOutput "version" newVersion >>
       setOutput "previous-version" latestVersion >>
       setOutput "release-type" releaseType >>
       setOutput "is-prerelease" (boolToString isPrerelease) >>
       setOutput "release-url" (html_url release) >>
       setOutput "release-id" (numToString (release_id release)) >>
       setOutput "tag-name" newVersion >>
       (* Create major version release if requested and not a prerelease *)
       majorStep octokit inputs isPrerelease newVersion release >>
       info "Semantic release completed successfully!")
    (fun error =>
       logError ("Action failed: " ++ message error) >>
       setFailed (message error)).

End Main.

(** The release type and the prerelease flag that [run] works with: what
    [parseLabels] returns on the inputs as read.  Neither reading the inputs
    nor reading the labels looks at the world, so both are run here on a
    world that has one state only. *)
Definition releaseIntent (getInput : string -> string)
    (getBooleanInput : string -> result bool) (context : Context)
    : result (string * bool) :=
  res ((let* inputs := readInputs getInput getBooleanInput in
        parseLabels getInput getBooleanInput context inputs
          (detectTriggerMode (triggerMode inputs) context)) tt).

(* ------------------------------------------------------------------ *)
(** ** main.js: the helpers of run that talk to the shell *)

(** [s.trimEnd()] and [s.trim()]: for the code units 0..255 the white space
    and the line terminators that [trim] removes are the white space that
    [parseInt] skips. *)
Fixpoint trimEnd (s : string) : string :=
  match s with
  | EmptyString => EmptyString
  | String c r =>
      match trimEnd r with
      | EmptyString => if isStrWhiteSpace c then EmptyString else String c EmptyString
      | r' => String c r'
      end
  end.

Definition trim (s : string) : string := trimEnd (trimStart s).

(** [/^v\d+\.\d+\.\d+/.test(tag)]: the tag starts like a semantic version;
    a digit is never a dot, so each group of digits is the longest one. *)
Definition isSemverTag (tag : string) : bool :=
  let '(d1, r1) := spanDigits (slice 1 tag) in
  let '(d2, r2) := spanDigits (slice 1 r1) in
  let '(d3, _) := spanDigits (slice 1 r2) in
  startsWith "v" tag && nonEmpty d1 && startsWith "." r1 && nonEmpty d2
  && startsWith "." r2 && nonEmpty d3.

(** The double quote of the command lines. *)
Definition dq : string := String "034" EmptyString.

(** The helpers carry the names that [run] gives to its collaborators;
    they are kept apart in a module. *)
Module Helpers.
Section Helpers.

Context {W : Type}.

(** [child_process.execSync] on a command line: the output of the command,
    or the exception of a command that fails.  These calls leave no event:
    the events record the commands on tags only. *)
Variable execSync : string -> W -> result string * W.

(** [fs.existsSync] *)
Variable existsSync : string -> W -> bool.

(** [github.context] *)
Variable context : Context.

Definition shell (command : string) : M W string := opaque (execSync command).

Definition fileExists (path : string) : M W bool :=
  fun w => mkOutcome (Ok (existsSync path w)) w [].

Definition getLatestVersion : M W string :=
  tryCatch
    ((* First try to get tags from remote to ensure we have the latest *)
     shell "git fetch --tags" >>
     (* Get all tags and filter for semantic version tags only *)
     let* listing := shell "git tag --sort=-version:refname" in
     let allTags := trim listing in
     let semverTags :=
       if nonEmpty allTags then List.filter isSemverTag (split "010" allTags) else [] in
     match semverTags with
     | latest :: _ => ret latest   (* First one is the latest due to sorting *)
     | [] =>
         (* Fallback: try git describe but only for semantic version tags *)
         let* described :=
           tryCatch
             (let* latestTag :=
                shell ("git describe --tags --abbrev=0 --match=" ++ dq ++ "v*.*.*" ++ dq) in
              ret (Some (trim latestTag)))
             (fun _ => ret None) in
         match described with
         | Some latestTag => ret latestTag
         | None =>
             info "No previous semantic version tags found, starting from v0.0.0" >>
             ret "v0.0.0"
         end
     end)
    (fun _ =>
       info "No previous tags found, starting from v0.0.0" >>
       ret "v0.0.0").

Definition commitChanges (newVersion : string) (inputs : Inputs) : M W unit :=
  tryCatch
    ((* Check if this is a GitHub Action project *)
     let* hasYml := fileExists "action.yml" in
     let* hasYaml := fileExists "action.yaml" in
     if hasYml || hasYaml then
       info "Detected GitHub Action project - ensuring dist/ is committed..." >>
       shell "git add dist/ || true" >>
       shell "git add coverage/ || true" >>
       shell "git add package.json || true" >>
       info "Committing built files and version changes..." >>
       shell ("git commit -m " ++ dq ++ "build: update dist and version for "
              ++ newVersion ++ dq ++ " || true") >>
       ret tt
     else
       (* Non-GitHub Action project - use original logic *)
       let* status := shell "git status --porcelain" in
       if nonEmpty (trim status) then
         info "Committing version changes..." >>
         shell "git add ." >>
         shell ("git commit -m " ++ dq ++ "chore: bump version to " ++ newVersion ++ dq) >>
         ret tt
       else info "No changes to commit")
    (fun _ => info "No changes to commit or commit failed").

(** The command that lists the commits since the latest version. *)
Definition logCommand (latestVersion : string) : string :=
  let commitRange :=
    if String.eqb latestVersion "v0.0.0" then "HEAD" else latestVersion ++ "..HEAD" in
  "git log --pretty=format:" ++ dq ++ "- %s (%h)" ++ dq ++ " " ++ commitRange.

Definition generateReleaseNotes (latestVersion newVersion : string) (inputs : Inputs)
    : M W string :=
  if negb (autoGenerateNotes inputs) then ret ("Release " ++ newVersion)
  else
    info "Generating release notes..." >>
    tryCatch
      (let* commits := shell (logCommand latestVersion) in
       let notes := "## What's Changed" ++ nl ++ nl ++ commits in
       if negb (String.eqb latestVersion "v0.0.0") then
         let repoUrl :=
           "https://github.com/" ++ owner (context_repo context) ++ "/"
           ++ repo (context_repo context) in
         ret (notes ++ nl ++ nl ++ "**Full Changelog**: " ++ repoUrl ++ "/compare/"
              ++ latestVersion ++ "..." ++ newVersion)
       else ret notes)
      (fun _ =>
         warning "Failed to generate detailed release notes" >>
         ret ("Release " ++ newVersion)).

End Helpers.
End Helpers.

(* ------------------------------------------------------------------ *)
(** ** The tag store behind git *)

(** A commit is named by its hash. *)
Abbreviation Commit := string (only parsing).

(** Modelled from the spec: the git backend is not part of the repository;
    it is the Tag Repository of the specification, taken as an in-memory
    store in which a tag name is unique.  A tag is a name pointing at a
    commit, locally and on the remote. *)
Record GitStore : Type := mkGitStore {
  HEAD : Commit;
  localTags : gmap string Commit;
  remoteTags : gmap string Commit;
  remoteBranch : Commit
}.

Definition gitError (msg : string) : Error := mkError msg None.

(** Modelled from the spec: what each git command does to the store.
    Deleting a tag that does not exist fails, and so does creating a tag
    that exists; a new tag points at [HEAD]; pushing a tag fails when the
    remote holds that name for another commit. *)
Definition gitExec (c : GitCmd) (g : GitStore) : result unit * GitStore :=
  match c with
  | GitTagDelete name =>
      match localTags g !! name with
      | Some _ =>
          (Ok tt, mkGitStore (HEAD g) (delete name (localTags g)) (remoteTags g) (remoteBranch g))
      | None => (Throw (gitError ("error: tag '" ++ name ++ "' not found.")), g)
      end
  | GitPushDelete name =>
      match remoteTags g !! name with
      | Some _ =>
          (Ok tt, mkGitStore (HEAD g) (localTags g) (delete name (remoteTags g)) (remoteBranch g))
      | None =>
          (Throw (gitError ("error: unable to delete '" ++ name ++ "': remote ref does not exist")), g)
      end
  | GitTagAnnotate name _ =>
      match localTags g !! name with
      | Some _ => (Throw (gitError ("fatal: tag '" ++ name ++ "' already exists")), g)
      | None =>
          (Ok tt, mkGitStore (HEAD g) (<[name := HEAD g]> (localTags g)) (remoteTags g) (remoteBranch g))
      end
  | GitPushHead =>
      (Ok tt, mkGitStore (HEAD g) (localTags g) (remoteTags g) (HEAD g))
  | GitPushTag name =>
      match localTags g !! name with
      | None =>
          (Throw (gitError ("error: src refspec " ++ name ++ " does not match any")), g)
      | Some c =>
          match remoteTags g !! name with
          | Some c' =>
              if String.eqb c c' then (Ok tt, g)
              else (Throw (gitError (" ! [rejected] " ++ name ++ " (already exists)")), g)
          | None =>
              (Ok tt, mkGitStore (HEAD g) (localTags g) (<[name := c]> (remoteTags g)) (remoteBranch g))
          end
      end
  end.

(* ------------------------------------------------------------------ *)
(** ** An in-memory world to run the orchestrator in *)

(** A git store, the releases by tag name, the next release id, the ids of
    the assets whose download fails, and the names of the tags that the
    remote refuses to create or delete. *)
Record World : Type := mkWorld {
  w_git : GitStore;
  w_releases : list (string * Release);
  w_nextId : Z;
  w_brokenAssets : list Z;
  w_protected : list string
}.

(** The tag a command changes on the remote, if any. *)
Definition remoteTarget (c : GitCmd) : option string :=
  match c with
  | GitPushDelete name => Some name
  | GitPushTag name => Some name
  | _ => None
  end.

Definition worldExec (c : GitCmd) (w : World) : result unit * World :=
  let refused :=
    match remoteTarget c with
    | Some name => existsb (String.eqb name) (w_protected w)
    | None => false
    end in
  if refused
  then (Throw (gitError "remote: error: GH006: Protected tag update failed"), w)
  else
    let '(r, g) := gitExec c (w_git w) in
    (r, mkWorld g (w_releases w) (w_nextId w) (w_brokenAssets w) (w_protected w)).

Definition findRelease (tag : string) (l : list (string * Release)) : option Release :=
  match List.find (fun e => String.eqb (fst e) tag) l with
  | Some e => Some (snd e)
  | None => None
  end.

(** A releases API in memory, with one release per tag name: creating a
    second release for a tag fails with status 422, looking up a tag without
    release fails with status 404, and the download of an asset listed as
    broken times out. *)
Definition worldOctokit : Octokit World :=
  {| rest_createRelease := fun p w =>
       match findRelease (rp_tag_name p) (w_releases w) with
       | Some _ => (Throw (mkError "Validation Failed: already_exists" (Some 422)), w)
       | None =>
           let r := mkRelease (w_nextId w) (rp_name p) (rp_body p)
                      ("https://github.test/releases/tag/" ++ rp_tag_name p) (Some []) in
           (Ok r, mkWorld (w_git w) ((rp_tag_name p, r) :: w_releases w)
                    (w_nextId w + 1) (w_brokenAssets w) (w_protected w))
       end;
     rest_getReleaseByTag := fun _ tag w =>
       match findRelease tag (w_releases w) with
       | Some r => (Ok (Some r), w)
       | None => (Throw (mkError "Not Found" (Some 404)), w)
       end;
     rest_deleteRelease := fun _ id w =>
       (Ok tt, mkWorld (w_git w)
                 (List.filter (fun e => negb (release_id (snd e) =? id)) (w_releases w))
                 (w_nextId w) (w_brokenAssets w) (w_protected w));
     rest_getReleaseAsset := fun _ id w =>
       if existsb (Z.eqb id) (w_brokenAssets w)
       then (Throw (mkError "connect ETIMEDOUT" None), w)
       else (Ok "asset-data", w);
     rest_uploadReleaseAsset := fun _ w => (Ok tt, w) |}.

(** The actions toolkit reading a fixed table of inputs. *)
Definition inputTable (table : list (string * string)) (name : string) : string :=
  match List.find (fun e => String.eqb (fst e) name) table with
  | Some e => snd e
  | None => EmptyString
  end.

Definition booleanInputTable (table : list (string * string)) (name : string) : result bool :=
  let v := inputTable table name in
  if String.eqb v "true" then Ok true
  else if String.eqb v "false" then Ok false
  else Throw (mkError ("Input does not meet YAML 1.2 Core Schema specification: " ++ name) None).

(** Collaborators that do nothing, with [latest] as the latest tag and a
    release body of [Release <version>]. *)
Definition quietHost (latest : string) : @Collaborators World :=
  {| getOctokit := fun _ w => (Ok worldOctokit, w);
     chdir := fun _ w => (Ok tt, w);
     getLatestVersion := fun w => (Ok latest, w);
     updatePackageJson := fun _ _ w => (Ok tt, w);
     setupNodeAndDependencies := fun _ w => (Ok tt, w);
     runTests := fun _ w => (Ok tt, w);
     runBuild := fun _ w => (Ok tt, w);
     configureGit := fun _ w => (Ok tt, w);
     commitChanges := fun _ _ w => (Ok tt, w);
     generateReleaseNotes := fun _ newVersion _ w => (Ok ("Release " ++ newVersion), w) |}.

(** A manual run: the release type and the flags come from the inputs. *)
Definition manualInputs (releaseType isPrerelease baseRelease : string)
    : list (string * string) :=
  [("github-token", "token"); ("create-major-release", "false");
   ("base_release", baseRelease); ("copy-assets", "true");
   ("auto-generate-notes", "false"); ("update-package-json", "false");
   ("working-directory", "."); ("trigger-mode", "manual");
   ("manual-release-type", releaseType); ("manual-is-prerelease", isPrerelease);
   ("prerelease-suffix", "beta"); ("prerelease-number", "1")].

Definition manualContext : Context :=
  mkContext "workflow_dispatch" None "refs/heads/main" (mkRepoRef "octo" "project").

(** An empty repository at commit [c1], where [protected] lists the tags the
    remote refuses. *)
Definition emptyWorld (protected : list string) : World :=
  mkWorld (mkGitStore "c1" empty empty "c0") [] 1 [] protected.

Definition manualRun (releaseType isPrerelease baseRelease latest : string)
    (w : World) : Outcome World unit :=
  run worldExec (inputTable (manualInputs releaseType isPrerelease baseRelease))
    (booleanInputTable (manualInputs releaseType isPrerelease baseRelease))
    manualContext (quietHost latest) w.

(** A shell that notes every command line it is given and prints
    nothing; the world is the list of the command lines so far. *)
Definition recordingShell (command : string) (w : list string)
    : result string * list string :=
  (Ok "", (w ++ [command])%list).

(** A releases API that is out of reach. *)
Definition offlineOctokit {W} : Octokit W :=
  {| rest_createRelease := fun _ w => (Throw (mkError "offline" None), w);
     rest_getReleaseByTag := fun _ _ w => (Throw (mkError "offline" None), w);
     rest_deleteRelease := fun _ _ w => (Throw (mkError "offline" None), w);
     rest_getReleaseAsset := fun _ _ w => (Throw (mkError "offline" None), w);
     rest_uploadReleaseAsset := fun _ w => (Throw (mkError "offline" None), w) |}.

(** A helper of main.js as a collaborator of [run]: its answer and the
    world it leaves; its log lines are dropped. *)
Definition asCollaborator {W A} (m : M W A) (w : W) : result A * W :=
  (res (m w), final (m w)).

(** Collaborators over the recording shell: the latest version is looked
    up by [getLatestVersion] of main.js, the others do nothing. *)
Definition shellHost : @Collaborators (list string) :=
  {| getOctokit := fun _ w => (Ok offlineOctokit, w);
     chdir := fun _ w => (Ok tt, w);
     getLatestVersion := asCollaborator (Helpers.getLatestVersion recordingShell);
     updatePackageJson := fun _ _ w => (Ok tt, w);
     setupNodeAndDependencies := fun _ w => (Ok tt, w);
     runTests := fun _ w => (Ok tt, w);
     runBuild := fun _ w => (Ok tt, w);
     configureGit := fun _ w => (Ok tt, w);
     commitChanges := fun _ _ w => (Ok tt, w);
     generateReleaseNotes := fun _ _ _ w => (Ok "", w) |}.

(* ------------------------------------------------------------------ *)
(** ** Vocabulary of the properties *)

(** Lexicographic order on the (major, minor, patch) triples. *)
Definition tripleLt (a b : Version) : Prop :=
  major a < major b
  \/ (major a = major b
      /\ (minor a < minor b \/ (minor a = minor b /\ patch a < patch b))).

Definition sameTriple (a b : Version) : Prop :=
  major a = major b /\ minor a = minor b /\ patch a = patch b.

(** A version carries a prerelease when its [prerelease] is a non-empty
    string. *)
Definition hasPrerelease (v : Version) : bool := truthy (prerelease v).

(** The shape [<word>.<digits>]: one or more word characters, a dot, one or
    more decimal digits, and nothing else. *)
Definition wordDotDigits (s w d : string) : Prop :=
  s = w ++ "." ++ d
  /\ nonEmpty w = true /\ allChars isWordChar w = true
  /\ nonEmpty d = true /\ allChars isDigit d = true.

(** A collation to run [compareVersions] with: the order of the code
    units. *)
Definition codeUnitCompare (a b : string) : Z :=
  match String.compare a b with
  | Eq => 0
  | Lt => -1
  | Gt => 1
  end.

(** The non-negative integers up to 2^53: each of them is a double, and
    prints as its digits. *)
Definition exactInteger (n : Z) : Prop := 0 <= n <= 2 ^ 53.

(** A non-negative integer that is a number and is printed in plain
    digits: a double below 10^21.  Every integer up to 2^53 is one. *)
Definition plainNumber (n : Z) : Prop := 0 <= n < 10 ^ 21 /\ toDouble n = n.

(** [Number.isSafeInteger], for a non-negative number: the successor of a
    safe integer is still exact. *)
Definition safeInteger (n : Z) : Prop := 0 <= n <= MAX_SAFE_INTEGER.

(** A version whose three numbers are printed in plain digits. *)
Definition plainVersion (v : Version) : Prop :=
  plainNumber (major v) /\ plainNumber (minor v) /\ plainNumber (patch v).

(** A version whose three numbers are safe integers. *)
Definition safeVersion (v : Version) : Prop :=
  safeInteger (major v) /\ safeInteger (minor v) /\ safeInteger (patch v).

(** The dotted triple of a version text. *)
Definition tripleText (M N P : Z) : string :=
  numToString M ++ "." ++ numToString N ++ "." ++ numToString P.

(** The text [parseVersion] works on, and the numbers it reads from the
    part before the first hyphen. *)
Definition cleanVersion (version : string) : string :=
  if startsWith "v" version then slice 1 version else version.

Definition readTriple (versionPart : string) (pre : option string) : Version :=
  let parts := split "." versionPart in
  mkVersion (orZero (parseInt (at_ parts 0))) (orZero (parseInt (at_ parts 1)))
    (orZero (parseInt (at_ parts 2))) pre.

(** [seg] is the segment between the first and the second hyphen of
    [version] (or between the first hyphen and the end). *)
Definition prereleaseSegment (version seg : string) : Prop :=
  exists base,
    find "-" base = None /\ find "-" seg = None
    /\ (version = base ++ "-" ++ seg
        \/ exists rest, version = base ++ "-" ++ seg ++ "-" ++ rest).

(** A major-tracking tag name: [v] followed by digits only. *)
Definition isMajorTagName (name : string) : bool :=
  startsWith "v" name && nonEmpty (slice 1 name) && allChars isDigit (slice 1 name).

(** The events that create, move, delete or look up a major-tracking tag or
    its release.  Deleting a release and uploading an asset are counted
    whatever their target: the orchestrator does both for major releases
    only. *)
Definition touchesMajor (e : Event) : bool :=
  match e with
  | Exec (GitTagDelete name) _ => isMajorTagName name
  | Exec (GitPushDelete name) _ => isMajorTagName name
  | Exec (GitTagAnnotate name _) _ => isMajorTagName name
  | Exec (GitPushTag name) _ => isMajorTagName name
  | Api (CreateRelease p) _ => isMajorTagName (rp_tag_name p)
  | Api (GetReleaseByTag _ tag) _ => isMajorTagName tag
  | Api (DeleteRelease _ _) _ => true
  | Api (UploadReleaseAsset _) _ => true
  | _ => false
  end.

(** An event that is neither an output nor the failure mark. *)
Definition notOutput (e : Event) : Prop :=
  match e with
  | SetOutput _ _ | SetFailed _ => False
  | _ => True
  end.

(** The ids of the assets whose download was attempted, in order. *)
Definition downloadsAttempted (events : list Event) : list Z :=
  flat_map (fun e => match e with
                     | Api (GetReleaseAsset _ id) _ => [id]
                     | _ => []
                     end) events.

(** The names of the assets uploaded with success, in order. *)
Definition uploaded (events : list Event) : list string :=
  flat_map (fun e => match e with
                     | Api (UploadReleaseAsset p) true => [up_name p]
                     | _ => []
                     end) events.

(** [post m w Q]: running [m] from the world [w] ends with a result, a
    world and a list of events that satisfy [Q]. *)
Definition post {W A} (m : M W A) (w : W)
    (Q : result A -> W -> list Event -> Prop) : Prop :=
  Q (res (m w)) (final (m w)) (emitted (m w)).

(** [m] never throws, and emits only events that satisfy [P]. *)
Definition safe {W A} (P : Event -> Prop) (m : M W A) : Prop :=
  forall w, (exists a, res (m w) = Ok a) /\ Forall P (emitted (m w)).

(** [m] emits only events that satisfy [P]. *)
Definition emits {W A} (P : Event -> Prop) (m : M W A) : Prop :=
  forall w, Forall P (emitted (m w)).

(** The failures that make the major release step give up: the major tag
    could not be created or pushed, or the release could not be created. *)
Definition criticalFailure (e : Event) : bool :=
  match e with
  | Exec (GitTagAnnotate _ _) false => true
  | Exec (GitPushTag _) false => true
  | Api (CreateRelease _) false => true
  | _ => false
  end.

(** An event that touches no major-tracking tag or release and is neither
    an output nor the failure mark. *)
Definition quiet (e : Event) : Prop := touchesMajor e = false /\ notOutput e.

(** An event that may precede the publication of the release. *)
Definition beforePublication (e : Event) : Prop :=
  touchesMajor e = false /\ e <> SetOutput "released" "true".

Definition notFailed (e : Event) : Prop :=
  match e with SetFailed _ => False | _ => True end.

(** The events of the major release step: no failure mark, and no output
    other than the two of the major release. *)
Definition majorStepEvent (e : Event) : Prop :=
  match e with
  | SetFailed _ => False
  | SetOutput key _ => key = "major-version" \/ key = "major-release-url"
  | _ => True
  end.

(** The two shapes of the events of a run.  Either it stopped before the
    release was published: nothing touched a major-tracking tag or release
    and the output [released] was not set to [true].  Or it went through:
    it was not marked as failed, it logged its completion, and it touched a
    major-tracking tag or release only if [major] holds and the output
    [is-prerelease] is [false] and not [true]. *)
Definition runShape (major : Prop) (events : list Event) : Prop :=
  Forall beforePublication events
  \/ (Forall notFailed events
      /\ In (Info "Semantic release completed successfully!") events
      /\ (Forall (fun e => touchesMajor e = false) events
          \/ (major
              /\ In (SetOutput "is-prerelease" "false") events
              /\ Forall (fun e => e <> SetOutput "is-prerelease" "true") events))).

(** What the events tell of an asset after its turn in the copy: it was
    copied, or a warning names it. *)
Definition reported (events : list Event) (asset : Asset) : Prop :=
  In (Info ("Copied asset: " ++ asset_name asset)) events
  \/ exists msg,
       In (Warning ("Failed to copy asset " ++ asset_name asset ++ ": " ++ msg)) events.

(** A non-empty text of decimal digits. *)
Definition digitsText (d : string) : Prop :=
  nonEmpty d = true /\ allChars isDigit d = true.

(** The grammar of [validateVersion] spelled out: an optional [v], three
    groups of digits separated by dots, and optionally a hyphen followed by
    a text of the shape [<word>.<digits>]. *)
Definition versionShape (version : string) : Prop :=
  exists v d1 d2 d3 tail,
    version = v ++ d1 ++ "." ++ d2 ++ "." ++ d3 ++ tail
    /\ (v = "" \/ v = "v")
    /\ digitsText d1 /\ digitsText d2 /\ digitsText d3
    /\ (tail = "" \/ exists seg w d, wordDotDigits seg w d /\ tail = "-" ++ seg).

(** The names of the labels of the pull request, as [parseLabels] reads
    them: none when there is no pull request or it carries no labels. *)
Definition labelNames (context : Context) : list string :=
  match pull_request context with
  | Some pr => default [] (labels pr)
  | None => []
  end.

(** The inputs that [run] reads as booleans. *)
Definition booleanInputs : list string :=
  ["create-major-release"; "base_release"; "copy-assets"; "auto-generate-notes";
   "update-package-json"].

(** The parameters of the one call that [createRelease] makes. *)
Definition releaseParams (context_repo : RepoRef) (options : ReleaseOptions) : ReleaseParams :=
  {| rp_repo := context_repo;
     rp_tag_name := ro_tagName options;
     rp_name := ro_name options;
     rp_body := ro_body options;
     rp_draft := false;
     rp_prerelease := ro_prerelease options |}.

(** The parameters of the uploads attempted, in order. *)
Definition uploads (events : list Event) : list UploadParams :=
  flat_map (fun e => match e with
                     | Api (UploadReleaseAsset p) _ => [p]
                     | _ => []
                     end) events.

(** The ids of the assets downloaded with success, in order. *)
Definition downloaded (events : list Event) : list Z :=
  flat_map (fun e => match e with
                     | Api (GetReleaseAsset _ id) true => [id]
                     | _ => []
                     end) events.

(** The upload that copies [asset] to the release [target], with the data
    that the download of the asset answered. *)
Definition uploadOf (repo : RepoRef) (target : Release) (asset : Asset)
    (assetData : string) : UploadParams :=
  {| up_repo := repo;
     up_release_id := release_id target;
     up_name := asset_name asset;
     up_data := assetData;
     up_content_type := asset_content_type asset;
     up_content_length := asset_size asset |}.

(** The uploads that copying the assets [l] asks for, from the world [w]:
    each asset is downloaded in the world that the copies before it left;
    an asset whose download fails is skipped, and the others are uploaded
    with the data that their download answered. *)
Fixpoint assetUploads {W} (octokit : Octokit W) (repo : RepoRef) (target : Release)
    (l : list Asset) (w : W) : list UploadParams :=
  match l with
  | [] => []
  | asset :: rest =>
      let download := rest_getReleaseAsset octokit repo (asset_id asset) w in
      match fst download with
      | Ok assetData =>
          let p := uploadOf repo target asset assetData in
          p :: assetUploads octokit repo target rest
                 (snd (rest_uploadReleaseAsset octokit p (snd download)))
      | Throw _ => assetUploads octokit repo target rest (snd download)
      end
  end.

(** An upload that copies [asset] to the release [target]: it carries the
    data that a download of the asset answered, under the name, the content
    type and the size of the asset. *)
Definition copies {W} (octokit : Octokit W) (repo : RepoRef) (target : Release)
    (asset : Asset) (p : UploadParams) : Prop :=
  exists (w : W) (assetData : string),
    fst (rest_getReleaseAsset octokit repo (asset_id asset) w) = Ok assetData
    /\ p = uploadOf repo target asset assetData.

(** The creation of a release, whatever its outcome. *)
Definition createsRelease (e : Event) : bool :=
  match e with Api (CreateRelease _) _ => true | _ => false end.

Definition createsNoRelease (e : Event) : Prop := createsRelease e = false.

(** The tags pushed with success, in order. *)
Definition pushedTags (events : list Event) : list string :=
  flat_map (fun e => match e with
                     | Exec (GitPushTag name) true => [name]
                     | _ => []
                     end) events.

(** Every creation of a release comes after the successful push of the tag
    it names. *)
Definition releasesFollowPush (events : list Event) : Prop :=
  forall before p ok after,
    events = (before ++ Api (CreateRelease p) ok :: after)%list ->
    In (rp_tag_name p) (pushedTags before).

(** The same, read from the left with the tags pushed so far. *)
Fixpoint followsPush (pushed : list string) (events : list Event) : Prop :=
  match events with
  | [] => True
  | e :: rest =>
      match e with
      | Api (CreateRelease p) _ => In (rp_tag_name p) pushed
      | _ => True
      end
      /\ followsPush (pushed ++ pushedTags [e]) rest
  end.

(** How a run ends: marked as failed right after the line that carries the
    same message, or not marked as failed at all. *)
Definition runEnding (events : list Event) : Prop :=
  (exists body msg,
     events = (body ++ [LogError ("Action failed: " ++ msg); SetFailed msg])%list
     /\ Forall notFailed body)
  \/ (Forall notFailed events
      /\ (last events = Some (Info "Semantic release completed successfully!")
          \/ last events = Some (SetOutput "release-type" "none"))).

(** A git command of the release engine (one of [GitCmd]) or a call to the
    releases API.  The shell commands of the helpers of main.js are none of
    these: they leave no event. *)
Definition isExternal (e : Event) : bool :=
  match e with Exec _ _ | Api _ _ => true | _ => false end.

(** An event that is no such command or call and does not announce a
    release. *)
Definition inert (e : Event) : Prop :=
  isExternal e = false /\ e <> SetOutput "released" "true".

(** What a run that announces a release has done: the version is the one
    computed from the latest version and the release intent, its tag was
    pushed, its release was created under that tag, and the outputs tell
    so. *)
Definition announced (getInput : string -> string)
    (getBooleanInput : string -> result bool) (context : Context)
    (events : list Event) : Prop :=
  exists releaseType isPrerelease latestVersion newVersion notes release,
    releaseIntent getInput getBooleanInput context = Ok (releaseType, isPrerelease)
    /\ calculateVersion latestVersion releaseType isPrerelease
         (mkPrereleaseInputs (getInput "prerelease-suffix") (getInput "prerelease-number"))
       = Ok newVersion
    /\ In (Exec (GitPushTag newVersion) true) events
    /\ In (Api (CreateRelease
                  {| rp_repo := context_repo context;
                     rp_tag_name := newVersion;
                     rp_name := newVersion;
                     rp_body := notes;
                     rp_draft := false;
                     rp_prerelease := isPrerelease |}) true) events
    /\ In (SetOutput "version" newVersion) events
    /\ In (SetOutput "previous-version" latestVersion) events
    /\ In (SetOutput "release-type" releaseType) events
    /\ In (SetOutput "is-prerelease" (boolToString isPrerelease)) events
    /\ In (SetOutput "release-url" (html_url release)) events
    /\ In (SetOutput "release-id" (numToString (release_id release))) events
    /\ In (SetOutput "tag-name" newVersion) events.

(** A plain line of the log. *)
Definition isInfo (e : Event) : Prop :=
  match e with Info _ => True | _ => False end.

(** The link to the comparison with the latest version that closes the
    generated notes; a first release has none. *)
Definition changelogLink (context : Context) (latestVersion newVersion : string) : string :=
  if String.eqb latestVersion "v0.0.0" then ""
  else nl ++ nl ++ "**Full Changelog**: https://github.com/"
       ++ owner (context_repo context) ++ "/" ++ repo (context_repo context)
       ++ "/compare/" ++ latestVersion ++ "..." ++ newVersion.

(** A shell in which [git tag] prints [listing] and every other command
    prints nothing. *)
Definition listingShell (listing : string) (command : string) (w : unit)
    : result string * unit :=
  (Ok (if String.eqb command "git tag --sort=-version:refname" then listing else ""), w).

(** A character other than the hyphen. *)
Definition notDash (c : ascii) : bool := negb (Ascii.eqb c "-").

(** The collaborators that [run] calls before it reads the release type:
    the client factory, then the change of directory when the working
    directory is not ["."]; the answer tells whether both succeeded. *)
Definition runSetup {W} (host : @Collaborators W) (token directory : string) (w : W)
    : result unit * W :=
  let client := getOctokit host token w in
  match fst client with
  | Throw error => (Throw error, snd client)
  | Ok _ =>
      if negb (String.eqb directory ".") then chdir host directory (snd client)
      else (Ok tt, snd client)
  end.

(* ------------------------------------------------------------------ *)
(** * Properties *)

(** ** Characters *)

Lemma class_differ (p : ascii -> bool) (c d : ascii) :
  p c = true -> p d = false -> Ascii.eqb c d = false.
Proof.
  intros Hc Hd. destruct (Ascii.eqb_spec c d) as [-> | _]; congruence.
Qed.

Lemma inRange_spec lo hi c :
  inRange lo hi c = true <-> (lo <= code c <= hi)%N.
Proof.
  unfold inRange. rewrite andb_true_iff, !N.leb_le. tauto.
Qed.

Lemma isDigit_not_space c : isDigit c = true -> isStrWhiteSpace c = false.
Proof.
  unfold isDigit, isStrWhiteSpace. intros H%inRange_spec.
  apply not_true_is_false. rewrite !orb_true_iff, inRange_spec, !N.eqb_eq. lia.
Qed.

Lemma code_digitChar d : (d < 10)%N -> code (digitChar d) = (48 + d)%N.
Proof.
  intros H. unfold code, digitChar. apply N_ascii_embedding. lia.
Qed.

Lemma isDigit_digitChar d : (d < 10)%N -> isDigit (digitChar d) = true.
Proof.
  intros H. apply inRange_spec. rewrite code_digitChar by assumption. lia.
Qed.

Lemma digitValue_decimal c :
  isDigit c = true -> digitValue 10 c = Some (Z.of_N (code c) - 48).
Proof.
  unfold isDigit, digitValue. intros H. rewrite H.
  apply inRange_spec in H.
  destruct (Z.ltb_spec (Z.of_N (code c) - 48) 10); [reflexivity | lia].
Qed.

Lemma digitValue_digitChar d :
  (d < 10)%N -> digitValue 10 (digitChar d) = Some (Z.of_N d).
Proof.
  intros H. rewrite digitValue_decimal by (apply isDigit_digitChar; assumption).
  rewrite code_digitChar by assumption. f_equal. lia.
Qed.

Lemma digitValue_nonneg radix c d : digitValue radix c = Some d -> 0 <= d.
Proof.
  unfold digitValue.
  destruct (inRange 48 57 c) eqn:H1; [| destruct (inRange 97 122 c) eqn:H2;
    [| destruct (inRange 65 90 c) eqn:H3; [| discriminate]]];
  match goal with
  | |- (if ?b then _ else _) = _ -> _ => destruct b; [| discriminate]
  end; intros [= <-];
  match goal with H : inRange _ _ _ = true |- _ => apply inRange_spec in H end; lia.
Qed.

(** ** Strings *)

Lemma append_nil_r s : s ++ "" = s.
Proof. induction s as [| c s IH]; simpl; [reflexivity | now rewrite IH]. Qed.

Lemma append_assoc (a b c : string) : (a ++ b) ++ c = a ++ (b ++ c).
Proof. induction a as [| x a IH]; simpl; [reflexivity | now rewrite IH]. Qed.

Lemma allChars_app p a b :
  allChars p (a ++ b) = allChars p a && allChars p b.
Proof.
  induction a as [| c a IH]; simpl; [reflexivity |].
  rewrite IH. now rewrite andb_assoc.
Qed.

Lemma find_absent p c s :
  allChars p s = true -> p c = false -> find c s = None.
Proof.
  intros Hs Hc. induction s as [| d s IH]; simpl in *; [reflexivity |].
  apply andb_true_iff in Hs as [Hd Hs].
  rewrite (class_differ p d c Hd Hc). now rewrite (IH Hs).
Qed.

Lemma find_app_here c a b :
  find c a = None -> find c (a ++ String c b) = Some (String.length a).
Proof.
  induction a as [| d a IH]; simpl; intros H.
  - now rewrite Ascii.eqb_refl.
  - destruct (Ascii.eqb d c); [discriminate |].
    destruct (find c a); [discriminate |]. now rewrite IH.
Qed.

Lemma find_app_absent c a b :
  find c a = None -> find c b = None -> find c (a ++ b) = None.
Proof.
  induction a as [| d a IH]; simpl; intros Ha Hb; [assumption |].
  destruct (Ascii.eqb d c); [discriminate |].
  destruct (find c a); [discriminate |]. now rewrite IH.
Qed.

Lemma prefix_app a b : prefix (String.length a) (a ++ b) = a.
Proof. induction a as [| c a IH]; simpl; [now destruct b | now rewrite IH]. Qed.

Lemma find_prefix c s n : find c s = Some n -> find c (prefix n s) = None.
Proof.
  revert n. induction s as [| d s IH]; simpl; intros n H; [discriminate |].
  destruct (Ascii.eqb d c) eqn:E.
  - injection H as <-. reflexivity.
  - destruct (find c s) as [k |]; [| discriminate]. injection H as <-.
    simpl. rewrite E. now rewrite (IH k).
Qed.

Lemma split_not_nil sep s : split sep s <> [].
Proof.
  destruct s as [| c s]; simpl; [discriminate |].
  destruct (Ascii.eqb c sep); [discriminate |].
  destruct (split sep s); discriminate.
Qed.

Lemma split_absent sep s : find sep s = None -> split sep s = [s].
Proof.
  induction s as [| c s IH]; simpl; intros H; [reflexivity |].
  destruct (Ascii.eqb c sep); [discriminate |].
  destruct (find sep s); [discriminate |]. now rewrite IH.
Qed.

Lemma split_app sep a b :
  find sep a = None -> split sep (a ++ String sep b) = a :: split sep b.
Proof.
  induction a as [| c a IH]; simpl; intros H.
  - now rewrite Ascii.eqb_refl.
  - destruct (Ascii.eqb c sep); [discriminate |].
    destruct (find sep a); [discriminate |]. now rewrite IH.
Qed.

Lemma split_keeps_absent sep c s :
  find c s = None -> Forall (fun part => find c part = None) (split sep s).
Proof.
  induction s as [| d s IH]; simpl; intros H.
  - constructor; [reflexivity | constructor].
  - destruct (Ascii.eqb d c) eqn:E; [discriminate |].
    destruct (find c s); [discriminate |]. specialize (IH eq_refl).
    destruct (Ascii.eqb d sep).
    + constructor; [reflexivity | assumption].
    + destruct (split sep s) as [| h t].
      * constructor; [simpl; now rewrite E | constructor].
      * inversion IH as [| ? ? Hh Ht]; subst.
        constructor; [simpl; rewrite E; now rewrite Hh | assumption].
Qed.

Lemma at_keeps_absent c parts i :
  find c "undefined" = None ->
  Forall (fun part => find c part = None) parts ->
  find c (at_ parts i) = None.
Proof.
  intros Hd Hall. unfold at_. revert i.
  induction Hall as [| p parts Hp _ IH]; intros [| i]; simpl; auto.
Qed.

(** ** Numbers and their decimal text *)

Lemma digitsOf_allDigits fuel n acc :
  allChars isDigit acc = true -> allChars isDigit (digitsOf fuel n acc) = true.
Proof.
  revert n acc. induction fuel as [| f IH]; intros n acc H; simpl.
  - rewrite isDigit_digitChar by (apply N.mod_lt; discriminate). assumption.
  - destruct (n <? 10)%N.
    + simpl. rewrite isDigit_digitChar by (apply N.mod_lt; discriminate). assumption.
    + apply IH. simpl.
      rewrite isDigit_digitChar by (apply N.mod_lt; discriminate). assumption.
Qed.

Lemma digitsOf_nonEmpty fuel n acc : nonEmpty (digitsOf fuel n acc) = true.
Proof.
  revert n acc. induction fuel as [| f IH]; intros n acc; simpl; [reflexivity |].
  destruct (n <? 10)%N; [reflexivity | apply IH].
Qed.

Lemma parseDigits_one d tail acc :
  (d < 10)%N ->
  parseDigits 10 (String (digitChar d) tail) acc
  = parseDigits 10 tail (Num (10 * orZero acc + Z.of_N d)).
Proof.
  intros H. simpl. rewrite digitValue_digitChar by assumption.
  destruct acc; reflexivity.
Qed.

(** Reading back the digits of [n] gives [n], whatever follows them. *)
Lemma parseDigits_digitsOf fuel n tail :
  (n < 2 ^ N.of_nat fuel)%N ->
  parseDigits 10 (digitsOf fuel n tail) NaN = parseDigits 10 tail (Num (Z.of_N n)).
Proof.
  revert n tail. induction fuel as [| f IH]; intros n tail Hn.
  - assert (n = 0%N) as -> by (simpl in Hn; lia). reflexivity.
  - cbn [digitsOf]. destruct (N.ltb_spec n 10) as [Hlt | Hge].
    + rewrite parseDigits_one by (apply N.mod_lt; discriminate).
      rewrite N.mod_small by assumption. reflexivity.
    + rewrite IH.
      * rewrite parseDigits_one by (apply N.mod_lt; discriminate).
        do 2 f_equal. cbn [orZero].
        rewrite (N.div_mod n 10) at 3 by discriminate. lia.
      * rewrite Nat2N.inj_succ, N.pow_succ_r' in Hn.
        apply N.Div0.div_lt_upper_bound. lia.
Qed.

Lemma parseDigits_nonneg radix s acc :
  0 <= radix -> 0 <= orZero acc -> 0 <= orZero (parseDigits radix s acc).
Proof.
  intros Hr. revert acc. induction s as [| c s IH]; intros acc Hacc; simpl; [assumption |].
  destruct (digitValue radix c) as [d |] eqn:E; [| assumption].
  apply IH. cbn [orZero]. apply digitValue_nonneg in E.
  destruct acc; cbn [orZero] in *; nia.
Qed.

Lemma trimStart_digits c s : isDigit c = true -> trimStart (String c s) = String c s.
Proof. intros H. simpl. now rewrite isDigit_not_space. Qed.

(** On a non-empty text made of decimal digits, [parseInt] reads them all:
    there is no white space, no sign and no [0x] prefix. *)
Lemma parseInt_digits s :
  nonEmpty s = true -> allChars isDigit s = true ->
  parseInt s
  = match parseDigits 10 s NaN with Num n => Num (toDouble n) | NaN => NaN end.
Proof.
  destruct s as [| c s]; [discriminate |]. intros _ H.
  simpl in H. apply andb_true_iff in H as [Hc Hs].
  unfold parseInt. rewrite trimStart_digits by assumption.
  cbn [startsWith]. rewrite (class_differ isDigit c "-" Hc eq_refl).
  rewrite (class_differ isDigit c "+" Hc eq_refl). cbn [orb].
  assert (startsWith "x" (slice 1 (String c s)) = false) as ->.
  { simpl. destruct s as [| d s]; [reflexivity |]. simpl in Hs.
    apply andb_true_iff in Hs as [Hd _]. apply (class_differ isDigit d "x" Hd eq_refl). }
  assert (startsWith "X" (slice 1 (String c s)) = false) as ->.
  { simpl. destruct s as [| d s]; [reflexivity |]. simpl in Hs.
    apply andb_true_iff in Hs as [Hd _]. apply (class_differ isDigit d "X" Hd eq_refl). }
  rewrite andb_false_r.
  destruct (parseDigits 10 (String c s) NaN) as [| n]; [reflexivity |].
  do 2 f_equal. lia.
Qed.

Lemma decimal_nonneg n :
  0 <= n -> decimal n = digitsOf (N.to_nat (N.size (Z.to_N n))) (Z.to_N n) "".
Proof.
  intros H. unfold decimal.
  destruct (Z.ltb_spec n 0); [lia |].
  replace (Z.abs_N n) with (Z.to_N n) by (destruct n; [reflexivity | reflexivity | lia]).
  reflexivity.
Qed.

Lemma decimal_digits n : 0 <= n -> allChars isDigit (decimal n) = true.
Proof.
  intros H. rewrite decimal_nonneg by assumption.
  now apply digitsOf_allDigits.
Qed.

Lemma decimal_nonEmpty n : nonEmpty (decimal n) = true.
Proof.
  unfold decimal. destruct (n <? 0); [reflexivity | apply digitsOf_nonEmpty].
Qed.

(** ** Doubles *)

Lemma roundPositive_exact z : 0 < z < 2 ^ 53 -> roundPositive z = z.
Proof.
  intros H. unfold roundPositive.
  assert (Z.log2 z < 53) as Hlog by (apply Z.log2_lt_pow2; lia).
  destruct (Z.ltb_spec (Z.log2 z) 53); [reflexivity | lia].
Qed.

Lemma roundPositive_pos z : 0 < z -> 0 < roundPositive z.
Proof.
  intros H. unfold roundPositive.
  destruct (Z.ltb_spec (Z.log2 z) 53) as [_ | Hlog]; [assumption |].
  cbv zeta.
  set (ulp := 2 ^ (Z.log2 z - 52)).
  assert (0 < ulp) as Hulp by (apply Z.pow_pos_nonneg; lia).
  assert (ulp <= z) as Hle.
  { transitivity (2 ^ Z.log2 z).
    - apply Z.pow_le_mono_r; lia.
    - now apply Z.log2_spec. }
  assert (1 <= z / ulp) as Hq by (apply Z.div_le_lower_bound; lia).
  match goal with |- context [Infinity <=? ?r] => destruct (Z.leb_spec Infinity r) end.
  - reflexivity.
  - destruct (if 2 * (z mod ulp) <? ulp then false
              else if ulp <? 2 * (z mod ulp) then true else Z.odd (z / ulp)); nia.
Qed.

Lemma roundPositive_le z : 0 < z -> roundPositive z <= Infinity.
Proof.
  intros H. unfold roundPositive.
  destruct (Z.ltb_spec (Z.log2 z) 53) as [Hlog | _].
  - apply Z.log2_lt_pow2 in Hlog; [| assumption].
    transitivity (2 ^ 53); [lia |]. apply Z.pow_le_mono_r; lia.
  - cbv zeta.
    match goal with |- context [Infinity <=? ?r] => destruct (Z.leb_spec Infinity r) end; lia.
Qed.

(** Up to 2^53 every integer is a double. *)
Lemma toDouble_exact z : - 2 ^ 53 <= z <= 2 ^ 53 -> toDouble z = z.
Proof.
  intros H.
  destruct (Z.eq_dec z (2 ^ 53)) as [-> | Hhi]; [now vm_compute |].
  destruct (Z.eq_dec z (- 2 ^ 53)) as [-> | Hlo]; [now vm_compute |].
  destruct z as [| p | p]; cbn [toDouble].
  - reflexivity.
  - apply roundPositive_exact. lia.
  - change (- Z.neg p) with (Z.pos p). rewrite roundPositive_exact; lia.
Qed.

Lemma toDouble_opp z : toDouble (- z) = - toDouble z.
Proof.
  destruct z as [| p | p]; [reflexivity | reflexivity |].
  change (- Z.neg p) with (Z.pos p). cbn [toDouble].
  change (- Z.neg p) with (Z.pos p). lia.
Qed.

Lemma toDouble_pos z : 0 < z -> 0 < toDouble z.
Proof.
  destruct z as [| p | p]; try lia. intros _. now apply roundPositive_pos.
Qed.

Lemma toDouble_nonneg z : 0 <= z -> 0 <= toDouble z.
Proof.
  intros H. destruct (Z.eq_dec z 0) as [-> | Hz]; [reflexivity |].
  apply Z.lt_le_incl, toDouble_pos. lia.
Qed.

(** A double is at most [Infinity] and at least [-Infinity]. *)
Lemma toDouble_range z : - Infinity <= toDouble z <= Infinity.
Proof.
  assert (0 < Infinity) as Hinf by reflexivity.
  destruct z as [| p | p]; cbn [toDouble].
  - lia.
  - pose proof (roundPositive_pos (Z.pos p) eq_refl).
    pose proof (roundPositive_le (Z.pos p) eq_refl). lia.
  - change (- Z.neg p) with (Z.pos p).
    pose proof (roundPositive_pos (Z.pos p) eq_refl).
    pose proof (roundPositive_le (Z.pos p) eq_refl). lia.
Qed.

(** The successor of a safe integer is exact. *)
Lemma toDouble_succ n : safeInteger n -> toDouble (n + 1) = n + 1.
Proof.
  unfold safeInteger, MAX_SAFE_INTEGER. intros H. apply toDouble_exact. lia.
Qed.

Lemma safeInteger_exact n : safeInteger n -> exactInteger n /\ exactInteger (n + 1).
Proof. unfold safeInteger, exactInteger, MAX_SAFE_INTEGER. lia. Qed.

Lemma roundPositive_double m k :
  2 ^ 52 <= m <= 2 ^ 53 -> 0 <= k -> m * 2 ^ k < Infinity ->
  roundPositive (m * 2 ^ k) = m * 2 ^ k.
Proof.
  intros Hm Hk Hinf.
  assert (0 < 2 ^ k) as Hpow by (apply Z.pow_pos_nonneg; lia).
  destruct (Z.eq_dec m (2 ^ 53)) as [-> | Hne].
  - (* a power of two: the mantissa is 2^52 at the next exponent *)
    unfold roundPositive.
    assert (Z.log2 (2 ^ 53 * 2 ^ k) = 53 + k) as ->.
    { rewrite <- Z.pow_add_r by lia. apply Z.log2_pow2. lia. }
    destruct (Z.ltb_spec (53 + k) 53); [lia |]. cbv zeta.
    replace (53 + k - 52) with (k + 1) by lia.
    assert (2 ^ 53 * 2 ^ k = 2 ^ 52 * 2 ^ (k + 1)) as ->.
    { rewrite <- !Z.pow_add_r by lia. f_equal. lia. }
    assert (0 < 2 ^ (k + 1)) as Hpow' by (apply Z.pow_pos_nonneg; lia).
    rewrite Z.div_mul, Z.mod_mul by lia.
    destruct (Z.ltb_spec (2 * 0) (2 ^ (k + 1))); [| lia].
    assert (2 ^ 52 * 2 ^ (k + 1) < Infinity) as Hinf'.
    { rewrite <- Z.pow_add_r by lia. rewrite <- Z.pow_add_r in Hinf by lia.
      now replace (52 + (k + 1)) with (53 + k) by lia. }
    destruct (Z.leb_spec Infinity (2 ^ 52 * 2 ^ (k + 1))); [lia | reflexivity].
  - destruct (Z.eq_dec k 0) as [-> | Hk0].
    + rewrite Z.mul_1_r. apply roundPositive_exact. lia.
    + unfold roundPositive.
      assert (Z.log2 (m * 2 ^ k) = k + 52) as ->.
      { rewrite Z.log2_mul_pow2 by lia. f_equal. apply Z.log2_unique; lia. }
      destruct (Z.ltb_spec (k + 52) 53); [lia |]. cbv zeta.
      replace (k + 52 - 52) with k by lia.
      rewrite Z.div_mul, Z.mod_mul by lia.
      destruct (Z.ltb_spec (2 * 0) (2 ^ k)); [| lia].
      destruct (Z.leb_spec Infinity (m * 2 ^ k)); [lia | reflexivity].
Qed.

Lemma roundPositive_idem z : 0 < z -> roundPositive (roundPositive z) = roundPositive z.
Proof.
  intros Hz. unfold roundPositive at 2 3.
  destruct (Z.ltb_spec (Z.log2 z) 53) as [Hlog | Hlog].
  - apply roundPositive_exact. apply Z.log2_lt_pow2 in Hlog; lia.
  - cbv zeta. set (k := Z.log2 z - 52). set (q := z / 2 ^ k).
    assert (0 < 2 ^ k) as Hpow by (apply Z.pow_pos_nonneg; lia).
    destruct (Z.log2_spec z Hz) as [Hlo Hhi].
    assert (2 ^ Z.log2 z = 2 ^ 52 * 2 ^ k) as E1.
    { rewrite <- Z.pow_add_r by lia. unfold k. f_equal. lia. }
    assert (2 ^ Z.succ (Z.log2 z) = 2 ^ 53 * 2 ^ k) as E2.
    { rewrite <- Z.pow_add_r by lia. unfold k. f_equal. lia. }
    assert (2 ^ 52 <= q < 2 ^ 53) as Hq.
    { unfold q. split.
      - apply Z.div_le_lower_bound; lia.
      - apply Z.div_lt_upper_bound; lia. }
    set (up := if 2 * (z mod 2 ^ k) <? 2 ^ k then false
               else if 2 ^ k <? 2 * (z mod 2 ^ k) then true else Z.odd q).
    destruct (Z.leb_spec Infinity ((if up then q + 1 else q) * 2 ^ k)) as [_ | Hfin].
    + now vm_compute.
    + apply roundPositive_double; [destruct up; lia | lia | assumption].
Qed.

(** Rounding a double changes nothing. *)
Lemma toDouble_idem z : toDouble (toDouble z) = toDouble z.
Proof.
  destruct z as [| p | p]; cbn [toDouble]; [reflexivity | |].
  - pose proof (roundPositive_pos (Z.pos p) eq_refl) as Hpos.
    destruct (roundPositive (Z.pos p)) as [| r | r] eqn:E; try lia.
    cbn [toDouble]. rewrite <- E. now apply roundPositive_idem.
  - change (- Z.neg p) with (Z.pos p).
    pose proof (roundPositive_pos (Z.pos p) eq_refl) as Hpos.
    rewrite toDouble_opp. f_equal.
    destruct (roundPositive (Z.pos p)) as [| r | r] eqn:E; try lia.
    cbn [toDouble]. rewrite <- E. now apply roundPositive_idem.
Qed.

(** ** Subtraction *)

Lemma subtract_opp a b : a <> b -> subtract b a = - subtract a b.
Proof.
  intros Hne. unfold subtract.
  destruct (Z.eqb_spec (Z.abs a) Infinity) as [Ha | Ha];
    destruct (Z.eqb_spec (Z.abs b) Infinity) as [Hb | Hb]; try lia.
  rewrite <- toDouble_opp. f_equal. lia.
Qed.

Lemma subtract_lt a b :
  - Infinity <= a <= Infinity -> - Infinity <= b <= Infinity ->
  a < b -> subtract a b < 0.
Proof.
  intros Ha Hb Hlt. unfold subtract.
  destruct (Z.eqb_spec (Z.abs a) Infinity) as [Ea | Ea]; [lia |].
  destruct (Z.eqb_spec (Z.abs b) Infinity) as [Eb | Eb]; [lia |].
  rewrite <- (Z.opp_involutive (a - b)), toDouble_opp.
  pose proof (toDouble_pos (- (a - b))). lia.
Qed.

Lemma subtract_gt a b :
  - Infinity <= a <= Infinity -> - Infinity <= b <= Infinity ->
  b < a -> 0 < subtract a b.
Proof.
  intros Ha Hb Hlt. rewrite subtract_opp by lia.
  pose proof (subtract_lt b a Hb Ha Hlt). lia.
Qed.

(** Between numbers up to 2^53 the subtraction is exact. *)
Lemma subtract_exact a b : exactInteger a -> exactInteger b -> subtract a b = a - b.
Proof.
  unfold exactInteger. intros Ha Hb. unfold subtract.
  assert (2 ^ 53 < Infinity) as Hinf by reflexivity.
  destruct (Z.eqb_spec (Z.abs a) Infinity) as [Ea | Ea]; [lia |].
  destruct (Z.eqb_spec (Z.abs b) Infinity) as [Eb | Eb]; [lia |].
  apply toDouble_exact. lia.
Qed.

(** ** The text of a number *)

(** Up to 2^53 a number prints as its digits. *)
Lemma numToString_exact n : exactInteger n -> numToString n = decimal n.
Proof.
  unfold exactInteger. intros H. unfold numToString.
  destruct (Z.ltb_spec n 0); [lia |].
  rewrite toDouble_exact by lia.
  destruct (Z.eq_dec n (2 ^ 53)) as [-> | Hn]; [now vm_compute |].
  unfold printDouble, MAX_SAFE_INTEGER.
  destruct (Z.leb_spec n (2 ^ 53 - 1)); [reflexivity | lia].
Qed.

Lemma allChars_weaken (p q : ascii -> bool) s :
  (forall c, p c = true -> q c = true) -> allChars p s = true -> allChars q s = true.
Proof.
  intros Hpq. induction s as [| c s IH]; simpl; [trivial |].
  intros [Hc Hs]%andb_true_iff. now rewrite (Hpq c Hc), IH.
Qed.

Lemma isDigit_notDash c : isDigit c = true -> notDash c = true.
Proof.
  intros H. unfold notDash. now rewrite (class_differ isDigit c "-" H eq_refl).
Qed.

Lemma decimal_notDash n : 0 <= n -> allChars notDash (decimal n) = true.
Proof.
  intros H. apply (allChars_weaken isDigit); [exact isDigit_notDash |].
  now apply decimal_digits.
Qed.

Lemma stripZeros_allChars p s : allChars p s = true -> allChars p (stripZeros s) = true.
Proof.
  induction s as [| c s IH]; simpl; [trivial |].
  intros [Hc Hs]%andb_true_iff. specialize (IH Hs).
  destruct (stripZeros s) as [| d r].
  - destruct (Ascii.eqb c "0"); simpl; [reflexivity | now rewrite Hc].
  - simpl in *. now rewrite Hc.
Qed.

Lemma exponential_notDash v : 0 <= v -> allChars notDash (exponential v) = true.
Proof.
  intros H. unfold exponential.
  assert (allChars notDash (decimal (decimalLength v - 1)) = true) as He.
  { apply decimal_notDash. unfold decimalLength.
    pose proof (decimal_nonEmpty v). destruct (decimal v); [discriminate |].
    cbn [String.length]. lia. }
  pose proof (stripZeros_allChars notDash _ (decimal_notDash v H)) as Hs.
  destruct (stripZeros (decimal v)) as [| c [| d rest]]; [reflexivity | |].
  - simpl in Hs. apply andb_true_iff in Hs as [Hc _].
    simpl. now rewrite Hc, He.
  - cbn [allChars] in Hs. apply andb_true_iff in Hs as [Hc Hs].
    cbn [allChars]. rewrite Hc. cbn [andb].
    change ("." ++ String d rest ++ "e+" ++ decimal (decimalLength v - 1))
      with (String "." (String d rest ++ String "e" (String "+" (decimal (decimalLength v - 1))))).
    cbn [allChars]. rewrite allChars_app. cbn [allChars]. now rewrite Hs, He.
Qed.

Lemma candidates_nonneg x k v : 0 <= x -> In v (candidates x k) -> 0 <= v.
Proof.
  intros Hx. unfold candidates. cbv zeta. intros [Hin _]%filter_In.
  assert (0 <= 10 ^ (decimalLength x - k)) as Hunit by (apply Z.pow_nonneg; lia).
  assert (0 <= x / 10 ^ (decimalLength x - k)) as Hq.
  { destruct (Z.eq_dec (10 ^ (decimalLength x - k)) 0) as [-> | Hne].
    - now rewrite Z.div_0_r.
    - apply Z.div_pos; lia. }
  destruct Hin as [<- | [<- | []]]; nia.
Qed.

Lemma closest_In x unit vs v : closest x unit vs = Some v -> In v vs.
Proof.
  unfold closest. destruct vs as [| low [| high rest]]; [discriminate | |].
  - intros [= ->]. now left.
  - destruct (x - low <? high - x); [intros [= ->]; now left |].
    destruct (high - x <? x - low); [intros [= ->]; right; now left |].
    destruct (Z.even (low / unit)); intros [= ->]; [now left | right; now left].
Qed.

Lemma shortestFrom_nonneg fuel x k : 0 <= x -> 0 <= shortestFrom fuel x k.
Proof.
  intros Hx. revert k. induction fuel as [| f IH]; intros k; cbn [shortestFrom];
    [assumption |].
  destruct (decimalLength x <? k); [assumption |].
  destruct (closest x _ (candidates x k)) as [v |] eqn:E; [| apply IH].
  apply closest_In in E. now apply (candidates_nonneg x k).
Qed.

Lemma printDouble_notDash x : 0 <= x -> allChars notDash (printDouble x) = true.
Proof.
  intros H. unfold printDouble.
  destruct (x <=? MAX_SAFE_INTEGER); [now apply decimal_notDash |].
  destruct (Infinity <=? x); [reflexivity |]. cbv zeta.
  pose proof (shortestFrom_nonneg 17 x 1 H) as Hv. fold (shortest x) in Hv.
  destruct (shortest x <? 10 ^ 21);
    [now apply decimal_notDash | now apply exponential_notDash].
Qed.

(** The text of a number that is not negative has no hyphen, whatever its
    size. *)
Lemma numToString_no_dash n : 0 <= n -> find "-" (numToString n) = None.
Proof.
  intros H. apply (find_absent notDash); [| reflexivity].
  unfold numToString. destruct (Z.ltb_spec n 0); [lia |].
  apply printDouble_notDash. now apply toDouble_nonneg.
Qed.

Lemma numToString_nonEmpty n : nonEmpty (numToString n) = true.
Proof.
  assert (forall x, nonEmpty (printDouble x) = true) as Hp.
  { intros x. unfold printDouble.
    destruct (x <=? MAX_SAFE_INTEGER); [apply decimal_nonEmpty |].
    destruct (Infinity <=? x); [reflexivity |]. cbv zeta.
    destruct (shortest x <? 10 ^ 21); [apply decimal_nonEmpty |].
    unfold exponential. now destruct (stripZeros (decimal (shortest x))) as [| c [| d r]]. }
  unfold numToString. destruct (n <? 0); [reflexivity | apply Hp].
Qed.

(** [parseInt] reads the digits of [n] as the number nearest to [n]. *)
Lemma parseInt_decimal n : 0 <= n -> parseInt (decimal n) = Num (toDouble n).
Proof.
  intros H.
  rewrite parseInt_digits by (apply decimal_nonEmpty || now apply decimal_digits).
  rewrite decimal_nonneg by assumption.
  rewrite parseDigits_digitsOf.
  - simpl. do 2 f_equal. lia.
  - rewrite N2Nat.id. apply N.size_gt.
Qed.

(** *** Numbers printed in plain digits *)

Lemma digitsOf_length fuel n acc (m : nat) :
  (n < 10 ^ N.of_nat m)%N -> (1 <= m)%nat ->
  (String.length (digitsOf fuel n acc) <= m + String.length acc)%nat.
Proof.
  revert n acc m. induction fuel as [| f IH]; intros n acc m Hn Hm; cbn [digitsOf].
  - cbn [String.length]. lia.
  - destruct (N.ltb_spec n 10) as [Hlt | Hge]; [cbn [String.length]; lia |].
    destruct m as [| [| m]]; [lia | cbn in Hn; lia |].
    specialize (IH (n / 10)%N (String (digitChar (n mod 10)) acc) (S m)).
    cbn [String.length] in IH.
    assert (n / 10 < 10 ^ N.of_nat (S m))%N as Hdiv.
    { apply N.Div0.div_lt_upper_bound.
      rewrite <- N.pow_succ_r', <- Nat2N.inj_succ. exact Hn. }
    specialize (IH Hdiv). lia.
Qed.

Lemma decimalLength_le x : 0 <= x < 10 ^ 21 -> 1 <= decimalLength x <= 21.
Proof.
  intros H. unfold decimalLength. split.
  - pose proof (decimal_nonEmpty x). destruct (decimal x); [discriminate |].
    cbn [String.length]. lia.
  - rewrite decimal_nonneg by lia.
    pose proof (digitsOf_length (N.to_nat (N.size (Z.to_N x))) (Z.to_N x) "" 21) as Hl.
    cbn [String.length] in Hl.
    assert (Z.to_N x < 10 ^ N.of_nat 21)%N as Hn.
    { change (10 ^ N.of_nat 21)%N with (Z.to_N (10 ^ 21)). lia. }
    specialize (Hl Hn). lia.
Qed.

Lemma candidates_reads x k v : In v (candidates x k) -> toDouble v = x.
Proof.
  unfold candidates. cbv zeta. intros [_ H]%filter_In. now apply Z.eqb_eq.
Qed.

Lemma candidates_below x k v :
  0 <= x < 10 ^ 21 -> 1 <= k <= decimalLength x ->
  In v (candidates x k) -> v < 10 ^ 21.
Proof.
  intros Hx Hk Hin. pose proof (candidates_reads x k v Hin) as Hread.
  pose proof (decimalLength_le x Hx) as Hd.
  unfold candidates in Hin. cbv zeta in Hin. apply filter_In in Hin as [Hin _].
  set (e := decimalLength x - k) in *.
  assert (0 < 10 ^ e) as Hu by (apply Z.pow_pos_nonneg; lia).
  assert (10 ^ 21 = 10 ^ e * 10 ^ (21 - e)) as Hsplit.
  { rewrite <- Z.pow_add_r by lia. f_equal. lia. }
  assert (x / 10 ^ e * 10 ^ e <= x) as Hlow.
  { rewrite Z.mul_comm. apply Z.mul_div_le. assumption. }
  destruct Hin as [<- | [<- | []]]; [lia |].
  assert (x / 10 ^ e < 10 ^ (21 - e)) as Hq.
  { apply Z.div_lt_upper_bound; [assumption |]. rewrite <- Hsplit. lia. }
  assert (x / 10 ^ e * 10 ^ e + 10 ^ e <= 10 ^ 21) as Hle by (rewrite Hsplit; nia).
  destruct (Z.eq_dec (x / 10 ^ e * 10 ^ e + 10 ^ e) (10 ^ 21)) as [E | Hne]; [| lia].
  rewrite E in Hread. assert (toDouble (10 ^ 21) = 10 ^ 21) as Hfix by now vm_compute.
  lia.
Qed.

Lemma shortestFrom_below fuel x k :
  0 <= x < 10 ^ 21 -> 1 <= k -> shortestFrom fuel x k < 10 ^ 21.
Proof.
  intros Hx. revert k. induction fuel as [| f IH]; intros k Hk; cbn [shortestFrom];
    [lia |].
  destruct (Z.ltb_spec (decimalLength x) k); [lia |].
  destruct (closest x _ (candidates x k)) as [v |] eqn:E; [| apply IH; lia].
  apply closest_In in E. apply (candidates_below x k); [assumption | lia | assumption].
Qed.

Lemma shortestFrom_reads fuel x k :
  toDouble x = x -> toDouble (shortestFrom fuel x k) = x.
Proof.
  intros Hx. revert k. induction fuel as [| f IH]; intros k; cbn [shortestFrom];
    [assumption |].
  destruct (decimalLength x <? k); [assumption |].
  destruct (closest x _ (candidates x k)) as [v |] eqn:E; [| apply IH].
  apply closest_In in E. now apply (candidates_reads x k).
Qed.

(** A number below 10^21 is printed as the digits of an integer that is
    read back as that number. *)
Lemma numToString_plain n :
  plainNumber n ->
  exists v, 0 <= v /\ numToString n = decimal v /\ toDouble v = n.
Proof.
  intros [Hn Hd]. unfold numToString.
  destruct (Z.ltb_spec n 0); [lia |]. rewrite Hd. unfold printDouble.
  destruct (Z.leb_spec n MAX_SAFE_INTEGER); [now exists n; repeat split; try lia |].
  assert (10 ^ 21 < Infinity) as Hinf by reflexivity.
  destruct (Z.leb_spec Infinity n); [lia |]. cbv zeta. unfold shortest.
  pose proof (shortestFrom_below 17 n 1 Hn ltac:(lia)) as Hlt.
  destruct (Z.ltb_spec (shortestFrom 17 n 1) (10 ^ 21)); [| lia].
  exists (shortestFrom 17 n 1). split; [apply shortestFrom_nonneg; lia |].
  split; [reflexivity | now apply shortestFrom_reads].
Qed.

Lemma exactInteger_plain n : exactInteger n -> plainNumber n.
Proof.
  unfold exactInteger, plainNumber. intros H.
  assert (2 ^ 53 < 10 ^ 21) as Hlt by reflexivity.
  split; [lia | apply toDouble_exact; lia].
Qed.

Lemma safeInteger_plain n : safeInteger n -> plainNumber n /\ plainNumber (n + 1).
Proof.
  intros [H1 H2]%safeInteger_exact. split; now apply exactInteger_plain.
Qed.

Lemma numToString_digits n : plainNumber n -> allChars isDigit (numToString n) = true.
Proof.
  intros (v & Hv & -> & _)%numToString_plain. now apply decimal_digits.
Qed.

(** [parseInt(`${n}`) === n] for a number below 10^21. *)
Lemma parseInt_numToString n : plainNumber n -> parseInt (numToString n) = Num n.
Proof.
  intros (v & Hv & -> & Hread)%numToString_plain.
  rewrite parseInt_decimal by assumption. now rewrite Hread.
Qed.

Lemma numToString_no_dot n : plainNumber n -> find "." (numToString n) = None.
Proof.
  intros H. apply (find_absent isDigit); [now apply numToString_digits | reflexivity].
Qed.

Lemma trimStart_keeps_absent c s : find c s = None -> find c (trimStart s) = None.
Proof.
  induction s as [| d s IH]; intros H; simpl; [reflexivity |].
  destruct (isStrWhiteSpace d); [| assumption].
  apply IH. simpl in H. destruct (Ascii.eqb d c); [discriminate |].
  destruct (find c s); [discriminate | reflexivity].
Qed.

Lemma startsWith_absent c s : find c s = None -> startsWith c s = false.
Proof.
  destruct s as [| d s]; simpl; [reflexivity |].
  destruct (Ascii.eqb d c); [discriminate | reflexivity].
Qed.

(** Without a minus sign in the text, [parseInt] is never negative. *)
Lemma parseInt_nonneg s : find "-" s = None -> 0 <= orZero (parseInt s).
Proof.
  intros H. unfold parseInt.
  rewrite (startsWith_absent "-" (trimStart s)) by now apply trimStart_keeps_absent.
  match goal with
  | |- 0 <= orZero (match parseDigits ?r ?t NaN with _ => _ end) =>
      assert (0 <= orZero (parseDigits r t NaN)) as Hp
        by (apply parseDigits_nonneg; [destruct (_ && _); lia | simpl; lia]);
      destruct (parseDigits r t NaN); cbn [orZero] in *;
        [lia | apply toDouble_nonneg; lia]
  end.
Qed.

(** What [parseInt] reads is a number: at most [Infinity]. *)
Lemma parseInt_le_Infinity s : orZero (parseInt s) <= Infinity.
Proof.
  unfold parseInt.
  match goal with
  | |- orZero (match ?x with _ => _ end) <= _ => destruct x
  end; cbn [orZero]; [now vm_compute | apply toDouble_range].
Qed.

(** ** parseVersion *)

(** [parseVersion] in terms of the position of the first hyphen. *)
Lemma parseVersion_unfold version :
  let clean := if startsWith "v" version then slice 1 version else version in
  parseVersion version =
  match find "-" clean with
  | Some n =>
      let parts := split "." (prefix n clean) in
      mkVersion (orZero (parseInt (at_ parts 0))) (orZero (parseInt (at_ parts 1)))
        (orZero (parseInt (at_ parts 2))) (Some (slice (S n) clean))
  | None =>
      let parts := split "." clean in
      mkVersion (orZero (parseInt (at_ parts 0))) (orZero (parseInt (at_ parts 1)))
        (orZero (parseInt (at_ parts 2))) None
  end.
Proof.
  intros clean. unfold parseVersion. fold clean. unfold indexOf.
  destruct (find "-" clean) as [n |]; [| reflexivity].
  destruct (Z.eqb_spec (Z.of_nat n) (-1)) as [E | _]; [lia |].
  cbn [negb]. unfold substring, substringFrom.
  replace (Z.to_nat (Z.of_nat n) - Z.to_nat 0)%nat with n by lia.
  replace (Z.to_nat (Z.of_nat n + 1)) with (S n) by lia.
  reflexivity.
Qed.

Lemma cleanVersion_v (s : string) : cleanVersion (String "v" s) = s.
Proof. reflexivity. Qed.

Lemma parseVersion_hyphen version n :
  find "-" (cleanVersion version) = Some n ->
  parseVersion version
  = readTriple (prefix n (cleanVersion version)) (Some (slice (S n) (cleanVersion version))).
Proof.
  intros H. rewrite parseVersion_unfold. cbv zeta. fold (cleanVersion version).
  now rewrite H.
Qed.

Lemma parseVersion_no_hyphen version :
  find "-" (cleanVersion version) = None ->
  parseVersion version = readTriple (cleanVersion version) None.
Proof.
  intros H. rewrite parseVersion_unfold. cbv zeta. fold (cleanVersion version).
  now rewrite H.
Qed.

(** The version part of a text has no hyphen, so none of the three numbers
    is negative. *)
Lemma parseVersion_nonneg version :
  0 <= major (parseVersion version)
  /\ 0 <= minor (parseVersion version)
  /\ 0 <= patch (parseVersion version).
Proof.
  rewrite parseVersion_unfold.
  set (clean := if startsWith "v" version then slice 1 version else version).
  assert (forall part i, find "-" part = None ->
            0 <= orZero (parseInt (at_ (split "." part) i))) as Hpart.
  { intros part i H. apply parseInt_nonneg, at_keeps_absent; [reflexivity |].
    now apply split_keeps_absent. }
  destruct (find "-" clean) as [n |] eqn:E; cbn [major minor patch].
  - apply find_prefix in E. repeat split; now apply Hpart.
  - repeat split; now apply Hpart.
Qed.

(** What [parseInt] reads is a double. *)
Lemma parseInt_double s : toDouble (orZero (parseInt s)) = orZero (parseInt s).
Proof.
  unfold parseInt.
  match goal with
  | |- toDouble (orZero (match ?x with _ => _ end)) = _ => destruct x
  end; cbn [orZero]; [reflexivity | apply toDouble_idem].
Qed.

Lemma parseVersion_double version :
  toDouble (major (parseVersion version)) = major (parseVersion version)
  /\ toDouble (minor (parseVersion version)) = minor (parseVersion version)
  /\ toDouble (patch (parseVersion version)) = patch (parseVersion version).
Proof.
  unfold parseVersion.
  destruct (if negb (indexOf "-" _ =? -1) then _ else _) as [versionPart pre].
  cbn [major minor patch]. repeat split; apply parseInt_double.
Qed.

Lemma parseVersion_le_Infinity version :
  major (parseVersion version) <= Infinity
  /\ minor (parseVersion version) <= Infinity
  /\ patch (parseVersion version) <= Infinity.
Proof.
  unfold parseVersion.
  destruct (if negb (indexOf "-" _ =? -1) then _ else _) as [versionPart pre].
  cbn [major minor patch]. repeat split; apply parseInt_le_Infinity.
Qed.

Lemma formatVersion_eq (M N P : Z) (pre : option string) :
  formatVersion M N P pre
  = String "v" (tripleText M N P
                ++ match pre with
                   | Some p => if nonEmpty p then String "-" p else ""
                   | None => ""
                   end).
Proof.
  unfold formatVersion, tripleText.
  destruct pre as [p |]; [destruct (nonEmpty p) |]; simpl;
    rewrite ?append_nil_r; reflexivity.
Qed.

Lemma split_triple (M N P : Z) :
  plainNumber M -> plainNumber N -> plainNumber P ->
  split "." (tripleText M N P) = [numToString M; numToString N; numToString P].
Proof.
  intros HM HN HP. unfold tripleText.
  change (numToString M ++ "." ++ numToString N ++ "." ++ numToString P)
    with (numToString M ++ String "." (numToString N ++ String "." (numToString P))).
  rewrite !split_app by now apply numToString_no_dot.
  now rewrite split_absent by now apply numToString_no_dot.
Qed.

Lemma parseInt_triple (M N P : Z) :
  plainNumber M -> plainNumber N -> plainNumber P ->
  let parts := split "." (tripleText M N P) in
  orZero (parseInt (at_ parts 0)) = M
  /\ orZero (parseInt (at_ parts 1)) = N
  /\ orZero (parseInt (at_ parts 2)) = P.
Proof.
  intros HM HN HP parts. unfold parts.
  rewrite split_triple by assumption.
  unfold at_. cbn [nth]. rewrite !parseInt_numToString by assumption.
  now repeat split.
Qed.

Lemma triple_no_dash (M N P : Z) :
  0 <= M -> 0 <= N -> 0 <= P -> find "-" (tripleText M N P) = None.
Proof.
  intros HM HN HP. unfold tripleText.
  repeat (apply find_app_absent; [first [now apply numToString_no_dash | reflexivity] |]).
  now apply numToString_no_dash.
Qed.

Lemma readTriple_tripleText (M N P : Z) (pre : option string) :
  plainNumber M -> plainNumber N -> plainNumber P ->
  readTriple (tripleText M N P) pre = mkVersion M N P pre.
Proof.
  intros HM HN HP. unfold readTriple. cbv zeta.
  destruct (parseInt_triple M N P HM HN HP) as (-> & -> & ->). reflexivity.
Qed.

(** Parsing a formatted triple without prerelease. *)
Lemma parse_format_plain (M N P : Z) :
  plainNumber M -> plainNumber N -> plainNumber P ->
  parseVersion (formatVersion M N P None) = mkVersion M N P None.
Proof.
  intros HM HN HP. rewrite formatVersion_eq, append_nil_r.
  rewrite parseVersion_no_hyphen; rewrite cleanVersion_v.
  - now apply readTriple_tripleText.
  - apply triple_no_dash; (apply HM || apply HN || apply HP).
Qed.

Lemma slice_past (a : string) (c : ascii) (b : string) :
  slice (S (String.length a)) (a ++ String c b) = b.
Proof. induction a as [| x a IH]; [reflexivity | exact IH]. Qed.

(** Parsing a formatted triple with any non-empty prerelease. *)
Lemma parse_format_prerelease (M N P : Z) (p : string) :
  plainNumber M -> plainNumber N -> plainNumber P -> nonEmpty p = true ->
  parseVersion (formatVersion M N P (Some p)) = mkVersion M N P (Some p).
Proof.
  intros HM HN HP Hp. rewrite formatVersion_eq, Hp.
  rewrite (parseVersion_hyphen _ (String.length (tripleText M N P))).
  - rewrite cleanVersion_v, prefix_app, slice_past.
    now apply readTriple_tripleText.
  - rewrite cleanVersion_v. apply find_app_here.
    apply triple_no_dash; (apply HM || apply HN || apply HP).
Qed.

(** ** The pattern <word>.<digits> *)

Lemma spanWord_app w rest :
  allChars isWordChar w = true ->
  (forall c r, rest = String c r -> isWordChar c = false) ->
  spanWord (w ++ rest) = (w, rest).
Proof.
  intros Hw Hrest. induction w as [| c w IH]; simpl in *.
  - destruct rest as [| c r]; [reflexivity |]. simpl.
    now rewrite (Hrest c r eq_refl).
  - apply andb_true_iff in Hw as [Hc Hw]. rewrite Hc. now rewrite IH.
Qed.

Lemma spanWord_spec s w rest :
  spanWord s = (w, rest) ->
  s = w ++ rest /\ allChars isWordChar w = true.
Proof.
  revert w rest. induction s as [| c s IH]; simpl; intros w rest H.
  - injection H as <- <-. now split.
  - destruct (isWordChar c) eqn:E.
    + destruct (spanWord s) as [w' rest'] eqn:Es. injection H as <- <-.
      destruct (IH w' rest' eq_refl) as [-> Hw]. simpl. rewrite E. now split.
    + injection H as <- <-. now split.
Qed.

(** The regular expression matches exactly the texts of the shape
    [<word>.<digits>], and its groups are the word and the digits. *)
Lemma matchWordDotDigits_spec s w d :
  matchWordDotDigits s = Some (w, d) <-> wordDotDigits s w d.
Proof.
  unfold matchWordDotDigits, wordDotDigits. split.
  - destruct (spanWord s) as [w' rest] eqn:E.
    destruct (nonEmpty w' && startsWith "." rest && nonEmpty (slice 1 rest)
              && allChars isDigit (slice 1 rest)) eqn:B; [| discriminate].
    intros [= <- <-]. apply andb_true_iff in B as [B Hd].
    apply andb_true_iff in B as [B Hn]. apply andb_true_iff in B as [Hw Hdot].
    apply spanWord_spec in E as [-> Hall].
    destruct rest as [| c rest]; [discriminate |]. simpl in Hdot.
    apply Ascii.eqb_eq in Hdot as ->. simpl in *. now repeat split.
  - intros (-> & Hw & Hall & Hd & Hdig).
    rewrite spanWord_app; [| assumption | now intros c r [= <- <-]].
    simpl. rewrite Hw, Hd, Hdig. reflexivity.
Qed.


Lemma codeUnitCompare_refl s : codeUnitCompare s s = 0.
Proof.
  unfold codeUnitCompare. pose proof (String.compare_antisym s s) as H.
  destruct (String.compare s s); [reflexivity | discriminate | discriminate].
Qed.

(** ** calculateVersion *)

Lemma nonEmpty_app_r (a b : string) : nonEmpty b = true -> nonEmpty (a ++ b) = true.
Proof. destruct a; [trivial | reflexivity]. Qed.




Lemma calculateVersion_patch latestVersion isPrerelease inputs :
  calculateVersion latestVersion "patch" isPrerelease inputs
  = Ok (formatVersion (major (parseVersion latestVersion))
          (minor (parseVersion latestVersion))
          (toDouble (patch (parseVersion latestVersion) + 1))
          (if isPrerelease
           then Some (prereleaseSuffix inputs ++ "." ++ prereleaseNumber inputs)
           else None)).
Proof. reflexivity. Qed.

Lemma calculateVersion_invalid latestVersion releaseType isPrerelease inputs :
  releaseType <> "major" -> releaseType <> "minor" -> releaseType <> "patch" ->
  calculateVersion latestVersion releaseType isPrerelease inputs
  = Throw (mkError ("Invalid release type: " ++ releaseType) None).
Proof.
  intros H1 H2 H3. unfold calculateVersion.
  apply String.eqb_neq in H1, H2, H3. now rewrite H1, H2, H3.
Qed.


(** Up to 2^53 the three numbers are printed as their digits. *)
Lemma formatVersion_digits (M N P : Z) :
  exactInteger M -> exactInteger N -> exactInteger P ->
  formatVersion M N P None = "v" ++ decimal M ++ "." ++ decimal N ++ "." ++ decimal P.
Proof.
  intros HM HN HP. unfold formatVersion.
  now rewrite !numToString_exact by assumption.
Qed.


(** Beyond the safe integers the sum is rounded to a double, as in the
    code: 2^53 + 1 is 2^53 again; and a number from 10^21 on is printed in
    the exponent form. *)
Example calculateVersion_beyond_safe inputs :
  calculateVersion "v9007199254740991.0.0" "major" false inputs
  = Ok "v9007199254740992.0.0"
  /\ calculateVersion "v9007199254740992.0.0" "major" false inputs
     = Ok "v9007199254740992.0.0"
  /\ calculateVersion "v1000000000000000000000.0.0" "minor" false inputs
     = Ok "v1e+21.1.0".
Proof. repeat split; now vm_compute. Qed.

Example calculateVersion_patch_example inputs :
  calculateVersion "v1.2.3" "patch" false inputs = Ok "v1.2.4".
Proof. reflexivity. Qed.

Example calculateVersion_minor_example inputs :
  calculateVersion "v1.2.3" "minor" false inputs = Ok "v1.3.0".
Proof. reflexivity. Qed.

Example calculateVersion_major_example inputs :
  calculateVersion "v1.2.3" "major" false inputs = Ok "v2.0.0".
Proof. reflexivity. Qed.

Example calculateVersion_prerelease_example :
  calculateVersion "v1.2.3" "minor" true (mkPrereleaseInputs "beta" "1")
  = Ok "v1.3.0-beta.1".
Proof. reflexivity. Qed.

Example calculateVersion_first_release inputs :
  calculateVersion "v0.0.0" "patch" false inputs = Ok "v0.0.1".
Proof. reflexivity. Qed.

Lemma formatVersion_plain_no_dash (M N P : Z) :
  0 <= M -> 0 <= N -> 0 <= P -> find "-" (formatVersion M N P None) = None.
Proof.
  intros HM HN HP. rewrite formatVersion_eq, append_nil_r.
  change (String "v" (tripleText M N P)) with ("v" ++ tripleText M N P).
  apply find_app_absent; [reflexivity | now apply triple_no_dash].
Qed.

(** Without the prerelease flag the result has no hyphen and is read back
    without a prerelease, whatever the size of its numbers. *)
Lemma calculateVersion_stable latestVersion releaseType inputs newVersion :
  calculateVersion latestVersion releaseType false inputs = Ok newVersion ->
  find "-" newVersion = None /\ prerelease (parseVersion newVersion) = None.
Proof.
  destruct (parseVersion_nonneg latestVersion) as (HM & HN & HP).
  intros H.
  assert (exists M N P, 0 <= M /\ 0 <= N /\ 0 <= P
                        /\ newVersion = formatVersion M N P None)
    as (M & N & P & H1 & H2 & H3 & ->).
  { revert H. unfold calculateVersion.
    destruct (String.eqb releaseType "major");
      [| destruct (String.eqb releaseType "minor");
         [| destruct (String.eqb releaseType "patch"); [| discriminate]]];
      intros [= <-].
    - exists (toDouble (major (parseVersion latestVersion) + 1)), 0, 0.
      repeat split; try lia. apply toDouble_nonneg; lia.
    - exists (major (parseVersion latestVersion)),
        (toDouble (minor (parseVersion latestVersion) + 1)), 0.
      repeat split; try lia. apply toDouble_nonneg; lia.
    - exists (major (parseVersion latestVersion)), (minor (parseVersion latestVersion)),
        (toDouble (patch (parseVersion latestVersion) + 1)).
      repeat split; try lia. apply toDouble_nonneg; lia. }
  pose proof (formatVersion_plain_no_dash M N P H1 H2 H3) as Hdash.
  split; [exact Hdash |].
  rewrite parseVersion_no_hyphen; [reflexivity |].
  rewrite formatVersion_eq in Hdash |- *. rewrite cleanVersion_v.
  cbn [find] in Hdash. change (("v" =? "-")%char) with false in Hdash.
  cbv iota in Hdash. now destruct (find "-" _).
Qed.

(** C9.  Without the prerelease flag, [calculateVersion] discards the
    prerelease of the current version: whatever prerelease the text
    carries, the result is the formatted triple of the release type,
    computed from the three numbers of the current version alone (a text
    with the same three numbers gives the same result); it contains no
    hyphen and parses back without a prerelease; so [v1.2.3-beta.4] gives
    [v1.2.4] for a patch. *)
Theorem calculateVersion_discards_prerelease (latestVersion : string)
    (inputs : PrereleaseInputs) :
  let current := parseVersion latestVersion in
  let next := fun n => toDouble (n + 1) in
  calculateVersion latestVersion "major" false inputs
  = Ok (formatVersion (next (major current)) 0 0 None)
  /\ calculateVersion latestVersion "minor" false inputs
     = Ok (formatVersion (major current) (next (minor current)) 0 None)
  /\ calculateVersion latestVersion "patch" false inputs
     = Ok (formatVersion (major current) (minor current) (next (patch current)) None)
  /\ (forall n, safeInteger n -> next n = n + 1)
  /\ (forall releaseType newVersion,
        calculateVersion latestVersion releaseType false inputs = Ok newVersion ->
        find "-" newVersion = None /\ prerelease (parseVersion newVersion) = None)
  /\ (forall other releaseType,
        sameTriple (parseVersion other) current ->
        calculateVersion other releaseType false inputs
        = calculateVersion latestVersion releaseType false inputs)
  /\ (prerelease (parseVersion "v1.2.3-beta.4") = Some "beta.4"
      /\ calculateVersion "v1.2.3-beta.4" "patch" false inputs = Ok "v1.2.4").
Proof.
  intros current next.
  split; [reflexivity |]. split; [reflexivity |]. split; [reflexivity |].
  split; [exact toDouble_succ |].
  split; [intros releaseType newVersion; apply calculateVersion_stable |].
  split; [| split; reflexivity].
  intros other releaseType (E1 & E2 & E3). unfold calculateVersion.
  fold current. now rewrite E1, E2, E3.
Qed.

Example calculateVersion_discards_example inputs :
  calculateVersion "v1.2.3-beta.4" "patch" false inputs = Ok "v1.2.4".
Proof. reflexivity. Qed.

(** ** The round trip *)




(** ** compareVersions *)

Lemma compareVersions_same_triple localeCompare (a b : string) :
  sameTriple (parseVersion a) (parseVersion b) ->
  compareVersions localeCompare a b
  = if hasPrerelease (parseVersion a) && hasPrerelease (parseVersion b)
    then localeCompare (default "" (prerelease (parseVersion a)))
                       (default "" (prerelease (parseVersion b)))
    else if hasPrerelease (parseVersion a) then -1
    else if hasPrerelease (parseVersion b) then 1
    else 0.
Proof.
  intros (E1 & E2 & E3). unfold compareVersions, hasPrerelease.
  rewrite E1, E2, E3, !Z.eqb_refl. reflexivity.
Qed.

Lemma compareVersions_differ localeCompare (a b : string) :
  let v1 := parseVersion a in
  let v2 := parseVersion b in
  (major v1 <> major v2 ->
   compareVersions localeCompare a b = subtract (major v1) (major v2))
  /\ (major v1 = major v2 -> minor v1 <> minor v2 ->
      compareVersions localeCompare a b = subtract (minor v1) (minor v2))
  /\ (major v1 = major v2 -> minor v1 = minor v2 -> patch v1 <> patch v2 ->
      compareVersions localeCompare a b = subtract (patch v1) (patch v2)).
Proof.
  intros v1 v2. unfold compareVersions. fold v1 v2. repeat split.
  - intros H%Z.eqb_neq. now rewrite H.
  - intros -> H%Z.eqb_neq. now rewrite Z.eqb_refl, H.
  - intros -> -> H%Z.eqb_neq. now rewrite !Z.eqb_refl, H.
Qed.

(** The claim C3 as stated fails: the result for [v3.0.0] against
    [v1.0.0] is 2 (the majors differ, so the collation plays no part), which
    is none of -1, 0 and 1. *)
Lemma compareVersions_returns_difference :
  compareVersions codeUnitCompare "v3.0.0" "v1.0.0" = 2
  /\ ~ In (compareVersions codeUnitCompare "v3.0.0" "v1.0.0") [-1; 0; 1].
Proof.
  split; [reflexivity |]. cbn [In].
  change (compareVersions codeUnitCompare "v3.0.0" "v1.0.0") with 2. lia.
Qed.

(** The numbers of a parsed version are between 0 and [Infinity]. *)
Lemma parseVersion_range version :
  let v := parseVersion version in
  (- Infinity <= major v <= Infinity)
  /\ (- Infinity <= minor v <= Infinity)
  /\ (- Infinity <= patch v <= Infinity).
Proof.
  assert (0 < Infinity) as Hinf by reflexivity.
  destruct (parseVersion_nonneg version) as (L1 & L2 & L3).
  destruct (parseVersion_le_Infinity version) as (U1 & U2 & U3).
  cbv zeta. lia.
Qed.

(** The sign of a difference of two numbers of parsed versions. *)
Lemma subtract_sign (x y : string) (f : Version -> Z) :
  f = major \/ f = minor \/ f = patch ->
  let a := f (parseVersion x) in
  let b := f (parseVersion y) in
  (a < b -> subtract a b < 0) /\ (b < a -> 0 < subtract a b)
  /\ (a <> b -> subtract a b <> 0).
Proof.
  intros Hf a b.
  assert (- Infinity <= a <= Infinity /\ - Infinity <= b <= Infinity) as [Ha Hb].
  { destruct (parseVersion_range x) as (X1 & X2 & X3).
    destruct (parseVersion_range y) as (Y1 & Y2 & Y3).
    unfold a, b. destruct Hf as [-> | [-> | ->]]; now split. }
  pose proof (subtract_lt a b Ha Hb). pose proof (subtract_gt a b Ha Hb).
  repeat split; try assumption. intros Hne.
  destruct (Z.lt_total a b) as [Hlt | [Heq | Hgt]]; lia.
Qed.

(** C3, amended.  [compareVersions] returns the difference of the first
    components of the two (major, minor, patch) triples that differ, as
    JavaScript subtracts them ([subtract]): a non-zero number of any size,
    with the sign of the difference, and the exact difference when the two
    numbers are at most 2^53; only when the triples are equal is the result
    -1, 0 or 1 by the rule on prereleases, or else what [localeCompare]
    gives for the two prereleases. *)
Theorem compareVersions_result (localeCompare : string -> string -> Z) (a b : string) :
  let v1 := parseVersion a in
  let v2 := parseVersion b in
  let r := compareVersions localeCompare a b in
  let differ := fun x y =>
    x <> y /\ r = subtract x y /\ r <> 0 /\ (x < y <-> r < 0)
    /\ (exactInteger x -> exactInteger y -> r = x - y) in
  differ (major v1) (major v2)
  \/ (major v1 = major v2 /\ differ (minor v1) (minor v2))
  \/ (major v1 = major v2 /\ minor v1 = minor v2 /\ differ (patch v1) (patch v2))
  \/ (sameTriple v1 v2
      /\ ((hasPrerelease v1 = true /\ hasPrerelease v2 = true
           /\ r = localeCompare (default "" (prerelease v1)) (default "" (prerelease v2)))
          \/ (hasPrerelease v1 = true /\ hasPrerelease v2 = false /\ r = -1)
          \/ (hasPrerelease v1 = false /\ hasPrerelease v2 = true /\ r = 1)
          \/ (hasPrerelease v1 = false /\ hasPrerelease v2 = false /\ r = 0))).
Proof.
  intros v1 v2 r differ.
  destruct (compareVersions_differ localeCompare a b) as (H1 & H2 & H3).
  fold v1 v2 r in H1, H2, H3.
  assert (forall f, f = major \/ f = minor \/ f = patch ->
            f v1 <> f v2 -> r = subtract (f v1) (f v2) -> differ (f v1) (f v2)) as Hd.
  { intros f Hf Hne Hr. destruct (subtract_sign a b f Hf) as (Slt & Sgt & Sne).
    fold v1 v2 in Slt, Sgt, Sne. unfold differ. rewrite Hr.
    split; [assumption |]. split; [reflexivity |]. split; [now apply Sne |].
    split.
    - split; [exact Slt |]. intros Hneg.
      destruct (Z.lt_total (f v1) (f v2)) as [Hlt | [Heq | Hgt]];
        [assumption | contradiction | specialize (Sgt Hgt); lia].
    - intros Hx Hy. now apply subtract_exact. }
  destruct (Z.eq_dec (major v1) (major v2)) as [E1 | N1].
  2: { left. apply (Hd major); auto. }
  destruct (Z.eq_dec (minor v1) (minor v2)) as [E2 | N2].
  2: { right; left. split; [assumption |]. apply (Hd minor); auto. }
  destruct (Z.eq_dec (patch v1) (patch v2)) as [E3 | N3].
  2: { right; right; left. split; [assumption |]. split; [assumption |].
       apply (Hd patch); auto. }
  right; right; right. split; [now repeat split |].
  unfold r. rewrite compareVersions_same_triple by now repeat split.
  fold v1 v2. destruct (hasPrerelease v1), (hasPrerelease v2); cbn [andb]; tauto.
Qed.

(** Beyond 2^53 the difference is rounded, and against [Infinity] it is
    infinite. *)
Example compareVersions_rounds :
  compareVersions codeUnitCompare "v9007199254740994.0.0" "v1.0.0" = 9007199254740992
  /\ major (parseVersion ("v1" ++ String.concat "" (repeat "0000000000" 31))) = Infinity
  /\ compareVersions codeUnitCompare ("v1" ++ String.concat "" (repeat "0000000000" 31)) "v1.0.0"
     = Infinity.
Proof. repeat split; now vm_compute. Qed.

(** C6.  With a collation that finds a text equal to itself:
    [compareVersions v v] is 0 for every text; a smaller (major, minor,
    patch) triple gives a negative result and a larger one a positive
    result; on equal triples a version with a prerelease comes strictly
    before one without; in particular [v1.0.0-beta.1] comes before
    [v1.0.0]. *)
Theorem compareVersions_order (localeCompare : string -> string -> Z) :
  (forall s, localeCompare s s = 0) ->
  (forall v, compareVersions localeCompare v v = 0)
  /\ (forall a b, tripleLt (parseVersion a) (parseVersion b) ->
        compareVersions localeCompare a b < 0)
  /\ (forall a b, tripleLt (parseVersion b) (parseVersion a) ->
        0 < compareVersions localeCompare a b)
  /\ (forall a b, sameTriple (parseVersion a) (parseVersion b) ->
        hasPrerelease (parseVersion a) = true ->
        hasPrerelease (parseVersion b) = false ->
        compareVersions localeCompare a b < 0
        /\ 0 < compareVersions localeCompare b a)
  /\ compareVersions localeCompare "v1.0.0-beta.1" "v1.0.0" < 0.
Proof.
  intros Hrefl. split; [| split; [| split; [| split]]].
  - intros v. rewrite compareVersions_same_triple by now repeat split.
    destruct (hasPrerelease (parseVersion v)); [apply Hrefl | reflexivity].
  - intros a b Hlt.
    destruct (compareVersions_differ localeCompare a b) as (H1 & H2 & H3).
    destruct Hlt as [Hlt | [E1 [Hlt | [E2 Hlt]]]].
    + rewrite H1 by lia. apply (subtract_sign a b major); auto.
    + rewrite H2 by lia. apply (subtract_sign a b minor); auto.
    + rewrite H3 by lia. apply (subtract_sign a b patch); auto.
  - intros a b Hlt.
    destruct (compareVersions_differ localeCompare a b) as (H1 & H2 & H3).
    destruct Hlt as [Hlt | [E1 [Hlt | [E2 Hlt]]]].
    + rewrite H1 by lia. apply (subtract_sign a b major); auto.
    + rewrite H2 by lia. apply (subtract_sign a b minor); auto.
    + rewrite H3 by lia. apply (subtract_sign a b patch); auto.
  - intros a b Hsame Ha Hb. split.
    + rewrite compareVersions_same_triple by assumption.
      rewrite Ha, Hb. reflexivity.
    + rewrite compareVersions_same_triple.
      * rewrite Ha, Hb. reflexivity.
      * destruct Hsame as (E1 & E2 & E3). now repeat split.
  - reflexivity.
Qed.

Lemma compareVersions_order_witness :
  (forall v, compareVersions codeUnitCompare v v = 0)
  /\ (forall a b, tripleLt (parseVersion a) (parseVersion b) ->
        compareVersions codeUnitCompare a b < 0)
  /\ (forall a b, tripleLt (parseVersion b) (parseVersion a) ->
        0 < compareVersions codeUnitCompare a b)
  /\ (forall a b, sameTriple (parseVersion a) (parseVersion b) ->
        hasPrerelease (parseVersion a) = true ->
        hasPrerelease (parseVersion b) = false ->
        compareVersions codeUnitCompare a b < 0
        /\ 0 < compareVersions codeUnitCompare b a)
  /\ compareVersions codeUnitCompare "v1.0.0-beta.1" "v1.0.0" < 0.
Proof.
  apply (compareVersions_order codeUnitCompare). exact codeUnitCompare_refl.
Defined.

Example compareVersions_prerelease_first :
  compareVersions codeUnitCompare "v1.0.0-beta.1" "v1.0.0" = -1.
Proof. reflexivity. Qed.

(** The prerelease texts are compared as texts: [beta.10] comes before
    [beta.2]. *)
Example compareVersions_textual :
  compareVersions codeUnitCompare "v1.0.0-beta.10" "v1.0.0-beta.2" = -1.
Proof. reflexivity. Qed.

(** ** incrementPrerelease *)

Lemma split_cons_inv sep s h t :
  split sep s = h :: t ->
  find sep h = None
  /\ ((t = [] /\ s = h) \/ exists s', s = h ++ String sep s' /\ split sep s' = t).
Proof.
  revert h t. induction s as [| c s IH]; simpl; intros h t H.
  - injection H as <- <-. split; [reflexivity | now left].
  - destruct (Ascii.eqb_spec c sep) as [-> | Hne].
    + injection H as <- <-. split; [reflexivity |]. right. now exists s.
    + destruct (split sep s) as [| h' t'] eqn:E; [now apply split_not_nil in E |].
      injection H as <- <-.
      destruct (IH h' t' eq_refl) as [Hh [[-> ->] | (s' & -> & Hs')]].
      * split; [| now left]. simpl.
        destruct (Ascii.eqb_spec c sep); [contradiction |]. now rewrite Hh.
      * split; [| right; now exists s']. simpl.
        destruct (Ascii.eqb_spec c sep); [contradiction |]. now rewrite Hh.
Qed.

(** The second element of [version.split('-')] is the segment between the
    first and the second hyphen. *)
Lemma second_part_segment version seg :
  nth_error (split "-" version) 1 = Some seg <-> prereleaseSegment version seg.
Proof.
  split.
  - destruct (split "-" version) as [| base [| seg' tl]] eqn:E; try discriminate.
    intros [= ->].
    apply split_cons_inv in E as [Hbase [[? _] | (s' & -> & E)]]; [discriminate |].
    apply split_cons_inv in E as [Hseg [[-> ->] | (s'' & -> & _)]].
    + exists base. split; [assumption | split; [assumption | now left]].
    + exists base. split; [assumption | split; [assumption |]]. right. now exists s''.
  - intros (base & Hbase & Hseg & [-> | (rest & ->)]).
    + change (base ++ "-" ++ seg) with (base ++ String "-" seg).
      rewrite split_app by assumption. now rewrite split_absent.
    + change (base ++ "-" ++ seg ++ "-" ++ rest)
        with (base ++ String "-" (seg ++ String "-" rest)).
      now rewrite !split_app by assumption.
Qed.

Lemma second_part_at version seg :
  nth_error (split "-" version) 1 = Some seg ->
  (List.length (split "-" version) <? 2)%nat = false
  /\ at_ (split "-" version) 1 = seg.
Proof.
  destruct (split "-" version) as [| base [| seg' tl]]; try discriminate.
  intros [= ->]. now split.
Qed.

Lemma no_second_part version :
  nth_error (split "-" version) 1 = None ->
  (List.length (split "-" version) <? 2)%nat = true.
Proof.
  destruct (split "-" version) as [| base [| seg' tl]]; try discriminate; reflexivity.
Qed.

(** [parseExistingPrerelease] finds a prerelease exactly when the segment
    after the first hyphen has the shape [<word>.<digits>]. *)
Lemma parseExistingPrerelease_spec version w n :
  parseExistingPrerelease version = Some (mkExisting w n)
  <-> exists seg d,
        prereleaseSegment version seg /\ wordDotDigits seg w d /\ n = parseInt d.
Proof.
  unfold parseExistingPrerelease. split.
  - destruct (nth_error (split "-" version) 1) as [seg |] eqn:E.
    + destruct (second_part_at version seg E) as [-> ->].
      destruct (matchWordDotDigits seg) as [[g1 g2] |] eqn:Em; [| discriminate].
      intros [= -> <-]. exists seg, g2. split; [| split].
      * now apply second_part_segment.
      * now apply matchWordDotDigits_spec.
      * reflexivity.
    + now rewrite (no_second_part version E).
  - intros (seg & d & Hseg & Hshape & ->).
    apply second_part_segment in Hseg.
    destruct (second_part_at version seg Hseg) as [-> ->].
    apply matchWordDotDigits_spec in Hshape. now rewrite Hshape.
Qed.

Lemma parseExistingPrerelease_none version :
  parseExistingPrerelease version = None
  <-> forall seg w d, prereleaseSegment version seg -> ~ wordDotDigits seg w d.
Proof.
  split.
  - intros Hnone seg w d Hseg Hshape.
    assert (parseExistingPrerelease version = Some (mkExisting w (parseInt d))) as E
      by (apply parseExistingPrerelease_spec; now exists seg, d).
    congruence.
  - intros H. destruct (parseExistingPrerelease version) as [[w n] |] eqn:E; [| reflexivity].
    apply parseExistingPrerelease_spec in E as (seg & d & Hseg & Hshape & _).
    now destruct (H seg w d Hseg).
Qed.

Lemma incrementPrerelease_fresh version inputs :
  parseExistingPrerelease version = None ->
  incrementPrerelease version inputs
  = version ++ "-" ++ prereleaseSuffix inputs ++ "." ++ prereleaseNumber inputs.
Proof. intros H. unfold incrementPrerelease. now rewrite H. Qed.

(** C10.  [incrementPrerelease] recognises an existing prerelease only
    when the segment between the first and the second hyphen of the text has
    the shape [<word>.<digits>] exactly; for every text whose segment has
    not that shape (or that has no such segment) it returns the whole
    original text followed by [-<suffix>.<number>], so that [v1.0.0-beta]
    becomes [v1.0.0-beta-rc.1]. *)
Theorem incrementPrerelease_unrecognised :
  (forall version,
     parseExistingPrerelease version <> None
     <-> exists seg w d, prereleaseSegment version seg /\ wordDotDigits seg w d)
  /\ (forall version inputs,
        (forall seg w d, prereleaseSegment version seg -> ~ wordDotDigits seg w d) ->
        incrementPrerelease version inputs
        = version ++ "-" ++ prereleaseSuffix inputs ++ "." ++ prereleaseNumber inputs)
  /\ (prereleaseSegment "v1.0.0-beta" "beta"
      /\ parseExistingPrerelease "v1.0.0-beta" = None
      /\ incrementPrerelease "v1.0.0-beta" (mkPrereleaseInputs "rc" "1")
         = "v1.0.0-beta-rc.1").
Proof.
  split; [| split].
  - intros version. split.
    + destruct (parseExistingPrerelease version) as [[w n] |] eqn:E; [| congruence].
      intros _. apply parseExistingPrerelease_spec in E as (seg & d & Hseg & Hshape & _).
      now exists seg, w, d.
    + intros (seg & w & d & Hseg & Hshape).
      assert (parseExistingPrerelease version = Some (mkExisting w (parseInt d))) as E
        by (apply parseExistingPrerelease_spec; now exists seg, d).
      congruence.
  - intros version inputs H. apply incrementPrerelease_fresh.
    now apply parseExistingPrerelease_none.
  - split; [| split; reflexivity].
    exists "v1.0.0". split; [reflexivity | split; [reflexivity | now left]].
Qed.

(** Decimal digits read by [parseInt] give a number, never [NaN]. *)
Lemma parseDigits_number s acc :
  exists n, parseDigits 10 s (Num acc) = Num n.
Proof.
  revert acc. induction s as [| c s IH]; intros acc; simpl; [now exists acc |].
  destruct (digitValue 10 c); [apply IH | now exists acc].
Qed.

Lemma parseInt_digits_number d :
  nonEmpty d = true -> allChars isDigit d = true ->
  exists n, parseInt d = Num n /\ 0 <= n.
Proof.
  intros Hn Hd. rewrite parseInt_digits by assumption.
  destruct d as [| c d]; [discriminate |]. simpl in Hd.
  apply andb_true_iff in Hd as [Hc Hd]. simpl.
  rewrite digitValue_decimal by assumption.
  destruct (parseDigits_number d (10 * 0 + (Z.of_N (code c) - 48))) as [n Hn'].
  rewrite Hn'. exists (toDouble n). split; [reflexivity |].
  apply toDouble_nonneg.
  pose proof (parseDigits_nonneg 10 d (Num (10 * 0 + (Z.of_N (code c) - 48)))) as Hp.
  rewrite Hn' in Hp. apply Hp; [lia |]. cbn [orZero].
  apply inRange_spec in Hc. lia.
Qed.

(** The part of C4 that the code honours: with an existing prerelease of
    the configured suffix, the result is the text before the first hyphen,
    the same suffix, and the existing number plus one (as JavaScript adds:
    the exact successor up to 2^53 - 1); the number given by the caller
    plays no part. *)
Lemma incrementPrerelease_same_suffix (base digits : string) (inputs : PrereleaseInputs) :
  find "-" base = None ->
  nonEmpty (prereleaseSuffix inputs) = true ->
  allChars isWordChar (prereleaseSuffix inputs) = true ->
  nonEmpty digits = true ->
  allChars isDigit digits = true ->
  exists n,
    parseInt digits = Num n
    /\ incrementPrerelease (base ++ "-" ++ prereleaseSuffix inputs ++ "." ++ digits) inputs
       = base ++ "-" ++ prereleaseSuffix inputs ++ "."
         ++ numToString (toDouble (n + 1)).
Proof.
  intros Hbase Hw Hword Hd Hdig.
  destruct (parseInt_digits_number digits Hd Hdig) as (n & Hn & _).
  exists n. split; [assumption |].
  set (seg := prereleaseSuffix inputs ++ "." ++ digits) in *.
  assert (find "-" seg = None) as Hseg.
  { unfold seg. apply find_app_absent.
    - now apply (find_absent isWordChar).
    - change ("." ++ digits) with (String "." digits). simpl.
      now rewrite (find_absent isDigit "-" digits). }
  assert (parseExistingPrerelease (base ++ "-" ++ seg)
          = Some (mkExisting (prereleaseSuffix inputs) (parseInt digits))) as E.
  { apply parseExistingPrerelease_spec. exists seg, digits.
    split; [| split; [now repeat split | reflexivity]].
    exists base. split; [assumption | split; [assumption | now left]]. }
  unfold incrementPrerelease. rewrite E. cbn [suffix number].
  rewrite String.eqb_refl, Hn. cbn [succNumber NumberToString].
  change (base ++ "-" ++ seg) with (base ++ String "-" seg).
  rewrite split_app by assumption. reflexivity.
Qed.

(** The part of C4 that the code honours: a text without hyphen gets the
    given suffix and number appended. *)
Lemma incrementPrerelease_no_prerelease (version : string) (inputs : PrereleaseInputs) :
  find "-" version = None ->
  incrementPrerelease version inputs
  = version ++ "-" ++ prereleaseSuffix inputs ++ "." ++ prereleaseNumber inputs.
Proof.
  intros H. apply incrementPrerelease_fresh. unfold parseExistingPrerelease.
  now rewrite split_absent.
Qed.

Example incrementPrerelease_same_suffix_example :
  incrementPrerelease "v1.3.0-beta.1" (mkPrereleaseInputs "beta" "1") = "v1.3.0-beta.2".
Proof. reflexivity. Qed.

Example incrementPrerelease_no_prerelease_example :
  incrementPrerelease "v1.3.0" (mkPrereleaseInputs "rc" "1") = "v1.3.0-rc.1".
Proof. reflexivity. Qed.

(** C4, where the code departs from it.  With an existing prerelease of
    another suffix the new suffix is appended to the whole text, old
    prerelease included, and not to the triple: the result is not
    [v1.3.0-rc.1], and [validateVersion] rejects it. *)
Theorem incrementPrerelease_other_suffix :
  parseExistingPrerelease "v1.3.0-beta.1" = Some (mkExisting "beta" (Num 1))
  /\ incrementPrerelease "v1.3.0-beta.1" (mkPrereleaseInputs "rc" "1")
     = "v1.3.0-beta.1-rc.1"
  /\ validateVersion "v1.3.0-beta.1-rc.1"
     = Throw (mkError "Invalid version format: v1.3.0-beta.1-rc.1" None)
  /\ validateVersion "v1.3.0-rc.1" = Ok tt.
Proof. repeat split. Qed.

(** ** Reasoning about effectful code *)

Section Effects.

Context {W : Type}.

Lemma post_ret {A} (a : A) (w : W) Q : Q (Ok a) w [] -> post (ret a) w Q.
Proof. exact id. Qed.

Lemma post_throw {A} (e : Error) (w : W) (Q : result A -> W -> list Event -> Prop) :
  Q (Throw e) w [] -> post (throw e) w Q.
Proof. exact id. Qed.

Lemma post_emit (e : Event) (w : W) Q : Q (Ok tt) w [e] -> post (emit e) w Q.
Proof. exact id. Qed.

Lemma post_liftResult {A} (r : result A) (w : W) Q :
  Q r w [] -> post (liftResult r) w Q.
Proof. exact id. Qed.

Lemma post_opaque {A} (f : W -> result A * W) (w : W) Q :
  (forall r w', Q r w' []) -> post (opaque f) w Q.
Proof. intros H. unfold post, opaque. destruct (f w). apply H. Qed.

Lemma post_external {A} (ev : bool -> Event) (f : W -> result A * W) (w : W) Q :
  (forall r w', Q r w' [ev (isOk r)]) -> post (external ev f) w Q.
Proof. intros H. unfold post, external. destruct (f w). apply H. Qed.

Lemma post_bind {A B} (m : M W A) (k : A -> M W B) (w : W) Q :
  post m w (fun r w' ev =>
    match r with
    | Ok a => post (k a) w' (fun r' w'' ev' => Q r' w'' (ev ++ ev')%list)
    | Throw e => Q (Throw e) w' ev
    end) ->
  post (bind m k) w Q.
Proof. unfold post, bind. destruct (res (m w)); exact id. Qed.

Lemma post_tryCatch {A} (m : M W A) (handler : Error -> M W A) (w : W) Q :
  post m w (fun r w' ev =>
    match r with
    | Ok a => Q (Ok a) w' ev
    | Throw e => post (handler e) w' (fun r' w'' ev' => Q r' w'' (ev ++ ev')%list)
    end) ->
  post (tryCatch m handler) w Q.
Proof.
  unfold post, tryCatch. destruct (res (m w)) eqn:E; [| exact id].
  now rewrite E.
Qed.

Lemma post_conseq {A} (m : M W A) (w : W) (S Q : result A -> W -> list Event -> Prop) :
  post m w S -> (forall r w' ev, S r w' ev -> Q r w' ev) -> post m w Q.
Proof. unfold post. auto. Qed.

(** Rules for [emits]. *)

Lemma emits_ret {A} P (a : A) : emits P (@ret W A a).
Proof. intros w. constructor. Qed.

Lemma emits_throw {A} P e : emits P (@throw W A e).
Proof. intros w. constructor. Qed.

Lemma emits_liftResult {A} P (r : result A) : emits P (@liftResult W A r).
Proof. intros w. constructor. Qed.

Lemma emits_emit (P : Event -> Prop) e : P e -> emits P (@emit W e).
Proof. intros H w. now repeat constructor. Qed.

Lemma emits_opaque {A} P (f : W -> result A * W) : emits P (opaque f).
Proof. intros w. unfold opaque. destruct (f w). constructor. Qed.

Lemma emits_external {A} (P : Event -> Prop) ev (f : W -> result A * W) :
  (forall b, P (ev b)) -> emits P (external ev f).
Proof. intros H w. unfold external. destruct (f w). now repeat constructor. Qed.

Lemma emits_bind {A B} P (m : M W A) (k : A -> M W B) :
  emits P m -> (forall a, emits P (k a)) -> emits P (bind m k).
Proof.
  intros Hm Hk w. unfold bind. specialize (Hm w).
  destruct (res (m w)); cbn [emitted]; [| assumption].
  apply Forall_app. split; [assumption | apply Hk].
Qed.

Lemma emits_tryCatch {A} P (m : M W A) handler :
  emits P m -> (forall e, emits P (handler e)) -> emits P (tryCatch m handler).
Proof.
  intros Hm Hh w. unfold tryCatch. specialize (Hm w).
  destruct (res (m w)); cbn [emitted]; [assumption |].
  apply Forall_app. split; [assumption | apply Hh].
Qed.

Lemma emits_forEach {A} P (l : list A) (body : A -> M W unit) :
  (forall a, emits P (body a)) -> emits P (forEach l body).
Proof.
  intros H. induction l as [| a l IH]; simpl.
  - apply emits_ret.
  - apply emits_bind; [apply H | intros _; exact IH].
Qed.

(** Rules for [safe]. *)

Lemma safe_emits {A} P (m : M W A) : safe P m -> emits P m.
Proof. intros H w. apply H. Qed.

Lemma safe_ret {A} P (a : A) : safe P (@ret W A a).
Proof. intros w. split; [now exists a | constructor]. Qed.

Lemma safe_emit (P : Event -> Prop) e : P e -> safe P (@emit W e).
Proof. intros H w. split; [now exists tt | now repeat constructor]. Qed.

Lemma safe_bind {A B} P (m : M W A) (k : A -> M W B) :
  safe P m -> (forall a, safe P (k a)) -> safe P (bind m k).
Proof.
  intros Hm Hk w. unfold bind. destruct (Hm w) as [[a Ha] Hev].
  rewrite Ha. cbn [res emitted]. destruct (Hk a (final (m w))) as [Hr Hev'].
  split; [assumption | apply Forall_app; now split].
Qed.

Lemma safe_tryCatch {A} P (m : M W A) handler :
  emits P m -> (forall e, safe P (handler e)) -> safe P (tryCatch m handler).
Proof.
  intros Hm Hh w. unfold tryCatch. specialize (Hm w).
  destruct (res (m w)) as [a | e] eqn:E.
  - split; [exists a; assumption | assumption].
  - cbn [res emitted]. destruct (Hh e (final (m w))) as [Hr Hev].
    split; [assumption | apply Forall_app; now split].
Qed.

Lemma safe_forEach {A} P (l : list A) (body : A -> M W unit) :
  (forall a, safe P (body a)) -> safe P (forEach l body).
Proof.
  intros H. induction l as [| a l IH]; simpl.
  - apply safe_ret.
  - apply safe_bind; [apply H | intros _; exact IH].
Qed.

(** After a computation that is [safe], the rest runs. *)
Lemma post_bind_safe {A B} P (m : M W A) (k : A -> M W B) (w : W) Q :
  safe P m ->
  (forall a w' ev, Forall P ev ->
     post (k a) w' (fun r' w'' ev' => Q r' w'' (ev ++ ev')%list)) ->
  post (bind m k) w Q.
Proof.
  intros Hm Hk. apply post_bind. unfold post at 1.
  destruct (Hm w) as [[a ->] Hev]. now apply Hk.
Qed.

Lemma post_safe {A} P (m : M W A) (w : W) :
  safe P m -> post m w (fun r _ ev => (exists a, r = Ok a) /\ Forall P ev).
Proof. intros H. apply H. Qed.

(** After a computation of which [S] is known. *)
Lemma post_bind_post {A B} (m : M W A) (k : A -> M W B) (w : W)
    (S : result A -> W -> list Event -> Prop) Q :
  post m w S ->
  (forall r w' ev, S r w' ev ->
     match r with
     | Ok a => post (k a) w' (fun r' w'' ev' => Q r' w'' (ev ++ ev')%list)
     | Throw e => Q (Throw e) w' ev
     end) ->
  post (bind m k) w Q.
Proof. intros Hm Hk. apply post_bind. unfold post at 1. now apply Hk. Qed.

End Effects.

Ltac effects_unfold :=
  unfold info, warning, logError, setOutput, setFailed, git, api_createRelease,
    api_getReleaseByTag, api_deleteRelease, api_getReleaseAsset,
    api_uploadReleaseAsset in *.

(** Syntax-directed proof that a computation emits only events of one kind;
    what is left are the events themselves. *)
Ltac emits_step :=
  first
    [ apply emits_bind; [| intro]
    | apply emits_tryCatch; [| intro]
    | apply emits_forEach; intro
    | apply emits_ret
    | apply emits_throw
    | apply emits_liftResult
    | apply emits_opaque
    | apply emits_external; intro
    | apply emits_emit
    | match goal with
      | |- emits _ (if ?b then _ else _) => destruct b
      | |- emits _ (match ?x with _ => _ end) => destruct x
      end ].

Ltac safe_step :=
  first
    [ apply safe_bind; [| intro]
    | apply safe_tryCatch; [| intro]
    | apply safe_forEach; intro
    | apply safe_ret
    | apply safe_emit
    | match goal with
      | |- safe _ (if ?b then _ else _) => destruct b
      | |- safe _ (match ?x with _ => _ end) => destruct x
      end ].

(** ** release.js and createAndPushTag: what they emit *)

Section ReleaseEvents.

Context {W : Type}.
Variable execSync : GitCmd -> W -> result unit * W.
Variable octokit : Octokit W.
Variable repo : RepoRef.

Lemma createAndPushTag_emits (newVersion : string) :
  isMajorTagName newVersion = false ->
  emits (fun e => touchesMajor e = false /\ notOutput e)
    (createAndPushTag execSync newVersion).
Proof.
  intros H. unfold createAndPushTag. effects_unfold.
  repeat emits_step; cbn [touchesMajor notOutput]; auto.
Qed.

Lemma createRelease_emits (options : ReleaseOptions) :
  isMajorTagName (ro_tagName options) = false ->
  emits (fun e => touchesMajor e = false /\ notOutput e)
    (createRelease octokit repo options).
Proof.
  intros H. unfold createRelease. effects_unfold.
  repeat emits_step; cbn [touchesMajor notOutput rp_tag_name]; auto.
Qed.

Lemma updateMajorVersionTag_emits (majorVersion fullVersion : string) :
  emits notOutput (updateMajorVersionTag execSync majorVersion fullVersion).
Proof.
  unfold updateMajorVersionTag. effects_unfold.
  repeat emits_step; exact I.
Qed.

Lemma deleteMajorReleaseIfExists_safe (majorVersion : string) :
  safe notOutput (deleteMajorReleaseIfExists octokit repo majorVersion).
Proof.
  unfold deleteMajorReleaseIfExists. effects_unfold.
  apply safe_tryCatch.
  - repeat emits_step; exact I.
  - intros e. repeat safe_step; exact I.
Qed.

Lemma copyOneAsset_safe (target : Release) (asset : Asset) :
  safe notOutput (copyOneAsset octokit repo target asset).
Proof.
  unfold copyOneAsset. effects_unfold.
  apply safe_tryCatch.
  - repeat emits_step; exact I.
  - intros e. repeat safe_step; exact I.
Qed.

Lemma copyReleaseAssets_safe (source target : Release) :
  safe notOutput (copyReleaseAssets octokit repo source target).
Proof.
  unfold copyReleaseAssets. effects_unfold.
  apply safe_tryCatch.
  - destruct (assets source) as [[| a l] |].
    + repeat emits_step; exact I.
    + apply emits_bind; [apply emits_emit; exact I | intros _].
      apply emits_forEach. intros b. apply safe_emits, copyOneAsset_safe.
    + repeat emits_step; exact I.
  - intros e. repeat safe_step; exact I.
Qed.

Lemma createMajorRelease_safe (options : MajorReleaseOptions) :
  safe notOutput (createMajorRelease execSync octokit repo options).
Proof.
  unfold createMajorRelease. effects_unfold.
  apply safe_tryCatch.
  - apply emits_bind; [apply emits_emit; exact I | intros _].
    apply emits_bind; [apply updateMajorVersionTag_emits | intros _].
    apply emits_bind; [apply safe_emits, deleteMajorReleaseIfExists_safe | intros _].
    apply emits_bind; [apply emits_liftResult | intros notes].
    apply emits_bind; [apply emits_external; intro; exact I | intros majorRelease].
    apply emits_bind; [| intros _; apply emits_ret].
    destruct (mo_copyAssets options), (mo_originalRelease options);
      try apply emits_ret.
    apply safe_emits, copyReleaseAssets_safe.
  - intros e. repeat safe_step; exact I.
Qed.

End ReleaseEvents.

(** Symbolic execution of a computation, one construct at a time; it stops
    at the calls of other functions and at the ends of the paths. *)
Ltac wp_step :=
  cbv beta iota;
  lazymatch goal with
  | |- post (bind _ _) _ _ => apply post_bind
  | |- post (tryCatch _ _) _ _ => apply post_tryCatch
  | |- post (ret _) _ _ => apply post_ret
  | |- post (throw _) _ _ => apply post_throw
  | |- post (emit _) _ _ => apply post_emit
  | |- post (liftResult ?r) _ _ => apply post_liftResult; destruct r eqn:?
  | |- post (opaque _) _ _ => apply post_opaque; intros [? | ?] ?
  | |- post (external _ _) _ _ => apply post_external; intros [? | ?] ?
  | |- post (if ?b then _ else _) _ _ => destruct b eqn:?
  | |- post (match ?x with _ => _ end) _ _ => destruct x eqn:?
  end.

Ltac wp := repeat wp_step; cbv beta iota.

(** Membership and [Forall] on the lists of events met at the end of a
    path. *)
Ltac events :=
  repeat first
    [ apply Forall_app; split
    | apply List.Forall_cons
    | apply List.Forall_nil
    | assumption ].

Ltac gives_null :=
  right; split; [reflexivity |]; eexists;
  rewrite ?app_nil_r, ?app_assoc; apply last_snoc.

Section MajorRelease.

Context {W : Type}.
Variable execSync : GitCmd -> W -> result unit * W.
Variable octokit : Octokit W.
Variable repo : RepoRef.

Lemma deleteMajorReleaseIfExists_calm (majorVersion : string) :
  safe (fun e => criticalFailure e = false)
    (deleteMajorReleaseIfExists octokit repo majorVersion).
Proof.
  unfold deleteMajorReleaseIfExists. effects_unfold.
  apply safe_tryCatch.
  - repeat emits_step; reflexivity.
  - intros e. repeat safe_step; reflexivity.
Qed.

Lemma copyReleaseAssets_calm (source target : Release) :
  safe (fun e => criticalFailure e = false)
    (copyReleaseAssets octokit repo source target).
Proof.
  unfold copyReleaseAssets, copyOneAsset. effects_unfold.
  apply safe_tryCatch.
  - destruct (assets source) as [[| a l] |].
    + repeat emits_step; reflexivity.
    + apply emits_bind; [apply emits_emit; reflexivity | intros _].
      apply emits_forEach. intros b. apply safe_emits. apply safe_tryCatch.
      * repeat emits_step; reflexivity.
      * intros e. repeat safe_step; reflexivity.
    + repeat emits_step; reflexivity.
  - intros e. repeat safe_step; reflexivity.
Qed.

(** Looking for the stale release and deleting it never throws: either
    no call failed, or the last event is the line that says the release
    does not exist (status 404), or it is a warning with the error. *)
Lemma deleteMajorReleaseIfExists_outcome (majorVersion : string) (w : W) :
  post (deleteMajorReleaseIfExists octokit repo majorVersion) w
    (fun r _ ev =>
       r = Ok tt
       /\ (Forall (fun e => match e with Api _ false => False | _ => True end) ev
           \/ last ev
              = Some (Info ("Major release " ++ majorVersion
                            ++ " doesn't exist, creating new one"))
           \/ exists msg,
                last ev
                = Some (Warning ("Error checking for existing major release: " ++ msg)))).
Proof.
  unfold deleteMajorReleaseIfExists. effects_unfold.
  wp; (split; [repeat match goal with u : unit |- _ => destruct u end; reflexivity |]);
    first
      [ left; events; exact I
      | right; left; rewrite ?app_nil_r, ?app_assoc; apply last_snoc
      | right; right; eexists; rewrite ?app_nil_r, ?app_assoc; apply last_snoc ].
Qed.

(** When the major tag has been moved, no critical command failed. *)
Lemma updateMajorVersionTag_outcome (majorVersion fullVersion : string) (w : W) :
  post (updateMajorVersionTag execSync majorVersion fullVersion) w
    (fun r _ ev =>
       match r with
       | Ok _ => Forall (fun e => criticalFailure e = false) ev
       | Throw _ => True
       end).
Proof.
  unfold updateMajorVersionTag. effects_unfold.
  wp; try exact I; events; reflexivity.
Qed.

(** The outcome of [createMajorRelease]: either the release, and then no
    critical call failed; or [null], and then the last event is the
    warning that carries the message of the error. *)
Lemma createMajorRelease_outcome (options : MajorReleaseOptions) (w : W) :
  post (createMajorRelease execSync octokit repo options) w
    (fun r _ ev =>
       (exists release,
          r = Ok (Some release) /\ Forall (fun e => criticalFailure e = false) ev)
       \/ (r = Ok None
           /\ exists msg,
                last ev
                = Some (Warning ("Failed to create major version release: " ++ msg)))).
Proof.
  unfold createMajorRelease. effects_unfold.
  apply post_tryCatch. wp_step. wp_step. cbv beta iota.
  eapply post_bind_post; [apply updateMajorVersionTag_outcome |].
  intros [[] | e] w1 ev1 H1; [| wp; gives_null].
  eapply post_bind_safe; [apply deleteMajorReleaseIfExists_calm |].
  intros [] w2 ev2 H2.
  wp_step. wp_step; [| wp; gives_null].
  wp_step. wp_step; [| wp; gives_null].
  cbv beta iota. apply post_bind.
  destruct (mo_copyAssets options), (mo_originalRelease options) as [original |].
  - eapply post_conseq; [apply post_safe, copyReleaseAssets_calm |].
    intros r w3 ev3 [[[] ->] H3]. wp.
    left. eexists. split; [reflexivity |]. events; reflexivity.
  - wp. left. eexists. split; [reflexivity |]. events; reflexivity.
  - wp. left. eexists. split; [reflexivity |]. events; reflexivity.
  - wp. left. eexists. split; [reflexivity |]. events; reflexivity.
Qed.

End MajorRelease.

(** ** createAndPushTag on the tag store *)

Lemma post_external_run {W A} (ev : bool -> Event) (f : W -> result A * W) (w : W) Q :
  Q (fst (f w)) (snd (f w)) [ev (isOk (fst (f w)))] -> post (external ev f) w Q.
Proof. unfold post, external. now destruct (f w). Qed.

Lemma post_opaque_run {W A} (f : W -> result A * W) (w : W) Q :
  Q (fst (f w)) (snd (f w)) [] -> post (opaque f) w Q.
Proof. unfold post, opaque. now destruct (f w). Qed.

(** One step of [createAndPushTag] on the tag store: the git command is
    run on the store, the other constructs are followed. *)
Ltac store_step :=
  cbv beta iota;
  lazymatch goal with
  | |- post (bind _ _) _ _ => apply post_bind
  | |- post (tryCatch _ _) _ _ => apply post_tryCatch
  | |- post (ret _) _ _ => apply post_ret
  | |- post (emit _) _ _ => apply post_emit
  | |- post (external _ (gitExec _)) _ _ =>
      apply post_external_run;
      repeat progress
        (cbn [gitExec fst snd isOk HEAD localTags remoteTags remoteBranch];
         rewrite ?lookup_delete_eq, ?lookup_insert_eq, ?String.eqb_refl;
         repeat match goal with
           | H : @lookup _ _ _ _ _ _ = _ |- _ => rewrite H
           end)
  end.

(** What [createAndPushTag] does to the tag store, whatever the store held
    before: it succeeds, and the tag points at [HEAD] locally and on the
    remote; the only commands that may fail are the two deletions, and they
    fail exactly when there is nothing to delete. *)
Lemma createAndPushTag_store (g : GitStore) (newVersion : string) :
  post (createAndPushTag gitExec newVersion) g
    (fun r g' ev =>
       r = Ok tt
       /\ g' = mkGitStore (HEAD g) (<[newVersion := HEAD g]> (localTags g))
                 (<[newVersion := HEAD g]> (remoteTags g)) (HEAD g)
       /\ (forall c, In (Exec c false) ev ->
             c = GitTagDelete newVersion \/ c = GitPushDelete newVersion)
       /\ (In (Exec (GitTagDelete newVersion) true) ev
           <-> localTags g !! newVersion <> None)
       /\ (In (Exec (GitPushDelete newVersion) true) ev
           <-> remoteTags g !! newVersion <> None)).
Proof.
  destruct g as [h lt rt rb]. cbn [HEAD localTags remoteTags].
  unfold createAndPushTag. effects_unfold.
  destruct (lt !! newVersion) as [c1 |] eqn:E1;
    destruct (rt !! newVersion) as [c2 |] eqn:E2;
    repeat store_step;
    rewrite ?insert_delete_eq;
    (split; [reflexivity | split; [reflexivity | split; [| split]]]);
    cbn [app In].
  all: try (intros c Hin; decompose [or] Hin; clear Hin;
            first [discriminate | contradiction
                  | match goal with H : Exec _ _ = Exec _ _ |- _ =>
                      injection H as <-; auto
                    end]).
  all: split; intros H; try discriminate; try congruence; auto;
    decompose [or] H; clear H; first [discriminate | contradiction].
Qed.

(** C2.  Running the tag step twice for the same version against the same
    commit.  The first run succeeds whatever the store held: it deletes the
    local and the remote tag of that name when there is one, and no command
    fails but the deletion of a tag that is not there.  The second run
    succeeds too, none of its commands fails, it deletes the local and the
    remote tag left by the first before creating and pushing the tag again,
    and it ends in the state the first run ended in, where the tag of that
    name points at that commit locally and on the remote. *)
Theorem createAndPushTag_retry (g : GitStore) (newVersion : string) :
  let first := createAndPushTag gitExec newVersion g in
  let second := createAndPushTag gitExec newVersion (final first) in
  res first = Ok tt
  /\ (forall c, In (Exec c false) (emitted first) ->
        c = GitTagDelete newVersion \/ c = GitPushDelete newVersion)
  /\ (In (Exec (GitTagDelete newVersion) true) (emitted first)
      <-> localTags g !! newVersion <> None)
  /\ (In (Exec (GitPushDelete newVersion) true) (emitted first)
      <-> remoteTags g !! newVersion <> None)
  /\ res second = Ok tt
  /\ (forall c, ~ In (Exec c false) (emitted second))
  /\ emitted second
     = [Info ("Creating and pushing tag: " ++ newVersion);
        Exec (GitTagDelete newVersion) true;
        Info ("Deleted existing local tag: " ++ newVersion);
        Exec (GitPushDelete newVersion) true;
        Info ("Deleted existing remote tag: " ++ newVersion);
        Exec (GitTagAnnotate newVersion ("Release " ++ newVersion)) true;
        Exec GitPushHead true;
        Exec (GitPushTag newVersion) true]
  /\ final second = final first
  /\ HEAD (final second) = HEAD g
  /\ localTags (final second) !! newVersion = Some (HEAD g)
  /\ remoteTags (final second) !! newVersion = Some (HEAD g).
Proof.
  cbv zeta.
  pose proof (createAndPushTag_store g newVersion) as H1. unfold post in H1.
  set (first := createAndPushTag gitExec newVersion g) in *. clearbody first.
  destruct H1 as (R1 & F1 & Hfail & Hlocal & Hremote). rewrite F1.
  set (g1 := mkGitStore (HEAD g) (<[newVersion:=HEAD g]> (localTags g))
               (<[newVersion:=HEAD g]> (remoteTags g)) (HEAD g)).
  assert (post (createAndPushTag gitExec newVersion) g1
            (fun _ _ ev =>
               ev = [Info ("Creating and pushing tag: " ++ newVersion);
                     Exec (GitTagDelete newVersion) true;
                     Info ("Deleted existing local tag: " ++ newVersion);
                     Exec (GitPushDelete newVersion) true;
                     Info ("Deleted existing remote tag: " ++ newVersion);
                     Exec (GitTagAnnotate newVersion ("Release " ++ newVersion)) true;
                     Exec GitPushHead true;
                     Exec (GitPushTag newVersion) true])) as Ev.
  { unfold g1, createAndPushTag. effects_unfold. repeat store_step. reflexivity. }
  pose proof (createAndPushTag_store g1 newVersion) as H2. unfold post in Ev, H2.
  set (second := createAndPushTag gitExec newVersion g1) in *. clearbody second.
  destruct H2 as (R2 & F2 & _).
  assert (final second = g1) as Fs.
  { rewrite F2. unfold g1. cbn [HEAD localTags remoteTags].
    now rewrite !insert_insert_eq. }
  split; [exact R1 |]. split; [exact Hfail |].
  split; [exact Hlocal |]. split; [exact Hremote |]. split; [exact R2 |].
  split; [intros c; rewrite Ev; cbn [In]; intuition discriminate |].
  split; [exact Ev |]. split; [exact Fs |].
  rewrite Fs. unfold g1. cbn [HEAD localTags remoteTags].
  now rewrite !lookup_insert_eq.
Qed.

(** Without the two deletions the second run would stop on git's
    duplicate-tag error. *)
Example duplicate_tag_error (g : GitStore) (newVersion msg : string) :
  fst (gitExec (GitTagAnnotate newVersion msg)
         (final (createAndPushTag gitExec newVersion g)))
  = Throw (gitError ("fatal: tag '" ++ newVersion ++ "' already exists")).
Proof.
  pose proof (createAndPushTag_store g newVersion) as (_ & F & _).
  unfold post in F. rewrite F.
  cbn [gitExec localTags]. now rewrite lookup_insert_eq.
Qed.

(** ** copyReleaseAssets: every asset is tried *)

Section CopyAssets.

Context {W : Type}.
Variable octokit : Octokit W.
Variable repo : RepoRef.

Lemma copyOneAsset_outcome (target : Release) (asset : Asset) (w : W) :
  post (copyOneAsset octokit repo target asset) w
    (fun r _ ev =>
       r = Ok tt /\ downloadsAttempted ev = [asset_id asset] /\ reported ev asset).
Proof.
  unfold copyOneAsset. effects_unfold. wp.
  - split; [reflexivity | split; [reflexivity |]]. left. cbn. auto.
  - split; [reflexivity | split; [reflexivity |]]. right. eexists. cbn. auto.
  - split; [reflexivity | split; [reflexivity |]]. right. eexists. cbn. auto.
Qed.

Lemma downloadsAttempted_app (a b : list Event) :
  downloadsAttempted (a ++ b) = (downloadsAttempted a ++ downloadsAttempted b)%list.
Proof. apply flat_map_app. Qed.

Lemma reported_app_l (a b : list Event) asset : reported a asset -> reported (a ++ b) asset.
Proof.
  intros [H | [msg H]]; [left | right; exists msg]; apply in_or_app; now left.
Qed.

Lemma reported_app_r (a b : list Event) asset : reported b asset -> reported (a ++ b) asset.
Proof.
  intros [H | [msg H]]; [left | right; exists msg]; apply in_or_app; now right.
Qed.

Lemma forEach_copy_outcome (target : Release) (l : list Asset) (w : W) :
  post (forEach l (copyOneAsset octokit repo target)) w
    (fun r _ ev =>
       r = Ok tt /\ downloadsAttempted ev = map asset_id l /\ Forall (reported ev) l).
Proof.
  revert w. induction l as [| a l IH]; intros w; cbn [forEach].
  - apply post_ret. now repeat split.
  - eapply post_bind_post; [apply copyOneAsset_outcome |].
    intros r w1 ev1 (-> & D1 & R1).
    eapply post_conseq; [apply IH |].
    intros r w2 ev2 (-> & D2 & R2). split; [reflexivity | split].
    + rewrite downloadsAttempted_app, D1, D2. reflexivity.
    + constructor; [now apply reported_app_l |].
      eapply List.Forall_impl; [| exact R2]. intros b Hb. now apply reported_app_r.
Qed.

Lemma copyReleaseAssets_outcome (source target : Release) (w : W) :
  post (copyReleaseAssets octokit repo source target) w
    (fun r _ ev =>
       r = Ok tt
       /\ downloadsAttempted ev = map asset_id (default [] (assets source))
       /\ Forall (reported ev) (default [] (assets source))).
Proof.
  unfold copyReleaseAssets. apply post_tryCatch.
  destruct (assets source) as [[| a l] |]; cbn [default map].
  - effects_unfold. wp. now repeat split.
  - effects_unfold. wp_step. wp_step. cbv beta iota.
    eapply post_conseq; [apply (forEach_copy_outcome target (a :: l)) |].
    intros r w2 ev2 (-> & D2 & R2). split; [reflexivity | split].
    + exact D2.
    + eapply List.Forall_impl; [| exact R2]. intros b Hb.
      now apply (reported_app_r [_]).
  - effects_unfold. wp. now repeat split.
Qed.

End CopyAssets.

(** ** copyReleaseAssets: what is uploaded *)

Lemma uploads_app (a b : list Event) : uploads (a ++ b) = (uploads a ++ uploads b)%list.
Proof. apply flat_map_app. Qed.

Lemma downloaded_app (a b : list Event) :
  downloaded (a ++ b) = (downloaded a ++ downloaded b)%list.
Proof. apply flat_map_app. Qed.

Lemma uploads_In (events : list Event) (p : UploadParams) :
  In p (uploads events) <-> exists ok, In (Api (UploadReleaseAsset p) ok) events.
Proof.
  unfold uploads. rewrite in_flat_map. split.
  - intros (e & He & Hp). destruct e as [| | | | | | [] ok]; try now destruct Hp.
    destruct Hp as [<- | []]. now exists ok.
  - intros [ok H]. eexists. split; [exact H | now left].
Qed.

Section CopyUploads.

Context {W : Type}.
Variable octokit : Octokit W.
Variable repo : RepoRef.

(** The copy of one asset, step by step: the download is asked in the
    world as it is; when it answers, the upload of that data is asked in
    the world that the download left, and the line that the asset was copied
    follows when the upload succeeded. *)
Lemma copyOneAsset_run (target : Release) (asset : Asset) (w : W) :
  let download := rest_getReleaseAsset octokit repo (asset_id asset) w in
  post (copyOneAsset octokit repo target asset) w
    (fun r w' ev =>
       r = Ok tt
       /\ match fst download with
          | Ok assetData =>
              let p := uploadOf repo target asset assetData in
              let upload := rest_uploadReleaseAsset octokit p (snd download) in
              w' = snd upload
              /\ downloaded ev = [asset_id asset]
              /\ uploads ev = [p]
              /\ In (Api (UploadReleaseAsset p) (isOk (fst upload))) ev
              /\ (isOk (fst upload) = true ->
                  In (Info ("Copied asset: " ++ asset_name asset)) ev)
          | Throw _ => w' = snd download /\ downloaded ev = [] /\ uploads ev = []
          end).
Proof.
  cbv zeta. unfold copyOneAsset, uploadOf. effects_unfold.
  apply post_tryCatch, post_bind, post_external_run.
  destruct (rest_getReleaseAsset octokit repo (asset_id asset) w)
    as [[assetData | error] w1]; cbn [fst snd isOk].
  - apply post_bind, post_external_run.
    match goal with
    | |- context [rest_uploadReleaseAsset octokit ?p w1] =>
        destruct (rest_uploadReleaseAsset octokit p w1) as [[[] | error] w2]
    end; cbn [fst snd isOk].
    + apply post_emit. cbn. repeat split; auto.
    + apply post_emit. cbn. repeat split; auto. discriminate.
  - apply post_emit. cbn. repeat split; auto.
Qed.

Lemma forEach_copy_uploads (target : Release) (l : list Asset) (w : W) :
  post (forEach l (copyOneAsset octokit repo target)) w
    (fun r _ ev =>
       r = Ok tt
       /\ uploads ev = assetUploads octokit repo target l w
       /\ exists copied,
            sublist copied l
            /\ map asset_id copied = downloaded ev
            /\ Forall2 (copies octokit repo target) copied (uploads ev)).
Proof.
  revert w. induction l as [| a l IH]; intros w; cbn [forEach assetUploads].
  - apply post_ret. split; [reflexivity |]. split; [reflexivity |].
    exists []. now repeat constructor.
  - eapply post_bind_post; [apply copyOneAsset_run |].
    cbv zeta. intros r w1 ev1 (-> & H1).
    destruct (fst (rest_getReleaseAsset octokit repo (asset_id a) w))
      as [assetData | error] eqn:Edown.
    + destruct H1 as (-> & Hd1 & Hu1 & _).
      eapply post_conseq; [apply IH |].
      intros r w2 ev2 (-> & Hexact & copied & Hsub & Hd & Hu). split; [reflexivity |].
      rewrite downloaded_app, uploads_app, Hd1, Hu1, Hexact.
      split; [reflexivity |].
      exists (a :: copied). split; [now apply sublist_skip |].
      split; [cbn; now f_equal |].
      rewrite <- Hexact. constructor; [| exact Hu].
      now exists w, assetData.
    + destruct H1 as (-> & Hd1 & Hu1).
      eapply post_conseq; [apply IH |].
      intros r w2 ev2 (-> & Hexact & copied & Hsub & Hd & Hu). split; [reflexivity |].
      rewrite downloaded_app, uploads_app, Hd1, Hu1, Hexact.
      split; [reflexivity |].
      exists copied. split; [now apply sublist_cons |].
      split; [exact Hd |]. now rewrite <- Hexact.
Qed.

(** An asset whose download and upload succeed is copied, whatever
    happened to the assets before it. *)
Lemma forEach_copy_each (target : Release) (l : list Asset) (asset : Asset)
    (assetData : string) (w : W) :
  In asset l ->
  (forall w', fst (rest_getReleaseAsset octokit repo (asset_id asset) w') = Ok assetData) ->
  let p := uploadOf repo target asset assetData in
  let ev := emitted (forEach l (copyOneAsset octokit repo target) w) in
  In p (uploads ev)
  /\ ((forall w', fst (rest_uploadReleaseAsset octokit p w') = Ok tt) ->
      In (Api (UploadReleaseAsset p) true) ev
      /\ In (Info ("Copied asset: " ++ asset_name asset)) ev).
Proof.
  intros Hin Hdown p ev. subst ev.
  enough (post (forEach l (copyOneAsset octokit repo target)) w
            (fun _ _ ev =>
               In p (uploads ev)
               /\ ((forall w', fst (rest_uploadReleaseAsset octokit p w') = Ok tt) ->
                   In (Api (UploadReleaseAsset p) true) ev
                   /\ In (Info ("Copied asset: " ++ asset_name asset)) ev))) as H by exact H.
  revert w. induction l as [| a l IH]; intros w; [destruct Hin |]. cbn [forEach].
  eapply post_bind_post; [apply copyOneAsset_run |].
  cbv zeta. intros r w1 ev1 (-> & H1).
  destruct Hin as [-> | Hin].
  - rewrite Hdown in H1. fold p in H1. destruct H1 as (_ & _ & Hu1 & Hev & Hcopied).
    eapply post_conseq; [apply forEach_copy_uploads |].
    intros r w2 ev2 _. rewrite uploads_app, Hu1. split; [now left |].
    intros Hup. rewrite Hup in Hev, Hcopied. cbn [isOk] in Hev, Hcopied.
    split; apply in_or_app; left; auto.
  - eapply post_conseq; [apply (IH Hin) |].
    intros r w2 ev2 [Hu Hc]. rewrite uploads_app. split.
    + apply in_or_app. now right.
    + intros Hup. destruct (Hc Hup). split; apply in_or_app; now right.
Qed.

Lemma copyReleaseAssets_run (source target : Release) (w : W) :
  let ev := emitted (copyReleaseAssets octokit repo source target w) in
  let sourceAssets := default [] (assets source) in
  uploads ev = assetUploads octokit repo target sourceAssets w
  /\ (exists copied,
        sublist copied sourceAssets
        /\ map asset_id copied = downloaded ev
        /\ Forall2 (copies octokit repo target) copied (uploads ev))
  /\ (forall asset assetData,
        In asset sourceAssets ->
        (forall w', fst (rest_getReleaseAsset octokit repo (asset_id asset) w')
                    = Ok assetData) ->
        let p := uploadOf repo target asset assetData in
        In p (uploads ev)
        /\ ((forall w', fst (rest_uploadReleaseAsset octokit p w') = Ok tt) ->
            In (Api (UploadReleaseAsset p) true) ev
            /\ In (Info ("Copied asset: " ++ asset_name asset)) ev)).
Proof.
  cbv zeta. unfold copyReleaseAssets, tryCatch.
  destruct (assets source) as [[| a l] |]; cbn [default].
  - cbn. split; [reflexivity |]. split; [| intros ? ? []].
    exists []. now repeat constructor.
  - set (l' := a :: l). unfold bind, info, emit. cbn [res final emitted].
    pose proof (forEach_copy_uploads target l' w) as (Hres & Hexact & Hcopied).
    rewrite Hres. cbn [res emitted].
    change (uploads ([?e] ++ ?x)) with (uploads x).
    split; [exact Hexact |]. split; [exact Hcopied |].
    intros asset assetData Hin Hdown.
    destruct (forEach_copy_each target l' asset assetData w Hin Hdown) as [Hu Hc].
    split; [exact Hu |]. intros Hup. destruct (Hc Hup). split; now right.
  - cbn. split; [reflexivity |]. split; [| intros ? ? []].
    exists []. now repeat constructor.
Qed.

End CopyUploads.

(** ** run *)

Lemma allChars_dot (a b : string) : allChars isDigit (a ++ String "." b) = false.
Proof. rewrite allChars_app. simpl. apply andb_false_r. Qed.

Lemma formatVersion_not_major (M N P : Z) (pre : option string) :
  isMajorTagName (formatVersion M N P pre) = false.
Proof.
  rewrite formatVersion_eq. unfold isMajorTagName, tripleText.
  cbn [startsWith slice]. rewrite append_assoc.
  change ("." ++ ?x) with (String "." x).
  cbn [String.append]. rewrite allChars_dot. apply andb_false_r.
Qed.

(** A version computed by [calculateVersion] is never the name of a
    major-tracking tag. *)
Lemma calculateVersion_not_major latestVersion releaseType isPrerelease inputs newVersion :
  calculateVersion latestVersion releaseType isPrerelease inputs = Ok newVersion ->
  isMajorTagName newVersion = false.
Proof.
  unfold calculateVersion.
  destruct (String.eqb releaseType "major");
    [| destruct (String.eqb releaseType "minor");
       [| destruct (String.eqb releaseType "patch"); [| discriminate]]];
    intros [= <-]; apply formatVersion_not_major.
Qed.

Lemma quiet_beforePublication e : quiet e -> beforePublication e.
Proof. intros [H1 H2]. split; [assumption |]. intros ->. exact H2. Qed.

Lemma quiet_notFailed e : quiet e -> notFailed e.
Proof. intros [_ H]. now destruct e. Qed.

Lemma quiet_calm e : quiet e -> touchesMajor e = false.
Proof. now intros [H _]. Qed.

Lemma quiet_not_output e key value : quiet e -> e <> SetOutput key value.
Proof. intros [_ H] ->. exact H. Qed.

Lemma majorStepEvent_notFailed e : majorStepEvent e -> notFailed e.
Proof. now destruct e. Qed.

Lemma majorStepEvent_not_prerelease e value :
  majorStepEvent e -> e <> SetOutput "is-prerelease" value.
Proof. intros H ->. destruct H; discriminate. Qed.

Lemma notOutput_majorStepEvent e : notOutput e -> majorStepEvent e.
Proof. now destruct e. Qed.

Lemma post_emits {W A} P (m : M W A) (w : W) Q :
  emits P m -> (forall r w' ev, Forall P ev -> Q r w' ev) -> post m w Q.
Proof. intros Hm HQ. apply HQ, Hm. Qed.

Lemma post_emits_res {W A} P (m : M W A) (w : W) Q :
  emits P m ->
  (forall r w' ev, Forall P ev -> res (m w) = r -> Q r w' ev) ->
  post m w Q.
Proof. intros Hm HQ. apply HQ; [apply Hm | reflexivity]. Qed.

Lemma res_bind_liftResult {W A B} (r : result A) (k : A -> M W B) (w : W) :
  res (bind (liftResult r) k w)
  = match r with Ok a => res (k a w) | Throw e => Throw e end.
Proof. unfold bind, liftResult. now destruct r. Qed.

Lemma res_bind_emit {W B} (e : Event) (k : unit -> M W B) (w : W) :
  res (bind (emit e) k w) = res (k tt w).
Proof. reflexivity. Qed.

Section Run.

Context {W : Type}.
Variable execSync : GitCmd -> W -> result unit * W.
Variable getInput : string -> string.
Variable getBooleanInput : string -> result bool.
Variable context : Context.
Variable host : @Collaborators W.

Lemma parseLabels_emits (inputs : Inputs) (mode : string) :
  emits quiet (@parseLabels W getInput getBooleanInput context inputs mode).
Proof.
  unfold parseLabels. effects_unfold.
  repeat emits_step; split; [reflexivity | exact I].
Qed.

Lemma readInputs_emits : emits quiet (@readInputs W getInput getBooleanInput).
Proof. unfold readInputs. repeat emits_step. Qed.

(** The flag [baseRelease] of the inputs is the input [base_release]. *)
Lemma readInputs_base (w : W) (inputs : Inputs) :
  res (@readInputs W getInput getBooleanInput w) = Ok inputs ->
  getBooleanInput "base_release" = Ok (baseRelease inputs).
Proof.
  unfold readInputs.
  rewrite res_bind_liftResult.
  destruct (getRequiredInput getInput "github-token"); [| discriminate].
  rewrite res_bind_liftResult.
  destruct (getBooleanInput "create-major-release"); [| discriminate].
  rewrite res_bind_liftResult.
  destruct (getBooleanInput "base_release"); [| discriminate].
  rewrite res_bind_liftResult.
  destruct (getBooleanInput "copy-assets"); [| discriminate].
  rewrite res_bind_liftResult.
  destruct (getBooleanInput "auto-generate-notes"); [| discriminate].
  rewrite res_bind_liftResult.
  destruct (getBooleanInput "update-package-json"); [| discriminate].
  now intros [= <-].
Qed.

(** Reading the inputs and the labels gives the same result in every
    world. *)
Lemma readInputs_world {W' : Type} (w : W) (w' : W') :
  res (@readInputs W getInput getBooleanInput w)
  = res (@readInputs W' getInput getBooleanInput w').
Proof.
  unfold readInputs.
  repeat (rewrite !res_bind_liftResult;
          match goal with
          | |- match ?r with _ => _ end = _ => destruct r; [| reflexivity]
          end).
  reflexivity.
Qed.

Lemma parseLabels_world {W' : Type} (w : W) (w' : W') (inputs : Inputs) (mode : string) :
  res (@parseLabels W getInput getBooleanInput context inputs mode w)
  = res (@parseLabels W' getInput getBooleanInput context inputs mode w').
Proof.
  unfold parseLabels.
  repeat match goal with
    | |- res ((if ?b then _ else _) _) = _ => destruct b
    end;
    rewrite ?res_bind_liftResult, ?res_bind_emit; try reflexivity;
    match goal with
    | |- match ?r with _ => _ end = _ => destruct r; reflexivity
    end.
Qed.

(** The intent of a run, from what it read in the worlds it went through. *)
Lemma releaseIntent_intro (w0 w1 : W) (inputs : Inputs) (releaseType : string)
    (isPrerelease : bool) :
  res (@readInputs W getInput getBooleanInput w0) = Ok inputs ->
  res (@parseLabels W getInput getBooleanInput context inputs
         (detectTriggerMode (triggerMode inputs) context) w1)
  = Ok (releaseType, isPrerelease) ->
  releaseIntent getInput getBooleanInput context = Ok (releaseType, isPrerelease).
Proof.
  intros Hread Hlabels. unfold releaseIntent.
  rewrite (readInputs_world w0 tt) in Hread.
  unfold bind. rewrite Hread. cbn [res].
  now rewrite <- (parseLabels_world w1).
Qed.

(** The major release step never throws; it emits nothing unless the
    major release was asked for and the release is not a prerelease. *)
Lemma majorStep_outcome octokit inputs isPrerelease newVersion release (w : W) :
  post (majorStep execSync context octokit inputs isPrerelease newVersion release) w
    (fun r _ ev =>
       r = Ok tt
       /\ Forall majorStepEvent ev
       /\ (ev = [] \/ (baseRelease inputs = true /\ isPrerelease = false))).
Proof.
  unfold majorStep.
  destruct (baseRelease inputs) eqn:Hb; destruct isPrerelease eqn:Hp; cbn [andb negb];
    try (apply post_ret; split; [reflexivity | split; [constructor | now left]]).
  eapply post_bind_safe; [apply createMajorRelease_safe |].
  intros [major |] w1 ev1 H1; effects_unfold; wp;
    (split; [reflexivity | split; [| now right]]); events;
    try (eapply List.Forall_impl; [| exact H1]; exact notOutput_majorStepEvent);
    cbn; auto.
Qed.

End Run.

Section RunShape.

Context {W : Type}.
Variable execSync : GitCmd -> W -> result unit * W.
Variable getInput : string -> string.
Variable getBooleanInput : string -> result bool.
Variable context : Context.
Variable host : @Collaborators W.

(** One step of [run]: a construct, or one of the functions it calls. *)
Ltac run_step :=
  first
    [ wp_step
    | lazymatch goal with
      | |- post (readInputs _ _) _ _ =>
          eapply post_emits_res; [apply readInputs_emits | intros [? | ?] ? ? ? ?]
      | |- post (parseLabels _ _ _ _ _) _ _ =>
          eapply post_emits_res; [apply parseLabels_emits | intros [[? ?] | ?] ? ? ? ?]
      | |- post (createAndPushTag _ _) _ _ =>
          eapply post_emits;
          [ apply createAndPushTag_emits; eapply calculateVersion_not_major; eassumption
          | intros [? | ?] ? ? ? ]
      | |- post (createRelease _ _ _) _ _ =>
          eapply post_emits;
          [ apply createRelease_emits; eapply calculateVersion_not_major; eassumption
          | intros [? | ?] ? ? ? ]
      | |- post (majorStep _ _ _ _ _ _ _) _ _ =>
          eapply post_conseq;
          [ apply majorStep_outcome | intros ? ? ? (-> & ? & ?) ]
      end ].

Ltac forall_events lemma_quiet lemma_major concrete :=
  repeat first
    [ apply Forall_app; split
    | apply List.Forall_cons
    | apply List.Forall_nil
    | (eapply List.Forall_impl; [| eassumption]; first [exact lemma_quiet | exact lemma_major])
    | concrete ].

Ltac find_in :=
  first
    [ left; reflexivity
    | apply in_or_app; left; find_in
    | apply in_or_app; right; find_in
    | right; find_in ].

(** The end of a path on which the run stopped early. *)
Ltac stopped :=
  left;
  forall_events quiet_beforePublication quiet_beforePublication
    ltac:(split; [reflexivity | discriminate]).

(** The end of the path on which the release was published. *)
Ltac published :=
  right; split; [| split];
  [ forall_events quiet_notFailed majorStepEvent_notFailed ltac:(exact I)
  | find_in
  | match goal with
    | H : _ = [] \/ (baseRelease _ = true /\ _ = false) |- _ =>
        destruct H as [-> | [Hbase ->]];
        [ left;
          forall_events quiet_calm quiet_calm ltac:(reflexivity)
        | right;
          split;
          [ split;
            [ erewrite readInputs_base by eassumption; now rewrite Hbase
            | eexists; eapply releaseIntent_intro; eassumption ]
          | split ];
          [ find_in
          | forall_events (fun e => quiet_not_output e "is-prerelease" "true")
              (fun e => majorStepEvent_not_prerelease e "true")
              ltac:(discriminate) ] ]
    end ].

Lemma run_shape (w : W) :
  post (run execSync getInput getBooleanInput context host) w
    (fun r _ ev =>
       r = Ok tt
       /\ runShape
            (getBooleanInput "base_release" = Ok true
             /\ exists releaseType,
                  releaseIntent getInput getBooleanInput context
                  = Ok (releaseType, false))
            ev).
Proof.
  unfold run. effects_unfold.
  repeat run_step; cbv beta iota.
  all: (split; [reflexivity |]).
  all: first [solve [stopped] | solve [published]].
Qed.

End RunShape.

(** ** The major release step in a run *)

(** C7.  Whatever git and the releases API do:
    [createMajorRelease] never throws; it returns the release, and then the
    creation and the push of the major tag and the creation of the release
    did not fail, or it returns [null] after the warning that carries the
    error; the deletion of the stale release never throws, and a failure in
    it ends in a warning (or, for status 404, in a plain line);
    [copyReleaseAssets] never throws, tries every asset of the source
    release in order, and leaves for each of them either the line that it
    was copied or a warning; the uploads it attempts are those of the assets
    whose download succeeded, each with the data downloaded, whatever
    happened to the assets before; in particular an asset whose download
    succeeds in every world is uploaded, and when its upload succeeds too it
    is reported as copied, however many of the other assets failed; and a
    run that has published the release ([released] is [true]) is not marked
    as failed and logs its completion, whatever happened in the major
    release step. *)
Theorem major_release_failure_is_a_warning {W : Type}
    (execSync : GitCmd -> W -> result unit * W) :
  (forall (octokit : Octokit W) repo options (w : W),
     let o := createMajorRelease execSync octokit repo options w in
     Forall notOutput (emitted o)
     /\ ((exists release,
            res o = Ok (Some release)
            /\ Forall (fun e => criticalFailure e = false) (emitted o))
         \/ (res o = Ok None
             /\ exists msg,
                  last (emitted o)
                  = Some (Warning ("Failed to create major version release: " ++ msg)))))
  /\ (forall (octokit : Octokit W) repo majorVersion (w : W),
        let o := deleteMajorReleaseIfExists octokit repo majorVersion w in
        res o = Ok tt
        /\ (Forall (fun e => match e with Api _ false => False | _ => True end) (emitted o)
            \/ last (emitted o)
               = Some (Info ("Major release " ++ majorVersion
                             ++ " doesn't exist, creating new one"))
            \/ exists msg,
                 last (emitted o)
                 = Some (Warning ("Error checking for existing major release: " ++ msg))))
  /\ (forall (octokit : Octokit W) repo source target (w : W),
        let o := copyReleaseAssets octokit repo source target w in
        res o = Ok tt
        /\ downloadsAttempted (emitted o) = map asset_id (default [] (assets source))
        /\ Forall (reported (emitted o)) (default [] (assets source))
        /\ Forall notOutput (emitted o)
        /\ uploads (emitted o)
           = assetUploads octokit repo target (default [] (assets source)) w
        /\ (forall asset assetData,
              In asset (default [] (assets source)) ->
              (forall w', fst (rest_getReleaseAsset octokit repo (asset_id asset) w')
                          = Ok assetData) ->
              let p := uploadOf repo target asset assetData in
              In p (uploads (emitted o))
              /\ ((forall w', fst (rest_uploadReleaseAsset octokit p w') = Ok tt) ->
                  In (Api (UploadReleaseAsset p) true) (emitted o)
                  /\ In (Info ("Copied asset: " ++ asset_name asset)) (emitted o))))
  /\ (forall getInput getBooleanInput context (host : @Collaborators W) (w : W),
        let o := run execSync getInput getBooleanInput context host w in
        res o = Ok tt
        /\ (In (SetOutput "released" "true") (emitted o) ->
            (forall msg, ~ In (SetFailed msg) (emitted o))
            /\ In (Info "Semantic release completed successfully!") (emitted o))).
Proof.
  split; [| split; [| split]].
  - intros octokit repo options w o. split.
    + apply (createMajorRelease_safe execSync octokit repo options w).
    + apply (createMajorRelease_outcome execSync octokit repo options w).
  - intros octokit repo majorVersion w o.
    apply (deleteMajorReleaseIfExists_outcome octokit repo majorVersion w).
  - intros octokit repo source target w o.
    pose proof (copyReleaseAssets_outcome octokit repo source target w) as (R & D & Rep).
    pose proof (copyReleaseAssets_run octokit repo source target w) as (Hexact & _ & Heach).
    split; [exact R |]. split; [exact D |]. split; [exact Rep |].
    split; [apply (copyReleaseAssets_safe octokit repo source target w) |].
    split; [exact Hexact | exact Heach].
  - intros getInput getBooleanInput context host w o.
    pose proof (run_shape execSync getInput getBooleanInput context host w) as [R Shape].
    split; [exact R |]. intros Hin.
    destruct Shape as [Hearly | (Hnf & Hdone & _)].
    + rewrite List.Forall_forall in Hearly. destruct (Hearly _ Hin) as [_ Hne]. now destruct Hne.
    + split; [| exact Hdone]. intros msg Hf.
      rewrite List.Forall_forall in Hnf. exact (Hnf _ Hf).
Qed.

(** C8.  In every run: when the release is a prerelease (the flag that
    [parseLabels] returns is [true]), and likewise when the output
    [is-prerelease] is [true], no event touches a major-tracking tag or
    release; an event touches one only if the input [base_release] is
    [true], the flag is [false] and the output [is-prerelease] is [false];
    and the guarded step itself does nothing at all, and leaves the world as
    it is, when the release is a prerelease or the major release was not
    asked for. *)
Theorem major_step_only_for_stable_release {W : Type}
    (execSync : GitCmd -> W -> result unit * W) (getInput : string -> string)
    (getBooleanInput : string -> result bool) (context : Context)
    (host : @Collaborators W) (w : W) :
  let events := emitted (run execSync getInput getBooleanInput context host w) in
  (forall releaseType,
     releaseIntent getInput getBooleanInput context = Ok (releaseType, true) ->
     Forall (fun e => touchesMajor e = false) events)
  /\ (In (SetOutput "is-prerelease" "true") events ->
      Forall (fun e => touchesMajor e = false) events)
  /\ (forall e, In e events -> touchesMajor e = true ->
        getBooleanInput "base_release" = Ok true
        /\ (exists releaseType,
              releaseIntent getInput getBooleanInput context = Ok (releaseType, false))
        /\ In (SetOutput "is-prerelease" "false") events)
  /\ (forall (octokit : Octokit W) inputs isPrerelease newVersion release (w' : W),
        isPrerelease = true \/ baseRelease inputs = false ->
        majorStep execSync context octokit inputs isPrerelease newVersion release w'
        = mkOutcome (Ok tt) w' []).
Proof.
  intros events.
  pose proof (run_shape execSync getInput getBooleanInput context host w) as [_ Shape].
  fold events in Shape.
  assert (Forall beforePublication events ->
          Forall (fun e => touchesMajor e = false) events) as Hcalm.
  { intros H. eapply List.Forall_impl; [| exact H]. now intros e [He _]. }
  split; [| split; [| split]].
  - intros releaseType Hintent.
    destruct Shape as [Hearly | (_ & _ & [Hc | ((_ & rt & Hrt) & _ & _)])].
    + now apply Hcalm.
    + exact Hc.
    + rewrite Hintent in Hrt. discriminate.
  - intros Hin. destruct Shape as [Hearly | (_ & _ & [Hc | (_ & _ & Hne)])].
    + now apply Hcalm.
    + exact Hc.
    + rewrite List.Forall_forall in Hne. now destruct (Hne _ Hin).
  - intros e Hin Ht.
    destruct Shape as [Hearly | (_ & _ & [Hc | ((Hb & Hrt) & Hf & _)])].
    + apply Hcalm in Hearly. rewrite List.Forall_forall in Hearly.
      rewrite (Hearly _ Hin) in Ht. discriminate.
    + rewrite List.Forall_forall in Hc. rewrite (Hc _ Hin) in Ht. discriminate.
    + now repeat split.
  - intros octokit inputs isPrerelease newVersion release w' [-> | Hb];
      unfold majorStep.
    + now rewrite andb_false_r.
    + now rewrite Hb.
Qed.

(** ** Runs in the in-memory world *)

(** A stable release with the major release asked for moves the major tag
    and publishes both releases. *)
Example stable_run_reconciles_major :
  let o := manualRun "minor" "false" "true" "v2.0.3" (emptyWorld []) in
  res o = Ok tt
  /\ existsb touchesMajor (emitted o) = true
  /\ localTags (w_git (final o)) !! "v2.1.0" = Some "c1"
  /\ localTags (w_git (final o)) !! "v2" = Some "c1"
  /\ remoteTags (w_git (final o)) !! "v2" = Some "c1"
  /\ map fst (w_releases (final o)) = ["v2"; "v2.1.0"]
  /\ In (SetOutput "major-version" "v2") (emitted o).
Proof. vm_compute. repeat split; auto 40. Qed.

(** A prerelease leaves the major tag and release alone. *)
Example prerelease_run_leaves_major :
  let o := manualRun "minor" "true" "true" "v1.4.2" (emptyWorld []) in
  releaseIntent (inputTable (manualInputs "minor" "true" "true"))
    (booleanInputTable (manualInputs "minor" "true" "true")) manualContext
  = Ok ("minor", true)
  /\ res o = Ok tt
  /\ In (SetOutput "version" "v1.5.0-beta.1") (emitted o)
  /\ In (SetOutput "is-prerelease" "true") (emitted o)
  /\ existsb touchesMajor (emitted o) = false
  /\ map fst (map_to_list (localTags (w_git (final o)))) = ["v1.5.0-beta.1"]
  /\ map fst (w_releases (final o)) = ["v1.5.0-beta.1"].
Proof. vm_compute. repeat split; auto 40. Qed.

(** When the remote refuses the major tag, the run warns and still
    succeeds for the full version. *)
Example refused_major_tag_is_a_warning :
  let o := manualRun "minor" "false" "true" "v2.0.3" (emptyWorld ["v2"]) in
  res o = Ok tt
  /\ In (SetOutput "released" "true") (emitted o)
  /\ In (Exec (GitPushTag "v2") false) (emitted o)
  /\ In (Warning "Failed to create major version release: remote: error: GH006: Protected tag update failed")
       (emitted o)
  /\ existsb (fun e => match e with SetFailed _ => true | _ => false end) (emitted o) = false
  /\ last (emitted o) = Some (Info "Semantic release completed successfully!")
  /\ map fst (w_releases (final o)) = ["v2.1.0"].
Proof. vm_compute. repeat split; auto 60. Qed.

(** With no tag yet, a patch release is [v0.0.1]. *)
Example first_release :
  In (SetOutput "version" "v0.0.1")
    (emitted (manualRun "patch" "false" "false" "v0.0.0" (emptyWorld []))).
Proof. vm_compute. auto 40. Qed.

(** An invalid release type stops the run before anything is changed. *)
Example invalid_release_type_changes_nothing :
  let o := manualRun "huge" "false" "true" "v2.0.3" (emptyWorld []) in
  final o = emptyWorld []
  /\ last (emitted o) = Some (SetFailed "Invalid release type: huge").
Proof. vm_compute. split; reflexivity. Qed.

(** Three assets, the second of which cannot be downloaded: the first and
    the third are copied all the same. *)
Example broken_asset_is_skipped :
  let source :=
    mkRelease 1 "v2.1.0" "notes" "url"
      (Some [mkAsset 11 "a.zip" "application/zip" 10;
             mkAsset 12 "b.zip" "application/zip" 20;
             mkAsset 13 "c.zip" "application/zip" 30]) in
  let target := mkRelease 2 "v2" "notes" "url" (Some []) in
  let o := copyReleaseAssets worldOctokit (mkRepoRef "octo" "project") source target
             (mkWorld (mkGitStore "c1" empty empty "c0") [] 3 [12] []) in
  res o = Ok tt
  /\ downloadsAttempted (emitted o) = [11; 12; 13]
  /\ uploaded (emitted o) = ["a.zip"; "c.zip"]
  /\ map up_name (uploads (emitted o)) = ["a.zip"; "c.zip"]
  /\ In (Warning "Failed to copy asset b.zip: connect ETIMEDOUT") (emitted o).
Proof. vm_compute. repeat split; auto 20. Qed.

(* ------------------------------------------------------------------ *)
(** * Further properties *)

(** ** The grammar of validateVersion *)

Lemma spanDigits_spec s d rest :
  spanDigits s = (d, rest) ->
  s = d ++ rest /\ allChars isDigit d = true.
Proof.
  revert d rest. induction s as [| c s IH]; simpl; intros d rest H.
  - injection H as <- <-. now split.
  - destruct (isDigit c) eqn:E.
    + destruct (spanDigits s) as [d' rest'] eqn:Es. injection H as <- <-.
      destruct (IH d' rest' eq_refl) as [-> Hd]. simpl. rewrite E. now split.
    + injection H as <- <-. now split.
Qed.

Lemma spanDigits_app d rest :
  allChars isDigit d = true ->
  (forall c r, rest = String c r -> isDigit c = false) ->
  spanDigits (d ++ rest) = (d, rest).
Proof.
  intros Hd Hrest. induction d as [| c d IH]; simpl in *.
  - destruct rest as [| c r]; [reflexivity |]. simpl.
    now rewrite (Hrest c r eq_refl).
  - apply andb_true_iff in Hd as [Hc Hd]. rewrite Hc. now rewrite IH.
Qed.

Lemma startsWith_inv c s : startsWith c s = true -> s = String c (slice 1 s).
Proof.
  destruct s as [| d s]; [discriminate |]. simpl.
  now intros ->%Ascii.eqb_eq.
Qed.

Lemma validVersionText_shape version :
  validVersionText version = true -> versionShape version.
Proof.
  unfold validVersionText.
  set (s0 := if startsWith "v" version then slice 1 version else version).
  destruct (spanDigits s0) as [d1 r1] eqn:E1.
  destruct (spanDigits (slice 1 r1)) as [d2 r2] eqn:E2.
  destruct (spanDigits (slice 1 r2)) as [d3 r3] eqn:E3.
  intros H.
  apply andb_true_iff in H as [H Htail]. apply andb_true_iff in H as [H Hd3].
  apply andb_true_iff in H as [H Hdot2]. apply andb_true_iff in H as [H Hd2].
  apply andb_true_iff in H as [Hd1 Hdot1].
  apply spanDigits_spec in E1 as [E1 A1], E2 as [E2 A2], E3 as [E3 A3].
  apply startsWith_inv in Hdot1, Hdot2.
  exists (if startsWith "v" version then "v" else ""), d1, d2, d3, r3.
  split; [| split; [destruct (startsWith "v" version); auto |]].
  - assert (s0 = d1 ++ "." ++ d2 ++ "." ++ d3 ++ r3) as Hs0.
    { rewrite E1, Hdot1, E2, Hdot2, E3. reflexivity. }
    unfold s0 in Hs0. destruct (startsWith "v" version) eqn:Ev.
    + apply startsWith_inv in Ev. rewrite Ev, Hs0. reflexivity.
    + exact Hs0.
  - split; [now split |]. split; [now split |]. split; [now split |].
    apply orb_true_iff in Htail as [Hr | Hr].
    + left. destruct r3; [reflexivity | discriminate].
    + right. apply andb_true_iff in Hr as [Hdash Hm].
      apply startsWith_inv in Hdash.
      destruct (matchWordDotDigits (slice 1 r3)) as [[w d] |] eqn:Em; [| discriminate].
      apply matchWordDotDigits_spec in Em.
      exists (slice 1 r3), w, d. split; [assumption | exact Hdash].
Qed.

Lemma digitsText_then d c rest :
  digitsText d -> isDigit c = false ->
  spanDigits (d ++ String c rest) = (d, String c rest).
Proof.
  intros [_ Hd] Hc. apply spanDigits_app; [assumption |].
  now intros c' r [= <- <-].
Qed.

Lemma digitsText_no_v d : digitsText d -> startsWith "v" d = false.
Proof.
  intros [Hn Hd]. destruct d as [| c d]; [reflexivity |]. simpl in *.
  apply andb_true_iff in Hd as [Hc _].
  now apply (class_differ isDigit).
Qed.

Lemma shape_validVersionText version :
  versionShape version -> validVersionText version = true.
Proof.
  intros (v & d1 & d2 & d3 & tail & -> & Hv & H1 & H2 & H3 & Htail).
  unfold validVersionText.
  assert ((if startsWith "v" (v ++ d1 ++ "." ++ d2 ++ "." ++ d3 ++ tail)
           then slice 1 (v ++ d1 ++ "." ++ d2 ++ "." ++ d3 ++ tail)
           else v ++ d1 ++ "." ++ d2 ++ "." ++ d3 ++ tail)
          = d1 ++ String "." (d2 ++ String "." (d3 ++ tail))) as ->.
  { destruct Hv as [-> | ->]; [| reflexivity].
    cbn [String.append].
    destruct d1 as [| c d1]; [now destruct H1 |].
    pose proof (digitsText_no_v _ H1) as Hc. cbn [String.append].
    simpl in Hc. simpl. now rewrite Hc. }
  rewrite (digitsText_then d1 "." _ H1 eq_refl). cbn [slice].
  rewrite (digitsText_then d2 "." _ H2 eq_refl). cbn [slice].
  assert (spanDigits (d3 ++ tail) = (d3, tail)) as ->.
  { destruct H3 as [_ H3]. apply spanDigits_app; [assumption |].
    intros c r ->. destruct Htail as [? | (seg & w & d & _ & [= -> _])];
      [discriminate | reflexivity]. }
  destruct H1 as [-> _], H2 as [-> _], H3 as [-> _]. cbn [andb startsWith Ascii.eqb].
  simpl.
  destruct Htail as [-> | (seg & w & d & Hseg & ->)]; [reflexivity |].
  cbn [nonEmpty negb orb startsWith slice String.append].
  apply matchWordDotDigits_spec in Hseg. simpl. now rewrite Hseg.
Qed.

(** X1.  [validateVersion] accepts exactly the texts made of an optional
    [v], three non-empty groups of decimal digits separated by dots and,
    optionally, a hyphen followed by a text of the shape [<word>.<digits>];
    every other text makes it throw the error that quotes the text. *)
Theorem validateVersion_accepts (version : string) :
  (validateVersion version = Ok tt <-> versionShape version)
  /\ (validateVersion version = Ok tt
      \/ validateVersion version
         = Throw (mkError ("Invalid version format: " ++ version) None)).
Proof.
  unfold validateVersion. split; [split |].
  - destruct (validVersionText version) eqn:E; [| discriminate].
    intros _. now apply validVersionText_shape.
  - intros H. now rewrite (shape_validVersionText version H).
  - destruct (validVersionText version); auto.
Qed.

Example validateVersion_examples :
  validateVersion "1.2.3" = Ok tt
  /\ validateVersion "v10.0.12-rc_1.07" = Ok tt
  /\ validateVersion "v1.2" = Throw (mkError "Invalid version format: v1.2" None)
  /\ validateVersion "v1.2.3-beta" = Throw (mkError "Invalid version format: v1.2.3-beta" None)
  /\ validateVersion "v1.2.3 " = Throw (mkError "Invalid version format: v1.2.3 " None).
Proof. repeat split. Qed.

(** ** Formatted versions are valid *)

Lemma tripleText_span (M N P : Z) (tail : string) :
  plainNumber M -> plainNumber N -> plainNumber P ->
  (forall c r, tail = String c r -> isDigit c = false) ->
  spanDigits (tripleText M N P ++ tail)
  = (numToString M, "." ++ numToString N ++ "." ++ numToString P ++ tail)
  /\ spanDigits (numToString N ++ "." ++ numToString P ++ tail)
     = (numToString N, "." ++ numToString P ++ tail)
  /\ spanDigits (numToString P ++ tail) = (numToString P, tail).
Proof.
  intros HM HN HP Htail. unfold tripleText. rewrite !append_assoc.
  split; [| split].
  - apply spanDigits_app; [now apply numToString_digits |]. now intros c r [= <- _].
  - apply spanDigits_app; [now apply numToString_digits |]. now intros c r [= <- _].
  - apply spanDigits_app; [now apply numToString_digits | assumption].
Qed.

(** Which formatted versions the grammar accepts. *)
Lemma validVersionText_formatVersion (M N P : Z) (pre : option string) :
  plainNumber M -> plainNumber N -> plainNumber P ->
  validVersionText (formatVersion M N P pre)
  = match pre with
    | Some p =>
        if nonEmpty p
        then match matchWordDotDigits p with Some _ => true | None => false end
        else true
    | None => true
    end.
Proof.
  intros HM HN HP. rewrite formatVersion_eq.
  set (tail := match pre with
               | Some p => if nonEmpty p then String "-" p else ""
               | None => ""
               end).
  assert (forall c r, tail = String c r -> isDigit c = false) as Htail.
  { intros c r. unfold tail. destruct pre as [p |]; [destruct (nonEmpty p) |];
      try discriminate. now intros [= <- _]. }
  destruct (tripleText_span M N P tail HM HN HP Htail) as (S1 & S2 & S3).
  unfold validVersionText.
  change (startsWith "v" (String "v" ?x)) with true. cbv iota.
  change (slice 1 (String "v" ?x)) with x.
  rewrite S1. cbv beta iota.
  change (slice 1 ("." ++ ?x)) with x. rewrite S2. cbv beta iota.
  change (slice 1 ("." ++ ?x)) with x. rewrite S3. cbv beta iota.
  rewrite !numToString_nonEmpty.
  change (startsWith "." ("." ++ ?x)) with true. cbn [andb].
  unfold tail. destruct pre as [p |]; [destruct (nonEmpty p) eqn:Ep |]; reflexivity.
Qed.

Lemma validateVersion_formatVersion (M N P : Z) (pre : option string) :
  plainNumber M -> plainNumber N -> plainNumber P ->
  (validateVersion (formatVersion M N P pre) = Ok tt
   <-> truthy pre = false \/ exists p w d, pre = Some p /\ wordDotDigits p w d).
Proof.
  intros HM HN HP. unfold validateVersion.
  rewrite validVersionText_formatVersion by assumption.
  destruct pre as [p |]; cbn [truthy].
  - destruct (nonEmpty p) eqn:Ep.
    + destruct (matchWordDotDigits p) as [[w d] |] eqn:Em.
      * split; [| reflexivity]. intros _. right. exists p, w, d.
        split; [reflexivity | now apply matchWordDotDigits_spec].
      * split; [discriminate |]. intros [? | (p' & w & d & [= <-] & H)]; [discriminate |].
        apply matchWordDotDigits_spec in H. congruence.
    + split; [now left | reflexivity].
  - split; [now left | reflexivity].
Qed.

(** X2.  For numbers below 10^21 (every integer up to 2^53, and beyond
    it the doubles), [validateVersion] accepts the text that
    [formatVersion] builds exactly when the prerelease is [null], empty, or
    of the shape [<word>.<digits>]. *)
Theorem formatVersion_valid (M N P : Z) (pre : option string) :
  plainNumber M -> plainNumber N -> plainNumber P ->
  (validateVersion (formatVersion M N P pre) = Ok tt
   <-> truthy pre = false \/ exists p w d, pre = Some p /\ wordDotDigits p w d).
Proof. apply validateVersion_formatVersion. Qed.

Lemma formatVersion_valid_witness :
  plainNumber 1 /\ plainNumber 2 /\ plainNumber (2 ^ 53)
  /\ (validateVersion (formatVersion 1 2 (2 ^ 53) (Some "beta.1")) = Ok tt
      <-> truthy (Some "beta.1") = false
          \/ exists p w d, Some "beta.1" = Some p /\ wordDotDigits p w d).
Proof.
  assert (plainNumber 1 /\ plainNumber 2 /\ plainNumber (2 ^ 53)) as (H1 & H2 & H3)
    by (repeat split; lia || now vm_compute).
  split; [exact H1 |]. split; [exact H2 |]. split; [exact H3 |].
  exact (formatVersion_valid 1 2 (2 ^ 53) (Some "beta.1") H1 H2 H3).
Defined.

(** From 10^21 on the text is in the exponent form, which the grammar
    refuses. *)
Example formatVersion_exponent_invalid :
  validateVersion (formatVersion (10 ^ 21) 0 0 None)
  = Throw (mkError "Invalid version format: v1e+21.0.0" None).
Proof. now vm_compute. Qed.

Example formatVersion_invalid_prerelease :
  validateVersion (formatVersion 1 2 3 (Some "beta"))
  = Throw (mkError "Invalid version format: v1.2.3-beta" None).
Proof. reflexivity. Qed.

Lemma spanWord_stops s w rest :
  spanWord s = (w, rest) ->
  forall c r, rest = String c r -> isWordChar c = false.
Proof.
  revert w rest. induction s as [| c s IH]; simpl; intros w rest H c' r Hr.
  - injection H as <- <-. discriminate.
  - destruct (isWordChar c) eqn:E.
    + destruct (spanWord s) as [w' rest'] eqn:Es. injection H as <- <-.
      eapply IH; [reflexivity | eassumption].
    + injection H as <- <-. now injection Hr as <- <-.
Qed.

(** A suffix joined to a number by a dot has the shape [<word>.<digits>]
    exactly when the suffix is a word and the number a text of digits. *)
Lemma wordDotDigits_joined (s n w d : string) :
  wordDotDigits (s ++ "." ++ n) w d
  <-> w = s /\ d = n /\ nonEmpty s = true /\ allChars isWordChar s = true /\ digitsText n.
Proof.
  split.
  - intros (E & Hw & Hword & Hd & Hdig).
    assert (w = s /\ d = n) as [-> ->].
    { clear Hw Hd. revert s E. induction w as [| c w IH]; intros s E.
      - destruct s as [| c s]; cbn in E.
        + injection E as <-. now split.
        + injection E as -> E. exfalso. rewrite <- E in Hdig.
          rewrite allChars_dot in Hdig. discriminate.
      - simpl in Hword. apply andb_true_iff in Hword as [Hc Hword].
        destruct s as [| c' s]; cbn in E.
        + injection E as <- _. discriminate.
        + injection E as <- E. destruct (IH Hword s E) as [-> ->]. now split. }
    repeat split; assumption.
  - intros (-> & -> & Hs & Hword & Hn & Hdig). now repeat split.
Qed.

Lemma plainNumber_0 : plainNumber 0.
Proof. split; [lia | reflexivity]. Qed.

Lemma safeVersion_plain v : safeVersion v -> plainVersion v.
Proof.
  intros (H1 & H2 & H3). repeat split; now apply safeInteger_plain.
Qed.

(** The numbers read from a text are doubles: below 10^21 they are
    printed in plain digits. *)
Lemma parseVersion_plain version :
  let v := parseVersion version in
  major v < 10 ^ 21 -> minor v < 10 ^ 21 -> patch v < 10 ^ 21 -> plainVersion v.
Proof.
  destruct (parseVersion_nonneg version) as (L1 & L2 & L3).
  destruct (parseVersion_double version) as (D1 & D2 & D3).
  intros v U1 U2 U3. repeat split; first [assumption | lia].
Qed.

(** What [calculateVersion] returns for safe integers: a formatted triple
    that is greater than the triple of the current version. *)
Lemma calculateVersion_inv latestVersion releaseType isPrerelease inputs newVersion :
  safeVersion (parseVersion latestVersion) ->
  calculateVersion latestVersion releaseType isPrerelease inputs = Ok newVersion ->
  exists M N P,
    plainNumber M /\ plainNumber N /\ plainNumber P
    /\ tripleLt (parseVersion latestVersion) (mkVersion M N P None)
    /\ newVersion
       = formatVersion M N P
           (if isPrerelease
            then Some (prereleaseSuffix inputs ++ "." ++ prereleaseNumber inputs)
            else None).
Proof.
  intros (S1 & S2 & S3).
  destruct (safeInteger_plain _ S1) as [P1 P1'].
  destruct (safeInteger_plain _ S2) as [P2 P2'].
  destruct (safeInteger_plain _ S3) as [P3 P3'].
  pose proof plainNumber_0 as P0.
  unfold calculateVersion, tripleLt.
  destruct (String.eqb releaseType "major");
    [| destruct (String.eqb releaseType "minor");
       [| destruct (String.eqb releaseType "patch"); [| discriminate]]];
    rewrite toDouble_succ by assumption; intros [= <-].
  - exists (major (parseVersion latestVersion) + 1), 0, 0.
    cbn [major minor patch].
    split; [exact P1' | split; [exact P0 | split; [exact P0 | split; [lia | reflexivity]]]].
  - exists (major (parseVersion latestVersion)), (minor (parseVersion latestVersion) + 1), 0.
    cbn [major minor patch].
    split; [exact P1 | split; [exact P2' | split; [exact P0 | split; [lia | reflexivity]]]].
  - exists (major (parseVersion latestVersion)), (minor (parseVersion latestVersion)),
      (patch (parseVersion latestVersion) + 1).
    cbn [major minor patch].
    split; [exact P1 | split; [exact P2 | split; [exact P3' | split; [lia | reflexivity]]]].
Qed.

Lemma joined_nonEmpty (a b : string) : nonEmpty (a ++ "." ++ b) = true.
Proof. apply nonEmpty_app_r. reflexivity. Qed.

(** X3.  For a current version whose numbers are safe integers (up to
    2^53 - 1), the version that [calculateVersion] returns is accepted by
    [validateVersion] whenever the release is not a prerelease; for a
    prerelease it is accepted exactly when the configured suffix is a
    non-empty word and the configured number a non-empty text of digits. *)
Theorem calculateVersion_valid (latestVersion releaseType : string) (isPrerelease : bool)
    (inputs : PrereleaseInputs) (newVersion : string) :
  safeVersion (parseVersion latestVersion) ->
  calculateVersion latestVersion releaseType isPrerelease inputs = Ok newVersion ->
  (validateVersion newVersion = Ok tt
   <-> isPrerelease = false
       \/ (nonEmpty (prereleaseSuffix inputs) = true
           /\ allChars isWordChar (prereleaseSuffix inputs) = true
           /\ digitsText (prereleaseNumber inputs))).
Proof.
  intros Hsafe H.
  apply calculateVersion_inv in H as (M & N & P & HM & HN & HP & _ & ->);
    [| assumption].
  rewrite validateVersion_formatVersion by assumption.
  destruct isPrerelease; cbn [truthy].
  - rewrite joined_nonEmpty. split.
    + intros [? | (p & w & d & [= <-] & Hshape)]; [discriminate |].
      right. apply wordDotDigits_joined in Hshape. tauto.
    + intros [? | (Hs & Hw & Hn)]; [discriminate |].
      right. exists (prereleaseSuffix inputs ++ "." ++ prereleaseNumber inputs),
        (prereleaseSuffix inputs), (prereleaseNumber inputs).
      split; [reflexivity |]. apply wordDotDigits_joined. tauto.
  - split; auto.
Qed.

Lemma calculateVersion_valid_witness :
  safeVersion (parseVersion "v1.2.3")
  /\ calculateVersion "v1.2.3" "minor" true (mkPrereleaseInputs "beta" "1")
     = Ok "v1.3.0-beta.1"
  /\ (validateVersion "v1.3.0-beta.1" = Ok tt
      <-> true = false
          \/ (nonEmpty "beta" = true /\ allChars isWordChar "beta" = true
              /\ digitsText "1")).
Proof.
  assert (safeVersion (parseVersion "v1.2.3")) as Hsafe by (repeat split; now vm_compute).
  split; [exact Hsafe |]. split; [reflexivity |].
  apply (calculateVersion_valid "v1.2.3" "minor" true (mkPrereleaseInputs "beta" "1")
           "v1.3.0-beta.1" Hsafe).
  reflexivity.
Defined.

(** A suffix that is not a word gives a version that [validateVersion]
    rejects. *)
Example calculateVersion_invalid_suffix :
  calculateVersion "v1.2.3" "minor" true (mkPrereleaseInputs "release-candidate" "1")
  = Ok "v1.3.0-release-candidate.1"
  /\ validateVersion "v1.3.0-release-candidate.1"
     = Throw (mkError "Invalid version format: v1.3.0-release-candidate.1" None).
Proof. split; reflexivity. Qed.

(** Beyond the safe integers the result may be in the exponent form, which
    [validateVersion] refuses. *)
Example calculateVersion_invalid_number inputs :
  calculateVersion "v1000000000000000000000.0.0" "patch" false inputs = Ok "v1e+21.0.1"
  /\ validateVersion "v1e+21.0.1"
     = Throw (mkError "Invalid version format: v1e+21.0.1" None).
Proof. split; now vm_compute. Qed.

Lemma parse_formatted_triple (M N P : Z) (pre : option string) :
  plainNumber M -> plainNumber N -> plainNumber P ->
  parseVersion (formatVersion M N P pre)
  = mkVersion M N P (if truthy pre then pre else None).
Proof.
  intros HM HN HP. destruct pre as [p |]; cbn [truthy].
  - destruct (nonEmpty p) eqn:Ep.
    + now apply parse_format_prerelease.
    + replace (formatVersion M N P (Some p)) with (formatVersion M N P None)
        by (unfold formatVersion; now rewrite Ep).
      now apply parse_format_plain.
  - now apply parse_format_plain.
Qed.

(** X4.  For a current version whose numbers are safe integers (up to
    2^53 - 1), the version that [calculateVersion] returns is newer than the
    current one: its (major, minor, patch) triple is greater, and
    [compareVersions] finds it greater whatever the collation, with or
    without a prerelease on either side. *)
Theorem calculateVersion_increases (localeCompare : string -> string -> Z)
    (latestVersion releaseType : string) (isPrerelease : bool)
    (inputs : PrereleaseInputs) (newVersion : string) :
  safeVersion (parseVersion latestVersion) ->
  calculateVersion latestVersion releaseType isPrerelease inputs = Ok newVersion ->
  tripleLt (parseVersion latestVersion) (parseVersion newVersion)
  /\ 0 < compareVersions localeCompare newVersion latestVersion
  /\ compareVersions localeCompare latestVersion newVersion < 0.
Proof.
  intros Hsafe H.
  apply calculateVersion_inv in H as (M & N & P & HM & HN & HP & Hlt & ->);
    [| assumption].
  rewrite parse_formatted_triple by assumption.
  set (pre := if isPrerelease then _ else _) in *.
  assert (tripleLt (parseVersion latestVersion)
            (parseVersion (formatVersion M N P pre))) as Hlt'
    by now rewrite parse_formatted_triple.
  split; [exact Hlt |]. clear Hlt.
  destruct (compareVersions_differ localeCompare (formatVersion M N P pre) latestVersion)
    as (H1 & H2 & H3).
  destruct (compareVersions_differ localeCompare latestVersion (formatVersion M N P pre))
    as (K1 & K2 & K3).
  destruct Hlt' as [Hlt | [E1 [Hlt | [E2 Hlt]]]].
  - rewrite H1, K1 by lia.
    split; [apply (subtract_sign _ _ major) | apply (subtract_sign _ _ major)]; auto.
  - rewrite H2, K2 by lia.
    split; [apply (subtract_sign _ _ minor) | apply (subtract_sign _ _ minor)]; auto.
  - rewrite H3, K3 by lia.
    split; [apply (subtract_sign _ _ patch) | apply (subtract_sign _ _ patch)]; auto.
Qed.

Lemma calculateVersion_increases_witness :
  safeVersion (parseVersion "v1.9.9-rc.4")
  /\ calculateVersion "v1.9.9-rc.4" "major" false (mkPrereleaseInputs "beta" "1")
     = Ok "v2.0.0"
  /\ tripleLt (parseVersion "v1.9.9-rc.4") (parseVersion "v2.0.0")
  /\ 0 < compareVersions codeUnitCompare "v2.0.0" "v1.9.9-rc.4"
  /\ compareVersions codeUnitCompare "v1.9.9-rc.4" "v2.0.0" < 0.
Proof.
  assert (safeVersion (parseVersion "v1.9.9-rc.4")) as Hsafe
    by (repeat split; now vm_compute).
  split; [exact Hsafe |]. split; [reflexivity |].
  apply (calculateVersion_increases codeUnitCompare "v1.9.9-rc.4" "major" false
           (mkPrereleaseInputs "beta" "1") "v2.0.0" Hsafe).
  reflexivity.
Defined.

(** At 2^53 the sum is lost, and the version stays as it is. *)
Example calculateVersion_stalls inputs :
  calculateVersion "v1.0.9007199254740992" "patch" false inputs
  = Ok "v1.0.9007199254740992"
  /\ compareVersions codeUnitCompare "v1.0.9007199254740992" "v1.0.9007199254740992" = 0.
Proof. split; now vm_compute. Qed.

(** X5.  When the numbers that [parseVersion] read are below 10^21,
    formatting them and parsing the result gives the same numbers and the
    same prerelease, but for an empty prerelease (a text that ends with its
    first hyphen), which comes back as [null]; and formatting once more
    changes nothing. *)
Theorem parse_format_parse (version : string) :
  let v := parseVersion version in
  let canonical := formatVersion (major v) (minor v) (patch v) (prerelease v) in
  major v < 10 ^ 21 -> minor v < 10 ^ 21 -> patch v < 10 ^ 21 ->
  parseVersion canonical
  = mkVersion (major v) (minor v) (patch v)
      (if hasPrerelease v then prerelease v else None)
  /\ (prerelease v <> Some "" -> parseVersion canonical = v)
  /\ formatVersion (major (parseVersion canonical)) (minor (parseVersion canonical))
       (patch (parseVersion canonical)) (prerelease (parseVersion canonical))
     = canonical.
Proof.
  intros v canonical U1 U2 U3.
  destruct (parseVersion_plain version U1 U2 U3) as (HM & HN & HP). fold v in HM, HN, HP.
  assert (parseVersion canonical
          = mkVersion (major v) (minor v) (patch v)
              (if hasPrerelease v then prerelease v else None)) as E
    by now apply parse_formatted_triple.
  split; [exact E | split].
  - intros Hne. rewrite E. unfold hasPrerelease.
    destruct v as [M N P [[| c p] |]]; cbn [major minor patch prerelease truthy nonEmpty] in *;
      congruence.
  - rewrite E. cbn [major minor patch prerelease]. unfold canonical, hasPrerelease.
    destruct (prerelease v) as [[| c p] |]; reflexivity.
Qed.

Lemma parse_format_parse_witness :
  let v := parseVersion "v01.02.1152921504606846976-rc.1-x" in
  let canonical := formatVersion (major v) (minor v) (patch v) (prerelease v) in
  (major v < 10 ^ 21 /\ minor v < 10 ^ 21 /\ patch v < 10 ^ 21)
  /\ canonical = "v1.2.1152921504606847000-rc.1-x"
  /\ parseVersion canonical = v.
Proof.
  intros v canonical.
  assert (major v < 10 ^ 21 /\ minor v < 10 ^ 21 /\ patch v < 10 ^ 21) as (H1 & H2 & H3)
    by (repeat split; now vm_compute).
  split; [now repeat split |]. split; [now vm_compute |].
  destruct (parse_format_parse "v01.02.1152921504606846976-rc.1-x" H1 H2 H3)
    as (_ & H & _).
  apply H. vm_compute. discriminate.
Defined.

(** From 10^21 on the text is not read back. *)
Example parse_format_parse_exponent :
  parseVersion "v1000000000000000000000.2.3" = mkVersion (10 ^ 21) 2 3 None
  /\ formatVersion (10 ^ 21) 2 3 None = "v1e+21.2.3"
  /\ parseVersion "v1e+21.2.3" = mkVersion 1 2 3 None.
Proof. repeat split; now vm_compute. Qed.

Example parse_format_parse_examples :
  formatVersion 1 2 0 None = "v1.2.0"
  /\ parseVersion "1.2" = mkVersion 1 2 0 None
  /\ parseVersion "v01.02.3-rc.1-x" = mkVersion 1 2 3 (Some "rc.1-x")
  /\ parseVersion "v1.2.3-" = mkVersion 1 2 3 (Some "")
  /\ parseVersion (formatVersion 1 2 3 (Some "")) = mkVersion 1 2 3 None.
Proof. repeat split. Qed.

Lemma digits_no_dot d : allChars isDigit d = true -> find "." d = None.
Proof. intros H. now apply (find_absent isDigit). Qed.

Lemma word_no_dash w : allChars isWordChar w = true -> find "-" w = None.
Proof. intros H. now apply (find_absent isWordChar). Qed.

Lemma digits_no_dash d : allChars isDigit d = true -> find "-" d = None.
Proof. intros H. now apply (find_absent isDigit). Qed.

(** X6.  A major-tracking tag ([v] followed by digits only) read as a
    version is the number that [parseInt] reads from its digits (a double,
    or [Infinity]), with minor 0, patch 0 and no prerelease: the missing
    components count as 0; the patch release computed from it is that
    number followed by [.0.1], in plain digits [v<n>.0.1] when the number
    is at most 2^53. *)
Theorem parseVersion_major_tag (name : string) (inputs : PrereleaseInputs) :
  isMajorTagName name = true ->
  exists n,
    0 <= n <= Infinity
    /\ parseInt (slice 1 name) = Num n
    /\ parseVersion name = mkVersion n 0 0 None
    /\ calculateVersion name "patch" false inputs = Ok (formatVersion n 0 1 None)
    /\ (exactInteger n -> formatVersion n 0 1 None = "v" ++ decimal n ++ ".0.1").
Proof.
  unfold isMajorTagName. intros H.
  apply andb_true_iff in H as [H Hd]. apply andb_true_iff in H as [Hv Hn].
  apply startsWith_inv in Hv.
  destruct (parseInt_digits_number (slice 1 name) Hn Hd) as (n & Hparse & Hpos).
  exists n. split.
  { split; [exact Hpos |]. pose proof (parseInt_le_Infinity (slice 1 name)) as Hle.
    now rewrite Hparse in Hle. }
  split; [exact Hparse |].
  assert (parseVersion name = mkVersion n 0 0 None) as E.
  { rewrite Hv. rewrite parseVersion_no_hyphen; rewrite cleanVersion_v;
      [| now apply digits_no_dash].
    unfold readTriple. rewrite split_absent by now apply digits_no_dot.
    unfold at_. cbn [nth]. now rewrite Hparse. }
  split; [exact E |]. split.
  - rewrite calculateVersion_patch, E. reflexivity.
  - intros Hexact. rewrite formatVersion_digits; [reflexivity | assumption | |];
      unfold exactInteger; lia.
Qed.

Lemma parseVersion_major_tag_witness :
  isMajorTagName "v12" = true
  /\ exists n,
       0 <= n <= Infinity
       /\ parseInt (slice 1 "v12") = Num n
       /\ parseVersion "v12" = mkVersion n 0 0 None
       /\ calculateVersion "v12" "patch" false (mkPrereleaseInputs "beta" "1")
          = Ok (formatVersion n 0 1 None)
       /\ (exactInteger n -> formatVersion n 0 1 None = "v" ++ decimal n ++ ".0.1").
Proof.
  split; [reflexivity |].
  apply (parseVersion_major_tag "v12" (mkPrereleaseInputs "beta" "1")). reflexivity.
Defined.

(** The same for a tag whose digits spell a number beyond the doubles. *)
Example parseVersion_major_tag_infinite inputs :
  let name := "v1" ++ String.concat "" (repeat "0000000000" 31) in
  isMajorTagName name = true
  /\ parseVersion name = mkVersion Infinity 0 0 None
  /\ calculateVersion name "patch" false inputs = Ok "vInfinity.0.1".
Proof. repeat split; now vm_compute. Qed.

(** ** Prereleases of formatted versions *)

Lemma wordDotDigits_no_dash seg w d : wordDotDigits seg w d -> find "-" seg = None.
Proof.
  intros (-> & _ & Hw & _ & Hd). apply find_app_absent; [now apply word_no_dash |].
  change ("." ++ d) with (String "." d). simpl. now rewrite digits_no_dash.
Qed.

Lemma formatVersion_prerelease_text (M N P : Z) (p : string) :
  nonEmpty p = true ->
  formatVersion M N P (Some p) = ("v" ++ tripleText M N P) ++ "-" ++ p.
Proof. intros Hp. rewrite formatVersion_eq, Hp. reflexivity. Qed.

(** X7.  [parseExistingPrerelease] reads back the prerelease of a formatted
    version: for a word [w] and a number [k] below 10^21 it finds the suffix
    [w] and the number [k] in the version formatted with the prerelease
    [w.k], and it finds nothing in a version formatted without
    prerelease. *)
Theorem parseExistingPrerelease_formatted (M N P k : Z) (w : string) :
  0 <= M -> 0 <= N -> 0 <= P -> plainNumber k ->
  nonEmpty w = true -> allChars isWordChar w = true ->
  parseExistingPrerelease (formatVersion M N P (Some (w ++ "." ++ numToString k)))
  = Some (mkExisting w (Num k))
  /\ parseExistingPrerelease (formatVersion M N P None) = None.
Proof.
  intros HM HN HP Hk Hw Hword. split.
  - rewrite <- (parseInt_numToString k Hk).
    apply parseExistingPrerelease_spec.
    exists (w ++ "." ++ numToString k), (numToString k).
    assert (wordDotDigits (w ++ "." ++ numToString k) w (numToString k)) as Hshape.
    { split; [reflexivity |]. repeat split; try assumption.
      - apply numToString_nonEmpty.
      - now apply numToString_digits. }
    split; [| split; [exact Hshape | reflexivity]].
    exists ("v" ++ tripleText M N P). split; [| split].
    + apply find_app_absent; [reflexivity | now apply triple_no_dash].
    + now apply (wordDotDigits_no_dash _ w (numToString k)).
    + left. apply formatVersion_prerelease_text, joined_nonEmpty.
  - unfold parseExistingPrerelease.
    now rewrite split_absent by now apply formatVersion_plain_no_dash.
Qed.

Lemma parseExistingPrerelease_formatted_witness :
  plainNumber 12 /\ nonEmpty "beta" = true /\ allChars isWordChar "beta" = true
  /\ parseExistingPrerelease (formatVersion 1 3 0 (Some ("beta" ++ "." ++ numToString 12)))
     = Some (mkExisting "beta" (Num 12))
  /\ parseExistingPrerelease (formatVersion 1 3 0 None) = None.
Proof.
  assert (plainNumber 12) as H12 by (split; [lia | reflexivity]).
  split; [exact H12 |]. split; [reflexivity |]. split; [reflexivity |].
  apply (parseExistingPrerelease_formatted 1 3 0 12 "beta");
    first [exact H12 | lia | reflexivity].
Defined.

Lemma incrementPrerelease_number (base : string) (inputs : PrereleaseInputs) (k : Z) :
  find "-" base = None ->
  nonEmpty (prereleaseSuffix inputs) = true ->
  allChars isWordChar (prereleaseSuffix inputs) = true ->
  safeInteger k ->
  incrementPrerelease (base ++ "-" ++ prereleaseSuffix inputs ++ "." ++ numToString k) inputs
  = base ++ "-" ++ prereleaseSuffix inputs ++ "." ++ numToString (k + 1).
Proof.
  intros Hbase Hs Hw Hk. destruct (safeInteger_plain k Hk) as [Hplain _].
  destruct (incrementPrerelease_same_suffix base (numToString k) inputs Hbase Hs Hw
              (numToString_nonEmpty k) (numToString_digits k Hplain)) as (n & Hn & ->).
  rewrite parseInt_numToString in Hn by assumption. injection Hn as <-.
  now rewrite toDouble_succ.
Qed.

(** X8.  Incrementing a prerelease of the configured suffix [n] times adds
    [n] to its number and leaves the rest of the text as it is, as long as
    the number stays within 2^53: the result is again a prerelease of that
    suffix, so the increments compose. *)
Theorem incrementPrerelease_counts (base : string) (inputs : PrereleaseInputs)
    (k : Z) (n : nat) :
  find "-" base = None ->
  nonEmpty (prereleaseSuffix inputs) = true ->
  allChars isWordChar (prereleaseSuffix inputs) = true ->
  0 <= k -> k + Z.of_nat n <= 2 ^ 53 ->
  Nat.iter n (fun version => incrementPrerelease version inputs)
    (base ++ "-" ++ prereleaseSuffix inputs ++ "." ++ numToString k)
  = base ++ "-" ++ prereleaseSuffix inputs ++ "." ++ numToString (k + Z.of_nat n).
Proof.
  intros Hbase Hs Hw Hk. induction n as [| n IH]; intros Hle.
  - cbn [Nat.iter]. now rewrite Z.add_0_r.
  - cbn [Nat.iter nat_rect]. change (nat_rect _ _ _ n) with
      (Nat.iter n (fun version => incrementPrerelease version inputs)
         (base ++ "-" ++ prereleaseSuffix inputs ++ "." ++ numToString k)).
    rewrite IH by lia.
    rewrite incrementPrerelease_number;
      [| assumption | assumption | assumption
       | unfold safeInteger, MAX_SAFE_INTEGER; lia].
    do 5 f_equal. lia.
Qed.

Lemma incrementPrerelease_counts_witness :
  find "-" "v1.3.0" = None /\ 0 <= 8 /\ 8 + Z.of_nat 3 <= 2 ^ 53
  /\ Nat.iter 3 (fun version => incrementPrerelease version (mkPrereleaseInputs "beta" "1"))
       "v1.3.0-beta.8"
     = "v1.3.0-beta.11".
Proof.
  split; [reflexivity |]. split; [lia |]. split; [lia |].
  apply (incrementPrerelease_counts "v1.3.0" (mkPrereleaseInputs "beta" "1") 8 3);
    first [lia | reflexivity].
Defined.

(** At 2^53 the increment is lost, as in the code. *)
Example incrementPrerelease_stalls :
  incrementPrerelease "v1.3.0-beta.9007199254740992" (mkPrereleaseInputs "beta" "1")
  = "v1.3.0-beta.9007199254740992".
Proof. now vm_compute. Qed.

(** The parts of a text between its separators, when one separator is
    known. *)
Lemma split_app_any sep (a b : string) :
  split sep (a ++ String sep b) = (split sep a ++ split sep b)%list.
Proof.
  induction a as [| c a IH]; cbn [String.append split].
  - now rewrite Ascii.eqb_refl.
  - destruct (Ascii.eqb c sep); [now rewrite IH |].
    rewrite IH. destruct (split sep a) as [| h t] eqn:E; [now apply split_not_nil in E |].
    reflexivity.
Qed.

Lemma split_length_pos sep s : (1 <= List.length (split sep s))%nat.
Proof.
  destruct (split sep s) eqn:E; [now apply split_not_nil in E | simpl; lia].
Qed.

(** A valid version text has at most one hyphen. *)
Lemma versionShape_hyphens version :
  versionShape version -> (List.length (split "-" version) <= 2)%nat.
Proof.
  intros (v & d1 & d2 & d3 & tail & -> & Hv & (_ & H1) & (_ & H2) & (_ & H3) & Htail).
  assert (find "-" (v ++ d1 ++ "." ++ d2 ++ "." ++ d3) = None) as Hfront.
  { apply find_app_absent; [destruct Hv as [-> | ->]; reflexivity |].
    apply find_app_absent; [now apply digits_no_dash |].
    change ("." ++ ?x) with (String "." x). cbn [find].
    change (("." =? "-")%char) with false. cbv iota.
    rewrite find_app_absent; [reflexivity | now apply digits_no_dash |].
    change ("." ++ ?x) with (String "." x). cbn [find].
    change (("." =? "-")%char) with false. cbv iota.
    now rewrite digits_no_dash. }
  replace (v ++ d1 ++ "." ++ d2 ++ "." ++ d3 ++ tail)
    with ((v ++ d1 ++ "." ++ d2 ++ "." ++ d3) ++ tail)
    by now rewrite !append_assoc.
  destruct Htail as [-> | (seg & w & d & Hseg & ->)].
  - rewrite append_nil_r, split_absent by assumption. simpl. lia.
  - change ("-" ++ seg) with (String "-" seg).
    rewrite split_app by assumption.
    rewrite split_absent by now apply (wordDotDigits_no_dash seg w d).
    simpl. lia.
Qed.

(** X9.  Changing the suffix of an existing prerelease never gives a valid
    version: when [parseExistingPrerelease] finds a prerelease of another
    suffix than the configured one, [incrementPrerelease] appends the new
    suffix and number to the whole text, and [validateVersion] rejects the
    result, whatever the text, the suffix and the number are. *)
Theorem incrementPrerelease_changed_suffix (version : string) (inputs : PrereleaseInputs)
    (existing : ExistingPrerelease) :
  parseExistingPrerelease version = Some existing ->
  suffix existing <> prereleaseSuffix inputs ->
  incrementPrerelease version inputs
  = version ++ "-" ++ prereleaseSuffix inputs ++ "." ++ prereleaseNumber inputs
  /\ validateVersion (incrementPrerelease version inputs)
     = Throw (mkError ("Invalid version format: " ++ version ++ "-"
                       ++ prereleaseSuffix inputs ++ "." ++ prereleaseNumber inputs) None).
Proof.
  intros Hex Hne.
  assert (incrementPrerelease version inputs
          = version ++ "-" ++ prereleaseSuffix inputs ++ "." ++ prereleaseNumber inputs) as E.
  { unfold incrementPrerelease. rewrite Hex.
    apply String.eqb_neq in Hne. now rewrite Hne. }
  split; [exact E |]. rewrite E.
  unfold validateVersion.
  destruct (validVersionText
              (version ++ "-" ++ prereleaseSuffix inputs ++ "." ++ prereleaseNumber inputs))
    eqn:Hok; [| reflexivity].
  exfalso. apply validVersionText_shape, versionShape_hyphens in Hok.
  change (version ++ "-" ++ ?x) with (version ++ String "-" x) in Hok.
  rewrite split_app_any, length_app in Hok.
  assert (2 <= List.length (split "-" version))%nat as H2.
  { unfold parseExistingPrerelease in Hex.
    destruct (List.length (split "-" version) <? 2)%nat eqn:El; [discriminate |].
    apply Nat.ltb_ge in El. exact El. }
  pose proof (split_length_pos "-" (prereleaseSuffix inputs ++ "." ++ prereleaseNumber inputs)).
  lia.
Qed.

Lemma incrementPrerelease_changed_suffix_witness :
  parseExistingPrerelease "v2.0.0-alpha.3" = Some (mkExisting "alpha" (Num 3))
  /\ "alpha" <> "beta"
  /\ incrementPrerelease "v2.0.0-alpha.3" (mkPrereleaseInputs "beta" "1")
     = "v2.0.0-alpha.3-beta.1"
  /\ validateVersion (incrementPrerelease "v2.0.0-alpha.3" (mkPrereleaseInputs "beta" "1"))
     = Throw (mkError "Invalid version format: v2.0.0-alpha.3-beta.1" None).
Proof.
  split; [reflexivity |]. split; [discriminate |].
  apply (incrementPrerelease_changed_suffix "v2.0.0-alpha.3"
           (mkPrereleaseInputs "beta" "1") (mkExisting "alpha" (Num 3)));
    [reflexivity | discriminate].
Defined.

(** ** compareVersions as an order *)

(** What the sign of [compareVersions] means. *)
Lemma compareVersions_cases localeCompare (a b : string) :
  let v1 := parseVersion a in
  let v2 := parseVersion b in
  let r := compareVersions localeCompare a b in
  (tripleLt v1 v2 /\ r < 0)
  \/ (tripleLt v2 v1 /\ 0 < r)
  \/ (sameTriple v1 v2
      /\ r = if hasPrerelease v1 && hasPrerelease v2
             then localeCompare (default "" (prerelease v1)) (default "" (prerelease v2))
             else if hasPrerelease v1 then -1
             else if hasPrerelease v2 then 1
             else 0).
Proof.
  intros v1 v2 r.
  destruct (compareVersions_differ localeCompare a b) as (H1 & H2 & H3).
  pose proof (subtract_sign a b major (or_introl eq_refl)) as S1.
  pose proof (subtract_sign a b minor (or_intror (or_introl eq_refl))) as S2.
  pose proof (subtract_sign a b patch (or_intror (or_intror eq_refl))) as S3.
  cbv zeta in S1, S2, S3.
  fold v1 v2 r in H1, H2, H3, S1, S2, S3. unfold tripleLt, sameTriple.
  destruct (Z.eq_dec (major v1) (major v2)) as [E1 | N1];
    [| specialize (H1 N1); lia].
  destruct (Z.eq_dec (minor v1) (minor v2)) as [E2 | N2];
    [| specialize (H2 E1 N2); lia].
  destruct (Z.eq_dec (patch v1) (patch v2)) as [E3 | N3];
    [| specialize (H3 E1 E2 N3); lia].
  right; right. split; [now repeat split |].
  now apply compareVersions_same_triple.
Qed.

(** X10.  With a collation that changes sign when its arguments are
    swapped, so does [compareVersions], for every pair of texts. *)
Theorem compareVersions_antisymmetric (localeCompare : string -> string -> Z) :
  (forall s t, localeCompare t s = - localeCompare s t) ->
  forall a b,
    compareVersions localeCompare b a = - compareVersions localeCompare a b.
Proof.
  intros Hanti a b.
  destruct (compareVersions_differ localeCompare a b) as (H1 & H2 & H3).
  destruct (compareVersions_differ localeCompare b a) as (K1 & K2 & K3).
  destruct (Z.eq_dec (major (parseVersion a)) (major (parseVersion b))) as [E1 | N1];
    [| rewrite H1, K1 by congruence; now apply subtract_opp].
  destruct (Z.eq_dec (minor (parseVersion a)) (minor (parseVersion b))) as [E2 | N2];
    [| rewrite H2, K2 by congruence; now apply subtract_opp].
  destruct (Z.eq_dec (patch (parseVersion a)) (patch (parseVersion b))) as [E3 | N3];
    [| rewrite H3, K3 by congruence; now apply subtract_opp].
  rewrite !compareVersions_same_triple by (repeat split; congruence).
  destruct (hasPrerelease (parseVersion a)), (hasPrerelease (parseVersion b));
    cbn [andb]; first [apply Hanti | reflexivity].
Qed.

Lemma codeUnitCompare_antisym s t : codeUnitCompare t s = - codeUnitCompare s t.
Proof.
  unfold codeUnitCompare. rewrite (String.compare_antisym s t).
  destruct (String.compare t s); reflexivity.
Qed.

Lemma compareVersions_antisymmetric_witness :
  (forall s t, codeUnitCompare t s = - codeUnitCompare s t)
  /\ forall a b,
       compareVersions codeUnitCompare b a = - compareVersions codeUnitCompare a b.
Proof.
  split; [exact codeUnitCompare_antisym |].
  apply (compareVersions_antisymmetric codeUnitCompare codeUnitCompare_antisym).
Defined.

(** X11.  With a collation that is transitive, [compareVersions] is
    transitive: a version that comes before a second one that comes before
    a third comes before the third, for all texts. *)
Theorem compareVersions_transitive (localeCompare : string -> string -> Z) :
  (forall s t u, localeCompare s t < 0 -> localeCompare t u < 0 -> localeCompare s u < 0) ->
  forall a b c,
    compareVersions localeCompare a b < 0 ->
    compareVersions localeCompare b c < 0 ->
    compareVersions localeCompare a c < 0.
Proof.
  intros Htrans a b c Hab Hbc.
  pose proof (compareVersions_cases localeCompare a b) as Cab.
  pose proof (compareVersions_cases localeCompare b c) as Cbc.
  pose proof (compareVersions_cases localeCompare a c) as Cac.
  cbv zeta in Cab, Cbc, Cac. unfold tripleLt, sameTriple in *.
  set (va := parseVersion a) in *. set (vb := parseVersion b) in *.
  set (vc := parseVersion c) in *.
  destruct Cab as [[Tab _] | [[_ ?] | [Sab Rab]]]; [| lia |];
    destruct Cbc as [[Tbc _] | [[_ ?] | [Sbc Rbc]]]; try lia;
    destruct Cac as [[_ ?] | [[Tac _] | [Sac Rac]]]; try assumption; try lia.
  rewrite Rac. rewrite Rab in Hab. rewrite Rbc in Hbc.
  destruct (hasPrerelease va), (hasPrerelease vb), (hasPrerelease vc);
    cbn [andb] in *; try lia.
  eapply Htrans; eassumption.
Qed.

Lemma ascii_compare_lt_trans (x y z : ascii) :
  Ascii.compare x y = Lt -> Ascii.compare y z = Lt -> Ascii.compare x z = Lt.
Proof.
  unfold Ascii.compare. rewrite !N.compare_lt_iff. lia.
Qed.

Lemma ascii_compare_eq (x y : ascii) : Ascii.compare x y = Eq -> x = y.
Proof.
  unfold Ascii.compare. intros H%N.compare_eq.
  rewrite <- (ascii_N_embedding x), <- (ascii_N_embedding y). now f_equal.
Qed.

Lemma string_compare_lt_trans (s t u : string) :
  String.compare s t = Lt -> String.compare t u = Lt -> String.compare s u = Lt.
Proof.
  revert t u. induction s as [| x s IH]; intros [| y t] [| z u]; simpl;
    try discriminate; try reflexivity.
  destruct (Ascii.compare x y) eqn:Exy; try discriminate;
    destruct (Ascii.compare y z) eqn:Eyz; try discriminate; intros Hst Htu.
  - apply ascii_compare_eq in Exy as ->, Eyz as ->.
    assert (Ascii.compare z z = Eq) as -> by (unfold Ascii.compare; apply N.compare_refl).
    now apply (IH t u).
  - apply ascii_compare_eq in Exy as ->. now rewrite Eyz.
  - apply ascii_compare_eq in Eyz as ->. now rewrite Exy.
  - now rewrite (ascii_compare_lt_trans x y z).
Qed.

Lemma codeUnitCompare_trans s t u :
  codeUnitCompare s t < 0 -> codeUnitCompare t u < 0 -> codeUnitCompare s u < 0.
Proof.
  unfold codeUnitCompare.
  destruct (String.compare s t) eqn:Est; try lia.
  destruct (String.compare t u) eqn:Etu; try lia.
  now rewrite (string_compare_lt_trans s t u).
Qed.

Lemma compareVersions_transitive_witness :
  (forall s t u,
     codeUnitCompare s t < 0 -> codeUnitCompare t u < 0 -> codeUnitCompare s u < 0)
  /\ compareVersions codeUnitCompare "v1.0.0-alpha.1" "v1.0.0-beta.1" < 0
  /\ compareVersions codeUnitCompare "v1.0.0-beta.1" "v1.0.0" < 0
  /\ compareVersions codeUnitCompare "v1.0.0-alpha.1" "v1.0.0" < 0.
Proof.
  split; [exact codeUnitCompare_trans |]. split; [reflexivity |]. split; [reflexivity |].
  apply (compareVersions_transitive codeUnitCompare codeUnitCompare_trans
           "v1.0.0-alpha.1" "v1.0.0-beta.1" "v1.0.0"); reflexivity.
Defined.

(** ** utils.js: labels, triggers and inputs *)

Lemma includes_In (l : list string) (x : string) : includes l x = true <-> In x l.
Proof.
  unfold includes. rewrite existsb_exists. split.
  - intros (y & Hin & ->%String.eqb_eq). exact Hin.
  - intros Hin. exists x. split; [exact Hin | apply String.eqb_refl].
Qed.

Lemma includes_same (l l' : list string) (x : string) :
  (forall y, In y l <-> In y l') -> includes l x = includes l' x.
Proof.
  intros H. destruct (includes l x) eqn:E, (includes l' x) eqn:E'; try reflexivity.
  - apply includes_In, H, includes_In in E. congruence.
  - apply includes_In, H, includes_In in E'. congruence.
Qed.

Lemma parseLabels_pr_merge {W : Type} (getInput : string -> string)
    (getBooleanInput : string -> result bool) (context : Context)
    (inputs : Inputs) (w : W) :
  parseLabels getInput getBooleanInput context inputs "pr-merge" w
  = mkOutcome
      (Ok (if includes (labelNames context) (majorLabel inputs) then "major"
           else if includes (labelNames context) (minorLabel inputs) then "minor"
           else if includes (labelNames context) (patchLabel inputs) then "patch"
           else "none",
           includes (labelNames context) (prereleaseLabel inputs)))
      w [Info ("PR labels: " ++ join ", " (labelNames context))].
Proof.
  unfold parseLabels, labelNames. cbn [String.eqb Ascii.eqb Bool.eqb].
  destruct (pull_request context) as [pr |]; [destruct (labels pr) |]; reflexivity.
Qed.

(** X12.  For a merged pull request [parseLabels] never throws, leaves the
    world as it is and logs the labels; the release type is the highest of
    major, minor and patch whose label is on the pull request, and [none]
    when none is; the prerelease flag tells whether the prerelease label is
    there; and the result depends on the set of labels only, not on their
    order or repetition. *)
Theorem parseLabels_precedence {W : Type} (getInput : string -> string)
    (getBooleanInput : string -> result bool) (context : Context)
    (inputs : Inputs) (w : W) :
  let names := labelNames context in
  let o := parseLabels getInput getBooleanInput context inputs "pr-merge" w in
  final o = w
  /\ emitted o = [Info ("PR labels: " ++ join ", " names)]
  /\ (exists releaseType isPrerelease,
        res o = Ok (releaseType, isPrerelease)
        /\ (isPrerelease = true <-> In (prereleaseLabel inputs) names)
        /\ (In (majorLabel inputs) names -> releaseType = "major")
        /\ (~ In (majorLabel inputs) names -> In (minorLabel inputs) names ->
            releaseType = "minor")
        /\ (~ In (majorLabel inputs) names -> ~ In (minorLabel inputs) names ->
            In (patchLabel inputs) names -> releaseType = "patch")
        /\ (~ In (majorLabel inputs) names -> ~ In (minorLabel inputs) names ->
            ~ In (patchLabel inputs) names -> releaseType = "none"))
  /\ (forall context' (w' : W),
        (forall name, In name names <-> In name (labelNames context')) ->
        res (parseLabels getInput getBooleanInput context' inputs "pr-merge" w') = res o).
Proof.
  intros names o. unfold o. rewrite parseLabels_pr_merge. cbn [res final emitted].
  fold names. split; [reflexivity |]. split; [reflexivity |]. split.
  - do 2 eexists. split; [reflexivity |]. split; [apply includes_In |].
    rewrite <- !includes_In. fold names.
    destruct (includes names (majorLabel inputs)),
      (includes names (minorLabel inputs)),
      (includes names (patchLabel inputs)); repeat split; congruence.
  - intros context' w' Hsame. rewrite parseLabels_pr_merge. cbn [res].
    rewrite <- !(includes_same names (labelNames context')) by exact Hsame.
    reflexivity.
Qed.

(** X13.  A trigger mode other than [pr-merge], [manual] and
    [workflow-call] releases nothing: [parseLabels] returns the release type
    [none] without reading an input, logging a line or throwing.  With the
    mode left to [auto-detect] that is the case of every event but a merged
    pull request, a workflow dispatch and a workflow call: a push, to the
    main branch or not, is detected as [push-main] or [unknown] and gives
    [none]. *)
Theorem unrecognised_trigger_releases_nothing {W : Type} (getInput : string -> string)
    (getBooleanInput : string -> result bool) (context : Context)
    (inputs : Inputs) (w : W) :
  let mode := detectTriggerMode (triggerMode inputs) context in
  (mode <> "pr-merge" -> mode <> "manual" -> mode <> "workflow-call" ->
   parseLabels getInput getBooleanInput context inputs mode w
   = mkOutcome (Ok ("none", false)) w [])
  /\ (triggerMode inputs = "auto-detect" ->
      eventName context <> "workflow_dispatch" ->
      eventName context <> "workflow_call" ->
      (forall pr, eventName context = "pull_request" ->
         pull_request context = Some pr -> merged pr = false) ->
      (mode = "push-main" \/ mode = "unknown")
      /\ parseLabels getInput getBooleanInput context inputs mode w
         = mkOutcome (Ok ("none", false)) w []).
Proof.
  intros mode.
  assert (mode <> "pr-merge" -> mode <> "manual" -> mode <> "workflow-call" ->
          parseLabels getInput getBooleanInput context inputs mode w
          = mkOutcome (Ok ("none", false)) w []) as Hnone.
  { intros H1%String.eqb_neq H2%String.eqb_neq H3%String.eqb_neq.
    unfold parseLabels. now rewrite H1, H2, H3. }
  split; [exact Hnone |].
  intros Hauto Hd%String.eqb_neq Hc%String.eqb_neq Hpr.
  assert (mode = "push-main" \/ mode = "unknown") as Hmode.
  { unfold mode, detectTriggerMode. rewrite Hauto, Hd, Hc.
    cbn [String.eqb Ascii.eqb Bool.eqb negb].
    destruct (String.eqb_spec (eventName context) "pull_request") as [E | _].
    - destruct (pull_request context) as [pr |] eqn:Epr.
      + rewrite (Hpr pr E eq_refl). cbn [andb].
        rewrite E. cbn. now right.
      + cbn [andb]. rewrite E. cbn. now right.
    - cbn [andb]. destruct (_ && _); auto. }
  split; [exact Hmode |].
  apply Hnone; destruct Hmode as [-> | ->]; discriminate.
Qed.

(** A push to the main branch is detected, and releases nothing. *)
Example push_to_main_releases_nothing (getInput : string -> string)
    (getBooleanInput : string -> result bool) (inputs : Inputs) :
  let context := mkContext "push" None "refs/heads/main" (mkRepoRef "octo" "project") in
  detectTriggerMode "auto-detect" context = "push-main"
  /\ parseLabels getInput getBooleanInput context inputs "push-main" tt
     = mkOutcome (Ok ("none", false)) tt [].
Proof. split; reflexivity. Qed.

(** X14.  [validateInputs] accepts the inputs exactly when the token is not
    empty and the package manager is one of npm, yarn and pnpm; otherwise
    it throws one error whose message lists every failed check, the token
    first. *)
Theorem validateInputs_reports (inputs : Inputs) :
  let manager := In (packageManager inputs) ["npm"; "yarn"; "pnpm"] in
  (validateInputs inputs = Ok tt <-> githubToken inputs <> "" /\ manager)
  /\ (githubToken inputs = "" -> manager ->
      validateInputs inputs
      = Throw (mkError "Invalid inputs: github-token is required" None))
  /\ (githubToken inputs <> "" -> ~ manager ->
      validateInputs inputs
      = Throw (mkError "Invalid inputs: package-manager must be one of: npm, yarn, pnpm" None))
  /\ (githubToken inputs = "" -> ~ manager ->
      validateInputs inputs
      = Throw (mkError "Invalid inputs: github-token is required, package-manager must be one of: npm, yarn, pnpm" None)).
Proof.
  intros manager. unfold manager, validateInputs.
  rewrite <- includes_In.
  destruct (githubToken inputs) as [| c token];
    destruct (includes ["npm"; "yarn"; "pnpm"] (packageManager inputs));
    cbn; repeat split; try congruence; try tauto; intros; try discriminate;
    try (exfalso; tauto); intuition congruence.
Qed.

(** ** release.js: the calls to the API *)

Lemma createRelease_outcome {W : Type} (octokit : Octokit W) (repo : RepoRef)
    (options : ReleaseOptions) (w : W) :
  createRelease octokit repo options w
  = let answer := rest_createRelease octokit (releaseParams repo options) w in
    mkOutcome (fst answer) (snd answer)
      ([Info ("Creating release: " ++ ro_name options);
        Api (CreateRelease (releaseParams repo options)) (isOk (fst answer))]
       ++ match fst answer with
          | Ok _ => []
          | Throw error => [LogError ("Failed to create release: " ++ message error)]
          end).
Proof.
  cbv zeta. unfold createRelease, tryCatch, bind, info, logError, emit,
    api_createRelease, external, throw, ret.
  fold (releaseParams repo options). cbv beta zeta. cbn [res final emitted].
  destruct (rest_createRelease octokit (releaseParams repo options) w)
    as [[release | error] w']; reflexivity.
Qed.

(** X15.  [createRelease] makes exactly one call to the API, for a release
    that is never a draft and carries the tag, name, body and prerelease
    flag it was given; it returns what the API answered; and when the API
    fails it logs the error once and throws that same error again. *)
Theorem createRelease_rethrows {W : Type} (octokit : Octokit W) (repo : RepoRef)
    (options : ReleaseOptions) (w : W) :
  let answer := rest_createRelease octokit (releaseParams repo options) w in
  let o := createRelease octokit repo options w in
  res o = fst answer
  /\ final o = snd answer
  /\ emitted o
     = ([Info ("Creating release: " ++ ro_name options);
         Api (CreateRelease (releaseParams repo options)) (isOk (fst answer))]
        ++ match fst answer with
           | Ok _ => []
           | Throw error => [LogError ("Failed to create release: " ++ message error)]
           end)%list
  /\ rp_draft (releaseParams repo options) = false.
Proof.
  cbv zeta. rewrite createRelease_outcome. cbv zeta. now repeat split.
Qed.

(** X16.  [getReleaseByTag] makes one call to the API and logs nothing: it
    returns the release the API answered, [null] when the API fails with
    status 404, and throws again any other error. *)
Theorem getReleaseByTag_not_found {W : Type} (octokit : Octokit W) (repo : RepoRef)
    (tag : string) (w : W) :
  let answer := rest_getReleaseByTag octokit repo tag w in
  let o := getReleaseByTag octokit repo tag w in
  res o
  = match fst answer with
    | Ok data => Ok data
    | Throw error => if bool_decide (status error = Some 404) then Ok None else Throw error
    end
  /\ final o = snd answer
  /\ emitted o = [Api (GetReleaseByTag repo tag) (isOk (fst answer))].
Proof.
  cbv zeta. unfold getReleaseByTag, tryCatch, bind, api_getReleaseByTag,
    external, throw, ret. cbv beta zeta. cbn [res final emitted].
  destruct (rest_getReleaseByTag octokit repo tag w) as [[data | error] w']; cbn;
    [repeat split |].
  destruct (bool_decide (status error = Some 404)); cbn; repeat split.
Qed.

Example getReleaseByTag_in_memory :
  let w := emptyWorld [] in
  let repo := mkRepoRef "octo" "project" in
  res (getReleaseByTag worldOctokit repo "v1" w) = Ok None
  /\ exists release w',
       rest_createRelease worldOctokit
         (mkReleaseParams repo "v1" "v1" "notes" false false) w = (Ok release, w')
       /\ res (getReleaseByTag worldOctokit repo "v1" w') = Ok (Some release).
Proof. split; [reflexivity |]. do 2 eexists. split; reflexivity. Qed.

(** X17.  [deleteMajorReleaseIfExists] deletes nothing but the release it
    found under the major tag: a deletion is called for only when the
    lookup answered with a release, in the same repository and with the id
    of that release; when the lookup answers with no release nothing else
    happens, and when it fails the only other event is the line (status
    404) or the warning that tells so. *)
Theorem deleteMajorReleaseIfExists_target {W : Type} (octokit : Octokit W)
    (repo : RepoRef) (majorVersion : string) (w : W) :
  let lookup := rest_getReleaseByTag octokit repo majorVersion w in
  let o := deleteMajorReleaseIfExists octokit repo majorVersion w in
  let line := fun error =>
    if bool_decide (status error = Some 404)
    then Info ("Major release " ++ majorVersion ++ " doesn't exist, creating new one")
    else Warning ("Error checking for existing major release: " ++ message error) in
  (forall r id ok, In (Api (DeleteRelease r id) ok) (emitted o) ->
     r = repo /\ exists found, fst lookup = Ok (Some found) /\ id = release_id found)
  /\ (forall found, fst lookup = Ok (Some found) ->
        let deletion := rest_deleteRelease octokit repo (release_id found) (snd lookup) in
        final o = snd deletion
        /\ emitted o
           = ([Api (GetReleaseByTag repo majorVersion) true;
               Info ("Deleting existing major release: " ++ majorVersion);
               Api (DeleteRelease repo (release_id found)) (isOk (fst deletion))]
              ++ match fst deletion with
                 | Ok _ => []
                 | Throw error => [line error]
                 end)%list)
  /\ (fst lookup = Ok None ->
      final o = snd lookup /\ emitted o = [Api (GetReleaseByTag repo majorVersion) true])
  /\ (forall error, fst lookup = Throw error ->
        final o = snd lookup
        /\ emitted o = [Api (GetReleaseByTag repo majorVersion) false; line error]).
Proof.
  cbv zeta. unfold deleteMajorReleaseIfExists, tryCatch, bind, info, warning, emit,
    api_getReleaseByTag, api_deleteRelease, external, ret.
  cbv beta zeta. cbn [res final emitted].
  destruct (rest_getReleaseByTag octokit repo majorVersion w)
    as [[[found |] | error] w1]; cbn [res final emitted fst snd app isOk].
  - destruct (rest_deleteRelease octokit repo (release_id found) w1)
      as [[[] | error] w2] eqn:Ed; cbn [res final emitted fst snd app isOk].
    + split; [| split; [| split]]; try discriminate.
      * intros r id ok [H | [H | [H | []]]]; try discriminate.
        injection H as <- <- <-. split; [reflexivity |]. now exists found.
      * intros found' [= <-]. rewrite Ed. now split.
    + destruct (bool_decide (status error = Some 404)) eqn:Eb; cbn [res final emitted app];
        (split; [| split; [| split]]; try discriminate;
         [ intros r id ok [H | [H | [H | [H | []]]]]; try discriminate;
           injection H as <- <- <-; split; [reflexivity |]; now exists found
         | intros found' [= <-]; rewrite Ed; cbn [fst snd isOk]; rewrite Eb; now split ]).
  - split; [| split; [| split]]; try discriminate.
    + intros r id ok [H | []]; discriminate.
    + intros _. now split.
  - destruct (bool_decide (status error = Some 404)) eqn:Eb; cbn [res final emitted app];
      (split; [| split; [| split]]; try discriminate;
       [ intros r id ok [H | [H | []]]; discriminate
       | intros error' [= <-]; rewrite Eb; now split ]).
Qed.

(** ** copyReleaseAssets: the uploads *)

(** X18.  [copyReleaseAssets] uploads what it downloaded and nothing else.
    The uploads it attempts are exactly those of [assetUploads]: the assets
    of the source release are taken in order, each is downloaded in the
    world that the copies before it left, an asset whose download fails is
    skipped, and every other asset gets one upload, which carries the data
    that its download answered, to the target release, in the same
    repository, under the name, the content type and the size of the
    asset.  Hence the uploads are, in order, those of the assets whose
    download succeeded, and each carries data that a download of its asset
    answered. *)
Theorem copyReleaseAssets_uploads {W : Type} (octokit : Octokit W) (repo : RepoRef)
    (source target : Release) (w : W) :
  let events := emitted (copyReleaseAssets octokit repo source target w) in
  uploads events = assetUploads octokit repo target (default [] (assets source)) w
  /\ exists copied,
       sublist copied (default [] (assets source))
       /\ map asset_id copied = downloaded events
       /\ Forall2 (copies octokit repo target) copied (uploads events).
Proof.
  cbv zeta.
  pose proof (copyReleaseAssets_run octokit repo source target w) as (Hexact & Hcopied & _).
  now split.
Qed.

(** ** No release without its tag *)

Lemma pushedTags_app (a b : list Event) :
  pushedTags (a ++ b) = (pushedTags a ++ pushedTags b)%list.
Proof. apply flat_map_app. Qed.

Lemma followsPush_app pushed (a b : list Event) :
  followsPush pushed (a ++ b)
  <-> followsPush pushed a /\ followsPush (pushed ++ pushedTags a) b.
Proof.
  revert pushed. induction a as [| e a IH]; intros pushed.
  - cbn [app pushedTags flat_map followsPush]. rewrite app_nil_r. tauto.
  - cbn [app followsPush]. rewrite IH.
    change (pushedTags (e :: a)) with (pushedTags ([e] ++ a)).
    rewrite pushedTags_app, <- app_assoc. tauto.
Qed.

Lemma followsPush_app_intro pushed (a b : list Event) :
  followsPush pushed a -> followsPush (pushed ++ pushedTags a) b ->
  followsPush pushed (a ++ b).
Proof. intros Ha Hb. apply followsPush_app. now split. Qed.

Lemma followsPush_sound pushed (events : list Event) :
  followsPush pushed events ->
  forall before p ok after,
    events = (before ++ Api (CreateRelease p) ok :: after)%list ->
    In (rp_tag_name p) (pushed ++ pushedTags before).
Proof.
  intros H before p ok after ->.
  apply followsPush_app in H as [_ [H _]]. exact H.
Qed.

Lemma followsPush_quiet pushed (events : list Event) :
  Forall createsNoRelease events -> followsPush pushed events.
Proof.
  intros H. revert pushed. induction H as [| e l He _ IH]; intros pushed; [exact I |].
  cbn [followsPush]. split; [| apply IH].
  destruct e as [| | | | | | [] ?]; try exact I. discriminate.
Qed.

Lemma releasesFollowPush_intro (events : list Event) :
  followsPush [] events -> releasesFollowPush events.
Proof.
  intros H before p ok after E.
  exact (followsPush_sound [] events H before p ok after E).
Qed.

Ltac in_pushed :=
  first
    [ assumption
    | apply in_or_app; first [right; in_pushed | left; in_pushed] ].

(** A goal [followsPush pushed ev] on the events met at the end of a path:
    the parts known to create no release, the single events, and for the
    creation of a release its tag among those pushed. *)
Ltac follows :=
  repeat match goal with
    | |- followsPush _ (_ ++ _) => apply followsPush_app_intro
    | |- followsPush _ [] => exact I
    | |- followsPush _ (_ :: _) => cbn [followsPush]; split
    | |- True => exact I
    | H : forall pushed, followsPush pushed ?ev |- followsPush _ ?ev => apply H
    | H : forall pushed, In _ pushed -> followsPush pushed ?ev |- followsPush _ ?ev =>
        apply H
    | |- followsPush _ _ => apply followsPush_quiet; assumption
    | |- In _ _ => rewrite ?pushedTags_app; cbn [rp_tag_name ro_tagName]; in_pushed
    end.

Ltac creates_nothing := events; reflexivity.

Section FollowPush.

Context {W : Type}.
Variable execSync : GitCmd -> W -> result unit * W.
Variable octokit : Octokit W.
Variable repo : RepoRef.

Lemma createAndPushTag_pushes (newVersion : string) (w : W) :
  post (createAndPushTag execSync newVersion) w
    (fun r _ ev =>
       Forall createsNoRelease ev
       /\ (isOk r = true -> In (Exec (GitPushTag newVersion) true) ev)
       /\ (isOk r = true -> In newVersion (pushedTags ev))).
Proof.
  unfold createAndPushTag. effects_unfold. wp.
  all: split; [creates_nothing |].
  all: split; intros H; try discriminate; cbn; auto 20.
Qed.

Lemma updateMajorVersionTag_pushes (majorVersion fullVersion : string) (w : W) :
  post (updateMajorVersionTag execSync majorVersion fullVersion) w
    (fun r _ ev =>
       Forall createsNoRelease ev /\ (isOk r = true -> In majorVersion (pushedTags ev))).
Proof.
  unfold updateMajorVersionTag. effects_unfold. wp.
  all: split; [creates_nothing |].
  all: intros H; try discriminate; cbn; auto 20.
Qed.

Lemma deleteMajorReleaseIfExists_creates_nothing (majorVersion : string) :
  safe createsNoRelease (deleteMajorReleaseIfExists octokit repo majorVersion).
Proof.
  unfold deleteMajorReleaseIfExists. effects_unfold.
  apply safe_tryCatch.
  - repeat emits_step; reflexivity.
  - intros e. repeat safe_step; reflexivity.
Qed.

Lemma copyReleaseAssets_creates_nothing (source target : Release) :
  safe createsNoRelease (copyReleaseAssets octokit repo source target).
Proof.
  unfold copyReleaseAssets, copyOneAsset. effects_unfold.
  apply safe_tryCatch.
  - destruct (assets source) as [[| a l] |].
    + repeat emits_step; reflexivity.
    + apply emits_bind; [apply emits_emit; reflexivity | intros _].
      apply emits_forEach. intros b. apply safe_emits. apply safe_tryCatch.
      * repeat emits_step; reflexivity.
      * intros e. repeat safe_step; reflexivity.
    + repeat emits_step; reflexivity.
  - intros e. repeat safe_step; reflexivity.
Qed.

Lemma createRelease_follows (options : ReleaseOptions) (w : W) :
  post (createRelease octokit repo options) w
    (fun r _ ev =>
       forall pushed, In (ro_tagName options) pushed -> followsPush pushed ev).
Proof.
  unfold createRelease. effects_unfold.
  wp; intros pushed Hin; cbn; rewrite app_nil_r; auto.
Qed.

(** The major release is created only after the major tag was pushed; and
    without the original release it is not created at all. *)
Lemma createMajorRelease_follows (options : MajorReleaseOptions) (w : W) :
  post (createMajorRelease execSync octokit repo options) w
    (fun r _ ev =>
       (exists release, r = Ok release)
       /\ (forall pushed, followsPush pushed ev)
       /\ (mo_originalRelease options = None ->
           r = Ok None /\ Forall createsNoRelease ev)).
Proof.
  unfold createMajorRelease. effects_unfold.
  apply post_tryCatch. wp_step. wp_step. cbv beta iota.
  eapply post_bind_post; [apply updateMajorVersionTag_pushes |].
  intros [[] | e] w1 ev1 [C1 P1].
  2: { wp. split; [now eexists |]. split.
       - intros pushed. follows.
       - intros _. split; [reflexivity |]. creates_nothing. }
  specialize (P1 eq_refl).
  eapply post_bind_safe; [apply deleteMajorReleaseIfExists_creates_nothing |].
  intros [] w2 ev2 C2.
  wp_step. wp_step.
  2: { wp. split; [now eexists |]. split.
       - intros pushed. follows.
       - intros _. split; [reflexivity |]. creates_nothing. }
  wp_step. wp_step.
  2: { wp. split; [now eexists |]. split; [| intros H; rewrite H in *; discriminate].
       intros pushed. follows. }
  cbv beta iota. apply post_bind.
  destruct (mo_copyAssets options), (mo_originalRelease options) as [original |] eqn:Eo;
    try discriminate.
  - eapply post_conseq; [apply post_safe, copyReleaseAssets_creates_nothing |].
    intros r w3 ev3 [[[] ->] C3]. wp.
    split; [now eexists |]. split; [| discriminate]. intros pushed. follows.
  - wp. split; [now eexists |]. split; [| discriminate]. intros pushed. follows.
Qed.

End FollowPush.

(** X19.  Without the original release [createMajorRelease] creates no
    release: it returns [null] after a warning, and none of its calls to the
    API creates a release, whatever git and the API do (the major tag may
    have been moved by then). *)
Theorem createMajorRelease_needs_original {W : Type}
    (execSync : GitCmd -> W -> result unit * W) (octokit : Octokit W)
    (repo : RepoRef) (options : MajorReleaseOptions) (w : W) :
  mo_originalRelease options = None ->
  let o := createMajorRelease execSync octokit repo options w in
  res o = Ok None
  /\ Forall (fun e => createsRelease e = false) (emitted o)
  /\ exists msg,
       last (emitted o) = Some (Warning ("Failed to create major version release: " ++ msg)).
Proof.
  intros Hnone o.
  pose proof (createMajorRelease_follows execSync octokit repo options w) as (_ & _ & H).
  destruct (H Hnone) as [R C]. fold o in R, C.
  split; [exact R |]. split; [exact C |].
  pose proof (createMajorRelease_outcome execSync octokit repo options w)
    as [(rel & R' & _) | [_ Hlast]].
  - fold o in R'. congruence.
  - exact Hlast.
Qed.

Lemma createMajorRelease_needs_original_witness :
  let options := mkMajorReleaseOptions "v2" "v2.1.0" None true in
  let o := createMajorRelease worldExec worldOctokit (mkRepoRef "octo" "project")
             options (emptyWorld []) in
  mo_originalRelease options = None
  /\ res o = Ok None
  /\ Forall (fun e => createsRelease e = false) (emitted o)
  /\ exists msg,
       last (emitted o) = Some (Warning ("Failed to create major version release: " ++ msg)).
Proof.
  split; [reflexivity |].
  apply (createMajorRelease_needs_original worldExec worldOctokit
           (mkRepoRef "octo" "project") (mkMajorReleaseOptions "v2" "v2.1.0" None true)
           (emptyWorld [])).
  reflexivity.
Defined.

Section RunFollowsPush.

Context {W : Type}.
Variable execSync : GitCmd -> W -> result unit * W.
Variable getInput : string -> string.
Variable getBooleanInput : string -> result bool.
Variable context : Context.
Variable host : @Collaborators W.

Lemma readInputs_creates_nothing :
  emits createsNoRelease (@readInputs W getInput getBooleanInput).
Proof. unfold readInputs. repeat emits_step. Qed.

Lemma parseLabels_creates_nothing (inputs : Inputs) (mode : string) :
  emits createsNoRelease (@parseLabels W getInput getBooleanInput context inputs mode).
Proof. unfold parseLabels. effects_unfold. repeat emits_step; reflexivity. Qed.

Lemma majorStep_follows octokit inputs isPrerelease newVersion release (w : W) :
  post (majorStep execSync context octokit inputs isPrerelease newVersion release) w
    (fun r _ ev => r = Ok tt /\ forall pushed, followsPush pushed ev).
Proof.
  unfold majorStep.
  destruct (baseRelease inputs && negb isPrerelease);
    [| apply post_ret; split; [reflexivity | intros; exact I]].
  eapply post_bind_post; [apply createMajorRelease_follows |].
  intros r w1 ev1 ([[major |] ->] & H1 & _); effects_unfold; wp;
    (split; [reflexivity |]); intros pushed; follows.
Qed.

Ltac follow_step :=
  first
    [ wp_step
    | lazymatch goal with
      | |- post (readInputs _ _) _ _ =>
          eapply post_emits; [apply readInputs_creates_nothing | intros [? | ?] ? ? ?]
      | |- post (parseLabels _ _ _ _ _) _ _ =>
          eapply post_emits;
          [apply parseLabels_creates_nothing | intros [[? ?] | ?] ? ? ?]
      | |- post (createAndPushTag _ _) _ _ =>
          eapply post_conseq;
          [apply createAndPushTag_pushes | intros [[] | ?] ? ? (? & _ & ?)]
      | |- post (createRelease _ _ _) _ _ =>
          eapply post_conseq;
          [apply createRelease_follows | intros [? | ?] ? ? ?]
      | |- post (majorStep _ _ _ _ _ _ _) _ _ =>
          eapply post_conseq;
          [apply majorStep_follows | intros ? ? ? (-> & ?)]
      end ].

Lemma run_follows (w : W) :
  post (run execSync getInput getBooleanInput context host) w
    (fun _ _ ev => followsPush [] ev).
Proof.
  unfold run. effects_unfold.
  repeat follow_step; cbv beta iota.
  all: repeat match goal with
         | H : isOk (Ok _) = true -> _ |- _ => specialize (H eq_refl)
         end.
  all: first [solve [apply followsPush_quiet; creates_nothing] | solve [follows]].
Qed.

End RunFollowsPush.

(** X20.  No release without its tag: in every run, and in every call of
    [createMajorRelease], each call to the API that creates a release comes
    after the successful push of the tag that the release names, whatever
    git, the API and the other collaborators do. *)
Theorem release_follows_tag_push {W : Type}
    (execSync : GitCmd -> W -> result unit * W) :
  (forall getInput getBooleanInput context (host : @Collaborators W) (w : W),
     releasesFollowPush (emitted (run execSync getInput getBooleanInput context host w)))
  /\ (forall (octokit : Octokit W) repo options (w : W),
        releasesFollowPush (emitted (createMajorRelease execSync octokit repo options w))).
Proof.
  split.
  - intros getInput getBooleanInput context host w.
    apply releasesFollowPush_intro.
    apply (run_follows execSync getInput getBooleanInput context host w).
  - intros octokit repo options w. apply releasesFollowPush_intro.
    apply (createMajorRelease_follows execSync octokit repo options w).
Qed.

(** When the remote refuses the version tag, no release is created. *)
Example refused_tag_creates_no_release :
  let o := manualRun "minor" "false" "true" "v2.0.3" (emptyWorld ["v2.1.0"]) in
  In (Exec (GitPushTag "v2.1.0") false) (emitted o)
  /\ existsb createsRelease (emitted o) = false
  /\ w_releases (final o) = []
  /\ last (emitted o)
     = Some (SetFailed "remote: error: GH006: Protected tag update failed").
Proof. vm_compute. repeat split; auto 40. Qed.

(** ** run: inputs, failures and outputs *)

Lemma post_trivial {W A} (m : M W A) (w : W) (Q : result A -> W -> list Event -> Prop) :
  (forall r w' ev, Q r w' ev) -> post m w Q.
Proof. intros H. apply H. Qed.

Lemma post_outcome {W A} (m : M W A) (w : W) (o : Outcome W A) :
  post m w (fun r w' ev => r = res o /\ w' = final o /\ ev = emitted o) -> m w = o.
Proof.
  unfold post. destruct (m w), o. cbn. now intros (-> & -> & ->).
Qed.

Lemma post_and {W A} (m : M W A) (w : W) (S1 S2 : result A -> W -> list Event -> Prop) :
  post m w S1 -> post m w S2 -> post m w (fun r w' ev => S1 r w' ev /\ S2 r w' ev).
Proof. unfold post. now split. Qed.

Lemma notOutput_notFailed e : notOutput e -> notFailed e.
Proof. now destruct e. Qed.

Lemma notOutput_not_announced e : notOutput e -> e <> SetOutput "released" "true".
Proof. intros H ->. exact H. Qed.

Ltac ends_with := rewrite ?app_nil_r, ?app_assoc; apply last_snoc.

Ltac find_event :=
  first
    [ assumption
    | apply in_eq
    | apply in_cons; find_event
    | apply in_or_app; left; find_event
    | apply in_or_app; right; find_event ].

Section RunInputs.

Context {W : Type}.
Variable execSync : GitCmd -> W -> result unit * W.
Variable getInput : string -> string.
Variable getBooleanInput : string -> result bool.
Variable context : Context.
Variable host : @Collaborators W.

(** Reading the inputs leaves the world as it is and emits nothing. *)
Lemma readInputs_pure (w : W) :
  final (@readInputs W getInput getBooleanInput w) = w
  /\ emitted (@readInputs W getInput getBooleanInput w) = [].
Proof.
  enough (post (@readInputs W getInput getBooleanInput) w
            (fun _ w' ev => w' = w /\ ev = [])) as H by exact H.
  unfold readInputs. wp; now split.
Qed.

Lemma readInputs_prerelease (w : W) (inputs : Inputs) :
  res (@readInputs W getInput getBooleanInput w) = Ok inputs ->
  i_prereleaseSuffix inputs = getInput "prerelease-suffix"
  /\ i_prereleaseNumber inputs = getInput "prerelease-number".
Proof.
  unfold readInputs.
  rewrite res_bind_liftResult.
  destruct (getRequiredInput getInput "github-token"); [| discriminate].
  rewrite res_bind_liftResult.
  destruct (getBooleanInput "create-major-release"); [| discriminate].
  rewrite res_bind_liftResult.
  destruct (getBooleanInput "base_release"); [| discriminate].
  rewrite res_bind_liftResult.
  destruct (getBooleanInput "copy-assets"); [| discriminate].
  rewrite res_bind_liftResult.
  destruct (getBooleanInput "auto-generate-notes"); [| discriminate].
  rewrite res_bind_liftResult.
  destruct (getBooleanInput "update-package-json"); [| discriminate].
  now intros [= <-].
Qed.

(** A run whose inputs cannot be read stops there. *)
Lemma run_bad_inputs (w : W) (error : Error) :
  res (@readInputs W getInput getBooleanInput w) = Throw error ->
  run execSync getInput getBooleanInput context host w
  = mkOutcome (Ok tt) w
      [LogError ("Action failed: " ++ message error); SetFailed (message error)].
Proof.
  intros Hres. destruct (readInputs_pure w) as [Hfinal Hev].
  apply post_outcome. cbn [res final emitted].
  unfold run. effects_unfold. apply post_tryCatch. apply post_bind.
  unfold post at 1. rewrite Hres, Hfinal, Hev. wp. now repeat split.
Qed.

Lemma createAndPushTag_plain (newVersion : string) :
  emits notOutput (createAndPushTag execSync newVersion).
Proof. unfold createAndPushTag. effects_unfold. repeat emits_step; exact I. Qed.

Lemma createRelease_plain (octokit : Octokit W) repo (options : ReleaseOptions) :
  emits notOutput (createRelease octokit repo options).
Proof. unfold createRelease. effects_unfold. repeat emits_step; exact I. Qed.

Lemma createRelease_trace (octokit : Octokit W) (repo : RepoRef)
    (options : ReleaseOptions) (w : W) :
  post (createRelease octokit repo options) w
    (fun r _ ev =>
       ev = ([Info ("Creating release: " ++ ro_name options);
              Api (CreateRelease (releaseParams repo options)) (isOk r)]
             ++ match r with
                | Ok _ => []
                | Throw error => [LogError ("Failed to create release: " ++ message error)]
                end)%list).
Proof. unfold post. now rewrite createRelease_outcome. Qed.

Lemma createAndPushTag_pushed (newVersion : string) (w : W) :
  post (createAndPushTag execSync newVersion) w
    (fun r _ ev =>
       Forall notOutput ev
       /\ (isOk r = true -> In (Exec (GitPushTag newVersion) true) ev)).
Proof.
  eapply post_conseq.
  - apply post_and;
      [ apply (post_emits notOutput _ _ (fun _ _ ev => Forall notOutput ev));
        [apply createAndPushTag_plain | auto]
      | apply createAndPushTag_pushes ].
  - cbv beta. intros r w' ev [H1 (_ & H2 & _)]. now split.
Qed.

End RunInputs.

(** X21.  A run whose inputs cannot be read fails at once: without the
    token, or with an input that is not a boolean where one is expected,
    the run logs the error, marks itself as failed with the same message,
    and does nothing else; the world is left as it was. *)
Theorem run_rejects_bad_inputs {W : Type}
    (execSync : GitCmd -> W -> result unit * W) (getInput : string -> string)
    (getBooleanInput : string -> result bool) (context : Context)
    (host : @Collaborators W) (w : W) :
  let failure := fun msg =>
    mkOutcome (Ok tt) w [LogError ("Action failed: " ++ msg); SetFailed msg] in
  (getInput "github-token" = "" ->
   run execSync getInput getBooleanInput context host w
   = failure "Input required and not supplied: github-token")
  /\ (forall name error,
        In name booleanInputs -> getBooleanInput name = Throw error ->
        exists msg, run execSync getInput getBooleanInput context host w = failure msg).
Proof.
  intros failure. split.
  - intros Htoken. unfold failure.
    apply (run_bad_inputs execSync getInput getBooleanInput context host w
             (mkError "Input required and not supplied: github-token" None)).
    unfold readInputs. rewrite res_bind_liftResult.
    unfold getRequiredInput. now rewrite Htoken.
  - intros name error Hin Hbad.
    assert (exists e, res (@readInputs W getInput getBooleanInput w) = Throw e) as [e He].
    { unfold readInputs.
      repeat (rewrite res_bind_liftResult;
              match goal with
              | |- exists e, match ?r with _ => _ end = _ =>
                  destruct r eqn:?; [| now eexists]
              end).
      exfalso. unfold booleanInputs in Hin. cbn [In] in Hin.
      decompose [or] Hin; try contradiction; subst name; congruence. }
    exists (message e).
    now apply (run_bad_inputs execSync getInput getBooleanInput context host w e).
Qed.

Section RunWithoutRelease.

Context {W : Type}.
Variable execSync : GitCmd -> W -> result unit * W.
Variable getInput : string -> string.
Variable getBooleanInput : string -> result bool.
Variable context : Context.
Variable host : @Collaborators W.

Lemma readInputs_inert : emits inert (@readInputs W getInput getBooleanInput).
Proof. unfold readInputs. repeat emits_step. Qed.

Lemma parseLabels_inert (inputs : Inputs) (mode : string) :
  emits inert (@parseLabels W getInput getBooleanInput context inputs mode).
Proof.
  unfold parseLabels. effects_unfold.
  repeat emits_step; split; [reflexivity | discriminate].
Qed.

Lemma readInputs_setup (w : W) (inputs : Inputs) :
  res (@readInputs W getInput getBooleanInput w) = Ok inputs ->
  githubToken inputs = getInput "github-token"
  /\ workingDirectory inputs = getInput "working-directory".
Proof.
  unfold readInputs.
  rewrite res_bind_liftResult. unfold getRequiredInput.
  destruct (nonEmpty (getInput "github-token")); [| discriminate].
  rewrite res_bind_liftResult.
  destruct (getBooleanInput "create-major-release"); [| discriminate].
  rewrite res_bind_liftResult.
  destruct (getBooleanInput "base_release"); [| discriminate].
  rewrite res_bind_liftResult.
  destruct (getBooleanInput "copy-assets"); [| discriminate].
  rewrite res_bind_liftResult.
  destruct (getBooleanInput "auto-generate-notes"); [| discriminate].
  rewrite res_bind_liftResult.
  destruct (getBooleanInput "update-package-json"); [| discriminate].
  now intros [= <-].
Qed.

(** Reading the labels leaves the world as it is. *)
Lemma parseLabels_still (inputs : Inputs) (mode : string) (w : W) :
  final (@parseLabels W getInput getBooleanInput context inputs mode w) = w.
Proof.
  enough (post (@parseLabels W getInput getBooleanInput context inputs mode) w
            (fun _ w' _ => w' = w)) as H by exact H.
  unfold parseLabels. effects_unfold. wp; reflexivity.
Qed.

Variable releaseType : string.
Variable isPrerelease : bool.
Hypothesis intent :
  releaseIntent getInput getBooleanInput context = Ok (releaseType, isPrerelease).
Hypothesis not_major : releaseType <> "major".
Hypothesis not_minor : releaseType <> "minor".
Hypothesis not_patch : releaseType <> "patch".

(** What was read is the intent, and no version is computed from it. *)
Ltac settle :=
  try match goal with
      | Hr : res (readInputs _ _ _) = Ok ?i,
        Hl : res (parseLabels _ _ _ ?i _ _) = Ok (?s, ?b) |- _ =>
          let Hi := fresh in
          pose proof (releaseIntent_intro getInput getBooleanInput context _ _ _ _ _ Hr Hl)
            as Hi;
          rewrite intent in Hi; injection Hi as <- <-; clear Hl
      end;
  try match goal with
      | Hc : calculateVersion _ releaseType _ _ = Ok _ |- _ =>
          rewrite calculateVersion_invalid in Hc by assumption; discriminate
      end.

Ltac idle_step :=
  first
    [ wp_step; settle
    | lazymatch goal with
      | |- post (readInputs _ _) _ _ =>
          eapply post_emits_res; [apply readInputs_inert | intros [? | ?] ? ? ? ?]
      | |- post (parseLabels _ _ _ _ _) _ _ =>
          eapply post_emits_res;
          [apply parseLabels_inert | intros [[? ?] | ?] ? ? ? ?; settle]
      end ].

Ltac all_inert :=
  repeat first
    [ apply Forall_app; split
    | apply List.Forall_cons
    | apply List.Forall_nil
    | assumption
    | split; [reflexivity | discriminate] ].

Lemma run_idle (w : W) :
  post (run execSync getInput getBooleanInput context host) w
    (fun _ _ ev =>
       Forall inert ev
       /\ ((releaseType = "none"
            /\ last ev = Some (SetOutput "release-type" "none")
            /\ In (SetOutput "released" "false") ev)
           \/ exists msg, last ev = Some (SetFailed msg))).
Proof.
  unfold run. effects_unfold.
  repeat idle_step; cbv beta iota.
  all: split; [solve [all_inert] |].
  all: first
         [ right; eexists; ends_with
         | left; split;
           [ match goal with H : String.eqb _ "none" = true |- _ =>
               now apply String.eqb_eq in H
             end
           | split; [ends_with | find_event] ] ].
Qed.

(** The inputs and the labels that the run reads are those of the intent. *)
Lemma releaseIntent_read (w : W) :
  exists inputs,
    res (@readInputs W getInput getBooleanInput w) = Ok inputs
    /\ forall w',
         res (@parseLabels W getInput getBooleanInput context inputs
                (detectTriggerMode (triggerMode inputs) context) w')
         = Ok (releaseType, isPrerelease).
Proof.
  pose proof intent as H. unfold releaseIntent, bind in H.
  rewrite <- (readInputs_world getInput getBooleanInput w tt) in H.
  destruct (res (@readInputs W getInput getBooleanInput w)) as [inputs | error] eqn:Hread.
  - exists inputs. split; [reflexivity |]. intros w'.
    cbn [res] in H. rewrite <- H.
    apply parseLabels_world.
  - cbn [res] in H. discriminate.
Qed.

Lemma last_two {A} (l : list A) (a b : A) : last (l ++ [a; b]) = Some b.
Proof. change [a; b] with ([a] ++ [b])%list. rewrite app_assoc. apply last_snoc. Qed.

Ltac idle_world_step :=
  cbv beta iota;
  lazymatch goal with
  | |- post (opaque _) _ _ => apply post_opaque_run
  | |- post (liftResult _) _ _ => apply post_liftResult
  | |- post (bind _ _) _ _ => apply post_bind
  | |- post (tryCatch _ _) _ _ => apply post_tryCatch
  | |- post (ret _) _ _ => apply post_ret
  | |- post (emit _) _ _ => apply post_emit
  end.

Ltac idle_tail :=
  cbn [fst snd];
  do 4 idle_world_step;
  match goal with
  | Hlabels : forall w', res (parseLabels _ _ _ ?inputs ?mode w') = _
    |- post (parseLabels _ _ _ ?inputs ?mode) ?w _ =>
      unfold post at 1; rewrite (Hlabels w), parseLabels_still
  end;
  cbv beta iota;
  destruct (String.eqb releaseType "none");
  [ repeat idle_world_step;
    split; [reflexivity | split; [ends_with | find_event]]
  | do 4 idle_world_step;
    match goal with
    | |- context [getLatestVersion host ?w] =>
        destruct (getLatestVersion host w) as [[latest | error] w3]
    end;
    cbn [fst snd];
    [ do 3 idle_world_step; cbv beta iota;
      rewrite calculateVersion_invalid by assumption |];
    repeat idle_world_step;
    (split; [reflexivity | ends_with]) ].

(** The worlds that an idle run goes through, and how it ends. *)
Lemma run_idle_world (w : W) :
  let start := runSetup host (getInput "github-token") (getInput "working-directory") w in
  let lookup := getLatestVersion host (snd start) in
  post (run execSync getInput getBooleanInput context host) w
    (fun _ w' ev =>
       match fst start with
       | Throw error => w' = snd start /\ last ev = Some (SetFailed (message error))
       | Ok _ =>
           if String.eqb releaseType "none" then
             w' = snd start
             /\ last ev = Some (SetOutput "release-type" "none")
             /\ In (SetOutput "released" "false") ev
           else
             w' = snd lookup
             /\ last ev
                = Some (SetFailed
                          match fst lookup with
                          | Ok _ => "Invalid release type: " ++ releaseType
                          | Throw error => message error
                          end)
       end).
Proof.
  cbv zeta. destruct (releaseIntent_read w) as (inputs & Hread & Hlabels).
  destruct (readInputs_setup w inputs Hread) as [<- <-].
  destruct (readInputs_pure getInput getBooleanInput w) as [Hfinal Hev].
  unfold run, runSetup. effects_unfold.
  apply post_tryCatch, post_bind. unfold post at 1. rewrite Hread, Hfinal, Hev.
  apply post_bind, post_opaque_run.
  destruct (getOctokit host (githubToken inputs) w) as [[octokit | error] w1];
    cbn [fst snd].
  2: { repeat idle_world_step. split; [reflexivity | ends_with]. }
  apply post_bind, post_emit, post_bind.
  destruct (negb (String.eqb (workingDirectory inputs) ".")).
  - apply post_bind, post_opaque_run.
    destruct (chdir host (workingDirectory inputs) w1) as [[[] | error] w2];
      cbn [fst snd].
    2: { repeat idle_world_step. split; [reflexivity | ends_with]. }
    idle_tail.
  - idle_tail.
Qed.

End RunWithoutRelease.

(** X22.  A run without a release type to act on runs none of the git
    commands of the release engine (the commands of [GitCmd]: the creation,
    the deletion and the push of a tag, and the push of the branch), calls
    the releases API not once and announces no release.  When the release
    type that [parseLabels] returns is none of major, minor and patch: no
    event of the run is such a command or an API call, and the output
    [released] is never [true].  The collaborators it calls are known from
    the world it leaves.  If the client factory or the change of
    directory throws, the run stops there, marked as failed with that error.
    Otherwise, for the type [none], nothing more is called and the run ends
    on the outputs [released] = [false] and [release-type] = [none]; for any
    other type the latest version is looked up (in main.js this fetches and
    lists the tags of the repository, commands that leave no event here),
    nothing is called after that, and the run ends marked as failed: with
    the error of the lookup if it threw, and else with
    [Invalid release type: <type>]. *)
Theorem run_without_release_type {W : Type}
    (execSync : GitCmd -> W -> result unit * W) (getInput : string -> string)
    (getBooleanInput : string -> result bool) (context : Context)
    (host : @Collaborators W) (w : W) (releaseType : string) (isPrerelease : bool) :
  releaseIntent getInput getBooleanInput context = Ok (releaseType, isPrerelease) ->
  releaseType <> "major" -> releaseType <> "minor" -> releaseType <> "patch" ->
  let o := run execSync getInput getBooleanInput context host w in
  let start := runSetup host (getInput "github-token") (getInput "working-directory") w in
  let lookup := getLatestVersion host (snd start) in
  Forall (fun e => isExternal e = false) (emitted o)
  /\ ~ In (SetOutput "released" "true") (emitted o)
  /\ match fst start with
     | Throw error =>
         final o = snd start /\ last (emitted o) = Some (SetFailed (message error))
     | Ok _ =>
         if String.eqb releaseType "none" then
           final o = snd start
           /\ last (emitted o) = Some (SetOutput "release-type" "none")
           /\ In (SetOutput "released" "false") (emitted o)
         else
           final o = snd lookup
           /\ last (emitted o)
              = Some (SetFailed
                        match fst lookup with
                        | Ok _ => "Invalid release type: " ++ releaseType
                        | Throw error => message error
                        end)
     end.
Proof.
  intros Hintent H1 H2 H3 o start lookup.
  pose proof (run_idle execSync getInput getBooleanInput context host releaseType
                isPrerelease Hintent H1 H2 H3 w) as [Hinert _].
  fold o in Hinert.
  split; [| split].
  - eapply List.Forall_impl; [| exact Hinert]. now intros e [He _].
  - intros Hin. rewrite List.Forall_forall in Hinert.
    destruct (Hinert _ Hin) as [_ Hne]. now apply Hne.
  - exact (run_idle_world execSync getInput getBooleanInput context host releaseType
             isPrerelease Hintent H1 H2 H3 w).
Qed.

Lemma run_without_release_type_witness :
  let o := manualRun "huge" "false" "true" "v2.0.3" (emptyWorld []) in
  releaseIntent (inputTable (manualInputs "huge" "false" "true"))
    (booleanInputTable (manualInputs "huge" "false" "true")) manualContext
  = Ok ("huge", false)
  /\ Forall (fun e => isExternal e = false) (emitted o)
  /\ ~ In (SetOutput "released" "true") (emitted o)
  /\ final o = emptyWorld []
  /\ last (emitted o) = Some (SetFailed "Invalid release type: huge").
Proof.
  cbv zeta. unfold manualRun.
  split; [reflexivity |].
  destruct (run_without_release_type worldExec
              (inputTable (manualInputs "huge" "false" "true"))
              (booleanInputTable (manualInputs "huge" "false" "true"))
              manualContext (quietHost "v2.0.3") (emptyWorld []) "huge" false)
    as (Hquiet & Hsilent & Hend);
    [reflexivity | discriminate | discriminate | discriminate |].
  split; [exact Hquiet |]. split; [exact Hsilent |].
  exact Hend.
Defined.

(** With the lookup of main.js as the collaborator, a run with a release
    type that does not exist fetches and lists the tags before it fails,
    and a run with the type [none] runs no command at all. *)
Example run_invalid_type_looks_up_tags :
  let shellRun := fun releaseType =>
    run (fun _ w => (Ok tt, w))
      (inputTable (manualInputs releaseType "false" "true"))
      (booleanInputTable (manualInputs releaseType "false" "true"))
      manualContext shellHost [] in
  final (shellRun "huge")
  = ["git fetch --tags"; "git tag --sort=-version:refname";
     "git describe --tags --abbrev=0 --match=" ++ dq ++ "v*.*.*" ++ dq]
  /\ last (emitted (shellRun "huge")) = Some (SetFailed "Invalid release type: huge")
  /\ final (shellRun "none") = [].
Proof. vm_compute. repeat split. Qed.

(** A manual run with the release type [none] ends on the two outputs. *)
Example run_without_label :
  emitted (manualRun "none" "false" "true" "v2.0.3" (emptyWorld []))
  = [Info "Starting Semantic Release Action...";
     Info "Detected trigger mode: manual";
     Info "No release labels found. Skipping release creation.";
     SetOutput "released" "false";
     SetOutput "release-type" "none"].
Proof. reflexivity. Qed.

Section RunEnding.

Context {W : Type}.
Variable execSync : GitCmd -> W -> result unit * W.
Variable getInput : string -> string.
Variable getBooleanInput : string -> result bool.
Variable context : Context.
Variable host : @Collaborators W.

Ltac ending_step :=
  first
    [ wp_step
    | lazymatch goal with
      | |- post (readInputs _ _) _ _ =>
          eapply post_emits; [apply readInputs_emits | intros [? | ?] ? ? ?]
      | |- post (parseLabels _ _ _ _ _) _ _ =>
          eapply post_emits; [apply parseLabels_emits | intros [[? ?] | ?] ? ? ?]
      | |- post (createAndPushTag _ _) _ _ =>
          eapply post_emits; [apply createAndPushTag_plain | intros [? | ?] ? ? ?]
      | |- post (createRelease _ _ _) _ _ =>
          eapply post_emits; [apply createRelease_plain | intros [? | ?] ? ? ?]
      | |- post (majorStep _ _ _ _ _ _ _) _ _ =>
          eapply post_conseq;
          [ apply majorStep_outcome | intros ? ? ? (-> & ? & _) ]
      end ].

Ltac not_failed :=
  repeat first
    [ apply Forall_app; split
    | apply List.Forall_cons
    | apply List.Forall_nil
    | exact I
    | (eapply List.Forall_impl; [| eassumption];
       first [exact quiet_notFailed | exact notOutput_notFailed
             | exact majorStepEvent_notFailed]) ].

Lemma run_ending (w : W) :
  post (run execSync getInput getBooleanInput context host) w
    (fun _ _ ev => runEnding ev).
Proof.
  unfold run. effects_unfold.
  repeat ending_step; cbv beta iota.
  all: first
         [ left; do 2 eexists; split; [reflexivity | solve [not_failed]]
         | right; split;
           [ solve [not_failed]
           | rewrite ?app_nil_r, ?app_assoc;
             first [left; apply last_snoc | right; apply last_snoc] ] ].
Qed.

Ltac output_step :=
  first
    [ wp_step
    | lazymatch goal with
      | |- post (readInputs _ _) _ _ =>
          eapply post_emits_res; [apply readInputs_emits | intros [? | ?] ? ? ? ?]
      | |- post (parseLabels _ _ _ _ _) _ _ =>
          eapply post_emits_res; [apply parseLabels_emits | intros [[? ?] | ?] ? ? ? ?]
      | |- post (createAndPushTag _ _) _ _ =>
          eapply post_conseq;
          [apply createAndPushTag_pushed | intros [[] | ?] ? ? (? & ?)]
      | |- post (createRelease _ _ _) _ _ =>
          eapply post_conseq;
          [apply createRelease_trace | intros [? | ?] ? ? ->]
      | |- post (majorStep _ _ _ _ _ _ _) _ _ =>
          eapply post_conseq;
          [ apply majorStep_outcome | intros ? ? ? (-> & ? & _) ]
      end ].

Ltac not_announced :=
  repeat first
    [ apply Forall_app; split
    | apply List.Forall_cons
    | apply List.Forall_nil
    | discriminate
    | (eapply List.Forall_impl; [| eassumption];
       first [ exact (fun e => quiet_not_output e "released" "true")
             | exact notOutput_not_announced ]) ].

Lemma run_announces (w : W) :
  post (run execSync getInput getBooleanInput context host) w
    (fun _ _ ev =>
       Forall (fun e => e <> SetOutput "released" "true") ev
       \/ announced getInput getBooleanInput context ev).
Proof.
  unfold run. effects_unfold.
  repeat output_step; cbv beta iota.
  all: try solve [left; not_announced].
  all: right.
  all: repeat match goal with
         | H : isOk (Ok _) = true -> _ |- _ => specialize (H eq_refl)
         end.
  all: match goal with
       | Hr : res (readInputs _ _ _) = Ok ?i,
         Hl : res (parseLabels _ _ _ ?i _ _) = Ok (?s, ?b),
         Hc : calculateVersion ?latest ?s ?b _ = Ok ?v |- _ =>
           destruct (readInputs_prerelease getInput getBooleanInput _ _ Hr) as [Hs Hn];
           rewrite Hs, Hn in Hc;
           pose proof (releaseIntent_intro getInput getBooleanInput context _ _ _ _ _ Hr Hl)
             as Hi;
           exists s, b, latest, v
       end.
  all: do 2 eexists.
  all: split; [eassumption |]; split; [eassumption |].
  all: unfold releaseParams; cbn [isOk ro_tagName ro_name ro_body ro_prerelease].
  all: repeat split; find_event.
Qed.

End RunEnding.

(** X23.  How a run reports a failure: the failure mark is set at most
    once, as the very last event, right after the error line that carries
    the same message; and a run that is not marked as failed ends on the
    line that says it completed, or on the output [release-type] = [none]
    of a run that had nothing to release. *)
Theorem run_failure_report {W : Type}
    (execSync : GitCmd -> W -> result unit * W) (getInput : string -> string)
    (getBooleanInput : string -> result bool) (context : Context)
    (host : @Collaborators W) (w : W) :
  let events := emitted (run execSync getInput getBooleanInput context host w) in
  (forall msg, In (SetFailed msg) events ->
     exists body,
       events = (body ++ [LogError ("Action failed: " ++ msg); SetFailed msg])%list
       /\ forall other, ~ In (SetFailed other) body)
  /\ ((forall msg, ~ In (SetFailed msg) events) ->
      last events = Some (Info "Semantic release completed successfully!")
      \/ last events = Some (SetOutput "release-type" "none")).
Proof.
  intros events.
  pose proof (run_ending execSync getInput getBooleanInput context host w) as H.
  unfold post in H. fold events in H.
  assert (forall l, Forall notFailed l -> forall other, ~ In (SetFailed other) l) as Hnf.
  { intros l Hl other Hin. rewrite List.Forall_forall in Hl. exact (Hl _ Hin). }
  destruct H as [(body & msg' & E & Hbody) | [Hall Hlast]].
  - split.
    + intros msg Hin. rewrite E in Hin. apply in_app_or in Hin as [Hin | Hin].
      * now apply Hnf in Hin.
      * destruct Hin as [? | [[= <-] | []]]; [discriminate |].
        exists body. split; [exact E | now apply Hnf].
    + intros Hnone. exfalso. apply (Hnone msg'). rewrite E.
      apply in_or_app. right. right. now left.
  - split; [| intros _; exact Hlast].
    intros msg Hin. now apply Hnf in Hin.
Qed.

(** X24.  The outputs of a run tell the truth: when the output [released]
    is [true], the version in the outputs [version] and [tag-name] is the
    one that [calculateVersion] computes from the latest version in the
    output [previous-version] and from the release type and prerelease flag
    in the outputs [release-type] and [is-prerelease]; the tag of that name
    was pushed with success; and the release was created, with success,
    under that tag and name, not as a draft, and as a prerelease exactly
    when the flag says so. *)
Theorem run_outputs {W : Type}
    (execSync : GitCmd -> W -> result unit * W) (getInput : string -> string)
    (getBooleanInput : string -> result bool) (context : Context)
    (host : @Collaborators W) (w : W) :
  let events := emitted (run execSync getInput getBooleanInput context host w) in
  In (SetOutput "released" "true") events ->
  announced getInput getBooleanInput context events.
Proof.
  intros events Hin.
  pose proof (run_announces execSync getInput getBooleanInput context host w) as [H | H].
  - fold events in H. rewrite List.Forall_forall in H. now destruct (H _ Hin).
  - exact H.
Qed.

Lemma run_outputs_witness :
  let events := emitted (manualRun "minor" "true" "true" "v1.4.2" (emptyWorld [])) in
  In (SetOutput "released" "true") events
  /\ announced (inputTable (manualInputs "minor" "true" "true"))
       (booleanInputTable (manualInputs "minor" "true" "true")) manualContext events.
Proof.
  cbv zeta. unfold manualRun.
  assert (In (SetOutput "released" "true")
            (emitted (run worldExec (inputTable (manualInputs "minor" "true" "true"))
                        (booleanInputTable (manualInputs "minor" "true" "true"))
                        manualContext (quietHost "v1.4.2") (emptyWorld [])))) as Hin
    by (vm_compute; auto 40).
  split; [exact Hin |].
  exact (run_outputs worldExec (inputTable (manualInputs "minor" "true" "true"))
           (booleanInputTable (manualInputs "minor" "true" "true")) manualContext
           (quietHost "v1.4.2") (emptyWorld []) Hin).
Defined.

(** ** main.js: the helpers that talk to the shell *)

Lemma isSemverTag_not_major (tag : string) :
  isSemverTag tag = true -> isMajorTagName tag = false.
Proof.
  unfold isSemverTag, isMajorTagName.
  destruct (spanDigits (slice 1 tag)) as [d1 r1] eqn:E1.
  destruct (spanDigits (slice 1 r1)) as [d2 r2].
  destruct (spanDigits (slice 1 r2)) as [d3 r3].
  intros H.
  apply andb_true_iff in H as [H _]. apply andb_true_iff in H as [H _].
  apply andb_true_iff in H as [H _]. apply andb_true_iff in H as [H Hdot].
  apply spanDigits_spec in E1 as [E1 _]. apply startsWith_inv in Hdot.
  rewrite E1, Hdot, allChars_dot. apply andb_false_r.
Qed.

Lemma filter_first {A} (p : A -> bool) (before : list A) (x : A) (after : list A) :
  Forall (fun y => p y = false) before -> p x = true ->
  List.filter p (before ++ x :: after) = x :: List.filter p after.
Proof.
  intros Hb Hx. induction Hb as [| y l Hy _ IH]; cbn [app List.filter].
  - now rewrite Hx.
  - now rewrite Hy.
Qed.

Section ShellHelpers.

Context {W : Type}.
Variable execSync : string -> W -> result string * W.
Variable existsSync : string -> W -> bool.

Lemma shell_run (command : string) (w : W) Q :
  Q (fst (execSync command w)) (snd (execSync command w)) [] ->
  post (Helpers.shell execSync command) w Q.
Proof. unfold post, Helpers.shell, opaque. now destruct (execSync command w). Qed.

Lemma getLatestVersion_safe : safe isInfo (Helpers.getLatestVersion execSync).
Proof.
  unfold Helpers.getLatestVersion, Helpers.shell. effects_unfold.
  apply safe_tryCatch.
  - repeat emits_step; exact I.
  - intros e. repeat safe_step; exact I.
Qed.

Lemma commitChanges_safe (newVersion : string) (inputs : Inputs) :
  safe isInfo (Helpers.commitChanges execSync existsSync newVersion inputs).
Proof.
  unfold Helpers.commitChanges, Helpers.shell, Helpers.fileExists. effects_unfold.
  apply safe_tryCatch.
  - apply emits_bind; [intros w; constructor | intros hasYml].
    apply emits_bind; [intros w; constructor | intros hasYaml].
    repeat emits_step; exact I.
  - intros e. repeat safe_step; exact I.
Qed.

End ShellHelpers.

(** X25.  [getLatestVersion] never throws and logs plain lines only; when
    the tags cannot be fetched or listed it answers [v0.0.0], whatever tags
    there are, after the line that says that no previous tag was found. *)
Theorem getLatestVersion_falls_back {W : Type}
    (execSync : string -> W -> result string * W) (w : W) :
  let o := Helpers.getLatestVersion execSync w in
  let fetch := execSync "git fetch --tags" w in
  let listing := execSync "git tag --sort=-version:refname" (snd fetch) in
  (exists version, res o = Ok version)
  /\ Forall isInfo (emitted o)
  /\ (isOk (fst fetch) && isOk (fst listing) = false ->
      res o = Ok "v0.0.0"
      /\ emitted o = [Info "No previous tags found, starting from v0.0.0"]).
Proof.
  intros o fetch listing.
  destruct (getLatestVersion_safe execSync w) as [Hres Hev].
  split; [exact Hres |]. split; [exact Hev |].
  enough (post (Helpers.getLatestVersion execSync) w
            (fun r _ ev =>
               isOk (fst fetch) && isOk (fst listing) = false ->
               r = Ok "v0.0.0"
               /\ ev = [Info "No previous tags found, starting from v0.0.0"])) as H
    by exact H.
  unfold Helpers.getLatestVersion. effects_unfold.
  apply post_tryCatch. apply post_bind. apply shell_run. fold fetch.
  destruct (fst fetch) as [fetched | error]; cbv beta iota.
  - apply post_bind. apply shell_run. fold listing.
    destruct (fst listing) as [out | error]; cbv beta iota.
    + apply post_trivial. intros r w' ev. destruct r; intros; discriminate.
    + wp. intros _. now split.
  - wp. intros _. now split.
Qed.

(** X26.  From the listing of the tags [getLatestVersion] returns the first
    line that starts like a semantic version ([v], digits, a dot, digits, a
    dot, digits), skipping the lines before it that do not; it logs nothing
    and leaves the world as the listing left it; the tag it returns is
    never a major-tracking tag. *)
Theorem getLatestVersion_from_listing {W : Type}
    (execSync : string -> W -> result string * W) (w : W)
    (fetched listing : string) (w1 w2 : W) (before : list string) (tag : string)
    (after : list string) :
  execSync "git fetch --tags" w = (Ok fetched, w1) ->
  execSync "git tag --sort=-version:refname" w1 = (Ok listing, w2) ->
  split "010" (trim listing) = (before ++ tag :: after)%list ->
  Forall (fun line => isSemverTag line = false) before ->
  isSemverTag tag = true ->
  Helpers.getLatestVersion execSync w = mkOutcome (Ok tag) w2 []
  /\ isMajorTagName tag = false.
Proof.
  intros Hfetch Hlist Hsplit Hbefore Htag.
  split; [| now apply isSemverTag_not_major].
  apply post_outcome. cbn [res final emitted].
  unfold Helpers.getLatestVersion. effects_unfold.
  apply post_tryCatch. apply post_bind. apply shell_run. rewrite Hfetch.
  cbn [fst snd]. cbv beta iota. apply post_bind. apply shell_run. rewrite Hlist.
  cbn [fst snd]. cbv beta iota zeta.
  assert (nonEmpty (trim listing) = true) as ->.
  { destruct (trim listing); [| reflexivity]. cbn in Hsplit.
    destruct before as [| x [| y l]]; try discriminate.
    injection Hsplit as <- _. discriminate. }
  rewrite Hsplit, filter_first by assumption.
  apply post_ret. now repeat split.
Qed.

Lemma getLatestVersion_from_listing_witness :
  let listing := "v2" ++ nl ++ "v1.4.0" ++ nl ++ "v1" ++ nl ++ "v1.3.9" ++ nl in
  split "010" (trim listing) = ["v2"; "v1.4.0"; "v1"; "v1.3.9"]
  /\ isSemverTag "v2" = false
  /\ Helpers.getLatestVersion (listingShell listing) tt = mkOutcome (Ok "v1.4.0") tt []
  /\ isMajorTagName "v1.4.0" = false.
Proof.
  split; [reflexivity |]. split; [reflexivity |].
  apply (getLatestVersion_from_listing
           (listingShell ("v2" ++ nl ++ "v1.4.0" ++ nl ++ "v1" ++ nl ++ "v1.3.9" ++ nl))
           tt "" ("v2" ++ nl ++ "v1.4.0" ++ nl ++ "v1" ++ nl ++ "v1.3.9" ++ nl) tt tt
           ["v2"] "v1.4.0" ["v1"; "v1.3.9"]);
    first [reflexivity | now repeat constructor].
Defined.

(** In a repository without tags the first version is [v0.0.0]: here
    [git describe] fails, as it does when no tag matches. *)
Example getLatestVersion_no_tag :
  Helpers.getLatestVersion
    (fun command w =>
       if String.eqb command "git fetch --tags" || String.eqb command "git tag --sort=-version:refname"
       then (Ok "", w)
       else (Throw (gitError "fatal: No names found, cannot describe anything."), w)) tt
  = mkOutcome (Ok "v0.0.0") tt
      [Info "No previous semantic version tags found, starting from v0.0.0"].
Proof. reflexivity. Qed.

(** X27.  [generateReleaseNotes] never throws: with the notes switched off
    it touches nothing and answers [Release <version>]; otherwise it lists
    the commits since the latest version, and answers the heading, the
    commits and, unless the latest version is [v0.0.0], the link to the
    comparison; when the listing fails it warns and answers [Release
    <version>]. *)
Theorem generateReleaseNotes_falls_back {W : Type}
    (execSync : string -> W -> result string * W) (context : Context)
    (latestVersion newVersion : string) (inputs : Inputs) (w : W) :
  let o := Helpers.generateReleaseNotes execSync context latestVersion newVersion inputs w in
  let log := execSync (Helpers.logCommand latestVersion) w in
  (autoGenerateNotes inputs = false ->
   o = mkOutcome (Ok ("Release " ++ newVersion)) w [])
  /\ (autoGenerateNotes inputs = true ->
      final o = snd log
      /\ match fst log with
         | Ok commits =>
             res o = Ok ("## What's Changed" ++ nl ++ nl ++ commits
                         ++ changelogLink context latestVersion newVersion)
             /\ emitted o = [Info "Generating release notes..."]
         | Throw _ =>
             res o = Ok ("Release " ++ newVersion)
             /\ emitted o = [Info "Generating release notes...";
                             Warning "Failed to generate detailed release notes"]
         end).
Proof.
  intros o log. unfold o, Helpers.generateReleaseNotes. split.
  - intros ->. reflexivity.
  - intros ->. cbn [negb].
    match goal with
    | |- final (?m w) = _ /\ _ =>
        enough (post m w
                  (fun r w' ev =>
                     w' = snd log
                     /\ match fst log with
                        | Ok commits =>
                            r = Ok ("## What's Changed" ++ nl ++ nl ++ commits
                                    ++ changelogLink context latestVersion newVersion)
                            /\ ev = [Info "Generating release notes..."]
                        | Throw _ =>
                            r = Ok ("Release " ++ newVersion)
                            /\ ev = [Info "Generating release notes...";
                                     Warning "Failed to generate detailed release notes"]
                        end)) as H by exact H
    end.
    effects_unfold. apply post_bind. apply post_emit. cbv beta iota.
    apply post_tryCatch. apply post_bind. apply shell_run. fold log.
    destruct (fst log) as [commits | error]; cbv beta iota zeta.
    + unfold changelogLink.
      destruct (String.eqb latestVersion "v0.0.0"); cbn [negb]; apply post_ret;
        (split; [reflexivity | split; [| reflexivity]]).
      * now rewrite append_nil_r.
      * f_equal. rewrite !append_assoc. reflexivity.
    + wp. now repeat split.
Qed.

(** X28.  [commitChanges] never throws, whatever the commands do, the
    commit included: a failure is swallowed and the run goes on.  It logs
    plain lines only, and its last line is one of the two that announce a
    commit, the line that says that there is nothing to commit, and the
    line that says that there is nothing to commit or that the commit
    failed. *)
Theorem commitChanges_never_fails {W : Type}
    (execSync : string -> W -> result string * W) (existsSync : string -> W -> bool)
    (newVersion : string) (inputs : Inputs) (w : W) :
  let o := Helpers.commitChanges execSync existsSync newVersion inputs w in
  res o = Ok tt
  /\ Forall isInfo (emitted o)
  /\ (last (emitted o) = Some (Info "Committing built files and version changes...")
      \/ last (emitted o) = Some (Info "Committing version changes...")
      \/ last (emitted o) = Some (Info "No changes to commit")
      \/ last (emitted o) = Some (Info "No changes to commit or commit failed")).
Proof.
  intros o.
  destruct (commitChanges_safe execSync existsSync newVersion inputs w) as [[[] Hres] Hev].
  split; [exact Hres |]. split; [exact Hev |].
  enough (post (Helpers.commitChanges execSync existsSync newVersion inputs) w
            (fun _ _ ev =>
               last ev = Some (Info "Committing built files and version changes...")
               \/ last ev = Some (Info "Committing version changes...")
               \/ last ev = Some (Info "No changes to commit")
               \/ last ev = Some (Info "No changes to commit or commit failed"))) as H
    by exact H.
  unfold Helpers.commitChanges, Helpers.shell, Helpers.fileExists. effects_unfold.
  apply post_tryCatch. apply post_bind. unfold post at 1. cbn [res final emitted].
  apply post_bind. unfold post at 1. cbn [res final emitted].
  wp; rewrite ?app_nil_r, ?app_assoc;
    first [ left; apply last_snoc
          | right; left; apply last_snoc
          | right; right; left; apply last_snoc
          | right; right; right; apply last_snoc ].
Qed.

(** ** The major tag on the tag store *)

Lemma updateMajorVersionTag_store (g : GitStore) (majorVersion fullVersion : string) :
  post (updateMajorVersionTag gitExec majorVersion fullVersion) g
    (fun r g' _ =>
       r = Ok tt
       /\ g' = mkGitStore (HEAD g) (<[majorVersion := HEAD g]> (localTags g))
                 (<[majorVersion := HEAD g]> (remoteTags g)) (remoteBranch g)).
Proof.
  destruct g as [h lt rt rb]. cbn [HEAD localTags remoteTags remoteBranch].
  unfold updateMajorVersionTag. effects_unfold.
  destruct (lt !! majorVersion) as [c1 |] eqn:E1;
    destruct (rt !! majorVersion) as [c2 |] eqn:E2;
    repeat store_step;
    rewrite ?insert_delete_eq; now split.
Qed.

(** X29.  On the in-memory tag store, the major tag follows the version
    tag: after [createAndPushTag] for a version and [updateMajorVersionTag]
    for its major tag, both have succeeded whatever the store held; the
    major tag and the version tag point at the current commit, locally and
    on the remote; and no other tag has changed. *)
Theorem major_tag_tracks_release (g : GitStore) (newVersion majorVersion : string) :
  let tagged := createAndPushTag gitExec newVersion g in
  let moved := updateMajorVersionTag gitExec majorVersion newVersion (final tagged) in
  res tagged = Ok tt
  /\ res moved = Ok tt
  /\ localTags (final moved) !! majorVersion = Some (HEAD g)
  /\ remoteTags (final moved) !! majorVersion = Some (HEAD g)
  /\ localTags (final moved) !! newVersion = Some (HEAD g)
  /\ remoteTags (final moved) !! newVersion = Some (HEAD g)
  /\ (forall other, other <> majorVersion -> other <> newVersion ->
        localTags (final moved) !! other = localTags g !! other
        /\ remoteTags (final moved) !! other = remoteTags g !! other).
Proof.
  cbv zeta.
  pose proof (createAndPushTag_store g newVersion) as H1. unfold post in H1.
  set (tagged := createAndPushTag gitExec newVersion g) in *. clearbody tagged.
  destruct H1 as (R1 & F1 & _). rewrite F1.
  set (g1 := mkGitStore _ _ _ _).
  pose proof (updateMajorVersionTag_store g1 majorVersion newVersion) as H2.
  unfold post in H2.
  set (moved := updateMajorVersionTag gitExec majorVersion newVersion g1) in *.
  clearbody moved. destruct H2 as (R2 & F2). rewrite F2. unfold g1.
  cbn [HEAD localTags remoteTags].
  split; [exact R1 |]. split; [exact R2 |].
  rewrite !lookup_insert_eq.
  split; [reflexivity |]. split; [reflexivity |].
  assert (forall (m : gmap string string) h,
            <[majorVersion := h]> (<[newVersion := h]> m) !! newVersion = Some h) as Hboth.
  { intros m h. destruct (decide (majorVersion = newVersion)) as [-> | Hne].
    - apply lookup_insert_eq.
    - rewrite lookup_insert_ne by assumption. apply lookup_insert_eq. }
  split; [apply Hboth |]. split; [apply Hboth |].
  intros other Hm Hv. rewrite !lookup_insert_ne by congruence. now split.
Qed.
